(** * The asset grouper and slug router of the portfolio site

    A shallow embedding of the pure logic of [src/projectContent.js] (the
    content table followed by the application component): the helpers
    [toRouteSlug], [normalizePathname], [getProjectSlugFromPathname],
    [getProjectPath], [getFolderDateValue], [toTitleCase] and
    [toCounterValue], the grouping pass of the [useMemo] block that builds
    [shoots] and [digitalImages], the texts taken from the content table,
    the selection of the routed project and the branch of the page that
    is rendered for it, and the handlers that move between the pages and
    keep the position of the work slider.

    JavaScript strings are sequences of UTF-16 code units; regular
    expression literals are kept as syntax trees and run by a small
    backtracking matcher, so that every pattern of the source can be read
    off its definition here. *)

From Stdlib Require Import String Ascii.
From Stdlib Require Import ZArith NArith List Bool Lia.
From Stdlib Require Import Permutation Sorted.
Import ListNotations.

Set Implicit Arguments.

(** ** Strings of the runtime *)

Module JS.

(** A string value: its UTF-16 code units, in order. *)
Definition jsstring := list N.

(** A literal of the source (all of them are ASCII). *)
Definition lit (s : string) : jsstring :=
  map N_of_ascii (list_ascii_of_string s).
Arguments lit s%_string.

(** Strict equality [===] on strings. *)
Fixpoint streq (a b : jsstring) : bool :=
  match a, b with
  | [], [] => true
  | x :: a', y :: b' => N.eqb x y && streq a' b'
  | _, _ => false
  end.

(** [s.startsWith(p)]. *)
Fixpoint startsWith (p s : jsstring) : bool :=
  match p, s with
  | [], _ => true
  | x :: p', y :: s' => N.eqb x y && startsWith p' s'
  | _ :: _, [] => false
  end.

(** [s.slice(n)] for [0 <= n]. *)
Definition slice (n : nat) (s : jsstring) : jsstring := skipn n s.

(** [s.split(sep)] for a separator of one code unit: never empty. *)
Fixpoint split (sep : N) (s : jsstring) : list jsstring :=
  match s with
  | [] => [[]]
  | c :: t =>
      if N.eqb c sep then [] :: split sep t
      else match split sep t with
           | [] => [[c]]
           | h :: r => (c :: h) :: r
           end
  end.

(** Character classes used by the patterns of the source. *)
Definition inRange (lo hi c : N) : bool := N.leb lo c && N.leb c hi.
Definition isDigit (c : N) : bool := inRange 48 57 c.
Definition isLowerAZ (c : N) : bool := inRange 97 122 c.
Definition isUpperAZ (c : N) : bool := inRange 65 90 c.
Definition isAscii (c : N) : bool := N.ltb c 128.

(** [LineTerminator]: LF, CR, LS, PS; a dot of a pattern matches the rest. *)
Definition isLineTerminator (c : N) : bool :=
  N.eqb c 10 || N.eqb c 13 || N.eqb c 8232 || N.eqb c 8233.
Definition isDot (c : N) : bool := negb (isLineTerminator c).

Definition asciiLower (c : N) : N := if isUpperAZ c then (c + 32)%N else c.
Definition asciiUpper (c : N) : N := if isLowerAZ c then (c - 32)%N else c.

(** ** Regular expressions

    The fragment the source uses: classes of one code unit, a greedy [+]
    over a class, sequence, alternation, a greedy [?], numbered capture
    groups and the two anchors (no [m] flag anywhere, so [^] and [$] are
    the ends of the input). *)

Inductive regex : Type :=
| REps
| RChar (p : N -> bool)
| RPlus (p : N -> bool)
| RSeq (a b : regex)
| RAlt (a b : regex)
| ROpt (a : regex)
| RGroup (n : nat) (a : regex)
| RBol
| REol.

(** Matcher state: index of the next code unit, the input from there on,
    and the captures closed so far (latest first). *)
Record mstate : Type := MState {
  pos : nat;
  rest : jsstring;
  caps : list (nat * jsstring)
}.

(** [p+] then the continuation: longest run first, giving code units back
    one at a time when the continuation fails. *)
Fixpoint plusLoop (p : N -> bool) (k : nat -> jsstring -> option mstate)
    (i : nat) (s : jsstring) : option mstate :=
  match s with
  | [] => None
  | c :: t =>
      if p c then
        match plusLoop p k (S i) t with
        | Some r => Some r
        | None => k (S i) t
        end
      else None
  end.

(** The backtracking matcher in continuation-passing style: the first
    alternative that lets the continuation succeed wins, as in the
    language's pattern semantics. *)
Fixpoint rmatch (r : regex) (st : mstate) (k : mstate -> option mstate)
    : option mstate :=
  match r with
  | REps => k st
  | RChar p =>
      match rest st with
      | c :: t => if p c then k (MState (S (pos st)) t (caps st)) else None
      | [] => None
      end
  | RPlus p =>
      plusLoop p (fun i s => k (MState i s (caps st))) (pos st) (rest st)
  | RSeq a b => rmatch a st (fun st' => rmatch b st' k)
  | RAlt a b =>
      match rmatch a st k with
      | Some x => Some x
      | None => rmatch b st k
      end
  | ROpt a =>
      match rmatch a st k with
      | Some x => Some x
      | None => k st
      end
  | RGroup n a =>
      rmatch a st (fun st' =>
        k (MState (pos st') (rest st')
             ((n, firstn (pos st' - pos st) (rest st)) :: caps st')))
  | RBol => if Nat.eqb (pos st) 0 then k st else None
  | REol => match rest st with [] => k st | _ :: _ => None end
  end.

(** A match attempt anchored at index [i], where [s] is the input from
    [i] on. *)
Definition matchAt (r : regex) (i : nat) (s : jsstring) : option mstate :=
  rmatch r (MState i s []) Some.

(** [RegExp.prototype.exec] on a pattern without the [g] flag: the
    leftmost index at which an attempt succeeds. *)
Fixpoint execFrom (r : regex) (i : nat) (s : jsstring) : option mstate :=
  match matchAt r i s with
  | Some st => Some st
  | None =>
      match s with
      | [] => None
      | _ :: t => execFrom r (S i) t
      end
  end.

Definition exec (r : regex) (s : jsstring) : option mstate := execFrom r 0 s.

(** [re.test(s)]. *)
Definition test (r : regex) (s : jsstring) : bool :=
  match exec r s with Some _ => true | None => false end.

(** [match[n]] of a successful match. *)
Fixpoint lookupCap (n : nat) (cs : list (nat * jsstring)) : option jsstring :=
  match cs with
  | [] => None
  | (m, v) :: cs' => if Nat.eqb m n then Some v else lookupCap n cs'
  end.

Definition group (n : nat) (st : mstate) : jsstring :=
  match lookupCap n (caps st) with Some v => v | None => [] end.

(** [s.replace(re, rep)] for a replacement text without [$] patterns.
    [global] is the [g] flag; [skip] counts the code units still covered
    by the previous match.  An empty match keeps the code unit at its
    index and moves on by one, as [lastIndex] does. *)
Fixpoint replaceFrom (r : regex) (rep : jsstring) (global : bool)
    (i skip : nat) (s : jsstring) {struct s} : jsstring :=
  match skip with
  | S k =>
      match s with
      | [] => []
      | _ :: t => replaceFrom r rep global (S i) k t
      end
  | O =>
      match matchAt r i s with
      | Some st =>
          rep ++
          match pos st - i with
          | O =>
              match s with
              | [] => []
              | c :: t => c :: (if global then replaceFrom r rep global (S i) 0 t else t)
              end
          | S k =>
              match s with
              | [] => []
              | _ :: t => if global then replaceFrom r rep global (S i) k t else skipn k t
              end
          end
      | None =>
          match s with
          | [] => []
          | c :: t => c :: replaceFrom r rep global (S i) 0 t
          end
      end
  end.

Definition replace (r : regex) (rep s : jsstring) : jsstring :=
  replaceFrom r rep false 0 0 s.

Definition replaceAll (r : regex) (rep s : jsstring) : jsstring :=
  replaceFrom r rep true 0 0 s.

(** Pattern builders. *)
Definition rseq (rs : list regex) : regex := fold_right RSeq REps rs.
Definition rch (c : N) : regex := RChar (N.eqb c).
Definition rstr (s : jsstring) : regex := rseq (map rch s).
Fixpoint rrep (n : nat) (r : regex) : regex :=
  match n with
  | O => REps
  | S m => RSeq r (rrep m r)
  end.

(** A literal code unit under the [i] flag (no [u] flag): two code units
    match when they canonicalize alike; canonicalization never maps a code
    unit above 127 to an ASCII one, so an ASCII letter of the pattern
    matches exactly its two cases. *)
Definition rchI (c : N) : regex := RChar (fun x => N.eqb (asciiUpper x) (asciiUpper c)).
Definition rstrI (s : jsstring) : regex := rseq (map rchI s).

(** ** URI component coding

    [encodeURIComponent] and [decodeURIComponent] as the language
    standard gives them ([Encode] and [Decode]); [None] stands for a
    thrown [URIError]. *)

Definition isUnescaped (c : N) : bool :=
  isUpperAZ c || isLowerAZ c || isDigit c
  || existsb (N.eqb c) (lit "-_.!~*'()").

Definition hexDigit (n : N) : N :=
  if N.ltb n 10 then (48 + n)%N else (55 + n)%N.

Definition percent (b : N) : jsstring :=
  [37%N; hexDigit (b / 16); hexDigit (b mod 16)].

Definition utf8 (cp : N) : list N :=
  if N.ltb cp 128 then [cp]
  else if N.ltb cp 2048 then [192 + cp / 64; 128 + cp mod 64]%N
  else if N.ltb cp 65536 then
    [224 + cp / 4096; 128 + (cp / 64) mod 64; 128 + cp mod 64]%N
  else
    [240 + cp / 262144; 128 + (cp / 4096) mod 64;
     128 + (cp / 64) mod 64; 128 + cp mod 64]%N.

Definition isHighSurrogate (c : N) : bool := inRange 55296 56319 c.
Definition isLowSurrogate (c : N) : bool := inRange 56320 57343 c.

Fixpoint encodeURIComponent (s : jsstring) : option jsstring :=
  match s with
  | [] => Some []
  | c :: t =>
      if isUnescaped c then option_map (cons c) (encodeURIComponent t)
      else if isLowSurrogate c then None
      else if isHighSurrogate c then
        match t with
        | d :: t' =>
            if isLowSurrogate d then
              option_map
                (app (flat_map percent
                        (utf8 (65536 + (c - 55296) * 1024 + (d - 56320))%N)))
                (encodeURIComponent t')
            else None
        | [] => None
        end
      else option_map (app (flat_map percent (utf8 c))) (encodeURIComponent t)
  end.

Definition hexVal (c : N) : option N :=
  if isDigit c then Some (c - 48)%N
  else if inRange 65 70 c then Some (c - 55)%N
  else if inRange 97 102 c then Some (c - 87)%N
  else None.

Definition isCont (b : N) : bool := inRange 128 191 b.

(** The code point of a well-formed UTF-8 sequence of two to four
    octets: no overlong form, no surrogate, nothing above U+10FFFF. *)
Definition decodeUtf8 (bs : list N) : option N :=
  match bs with
  | [b0; b1] =>
      let cp := ((b0 - 192) * 64 + (b1 - 128))%N in
      if isCont b1 && N.leb 128 cp then Some cp else None
  | [b0; b1; b2] =>
      let cp := ((b0 - 224) * 4096 + (b1 - 128) * 64 + (b2 - 128))%N in
      if isCont b1 && isCont b2 && N.leb 2048 cp
         && negb (inRange 55296 57343 cp)
      then Some cp else None
  | [b0; b1; b2; b3] =>
      let cp := ((b0 - 240) * 262144 + (b1 - 128) * 4096
                 + (b2 - 128) * 64 + (b3 - 128))%N in
      if isCont b1 && isCont b2 && isCont b3
         && N.leb 65536 cp && N.leb cp 1114111
      then Some cp else None
  | _ => None
  end.

Definition utf16 (cp : N) : jsstring :=
  if N.ltb cp 65536 then [cp]
  else [55296 + (cp - 65536) / 1024; 56320 + (cp - 65536) mod 1024]%N.

(** Number of octets announced by a leading octet: its leading one bits. *)
Definition leadingOnes (b : N) : nat :=
  if N.ltb b 128 then 0
  else if N.ltb b 192 then 1
  else if N.ltb b 224 then 2
  else if N.ltb b 240 then 3
  else if N.ltb b 248 then 4
  else 5.

(** Where the decoder stands: between characters, or inside an escape
    ([need] more octets of the current character, [acc] read so far);
    after the percent sign, after the first hex digit [h]. *)
Inductive dstate : Type :=
| DPlain
| DWantPercent (need : nat) (acc : list N)
| DWantHigh (need : nat) (acc : list N)
| DWantLow (need : nat) (acc : list N) (h : N).

(** One octet [b] has been read in the context [(need, acc)]. *)
Definition octetRead (need : nat) (acc : list N) (b : N)
    : option (jsstring * dstate) :=
  match acc with
  | [] =>
      match leadingOnes b with
      | 0 => Some ([b], DPlain)
      | 2 => Some ([], DWantPercent 1 [b])
      | 3 => Some ([], DWantPercent 2 [b])
      | 4 => Some ([], DWantPercent 3 [b])
      | _ => None
      end
  | _ :: _ =>
      match need with
      | 1 =>
          match decodeUtf8 (acc ++ [b]) with
          | Some cp => Some (utf16 cp, DPlain)
          | None => None
          end
      | S (S n) => Some ([], DWantPercent (S n) (acc ++ [b]))
      | O => None
      end
  end.

Fixpoint decodeFrom (st : dstate) (s : jsstring) : option jsstring :=
  match s with
  | [] => match st with DPlain => Some [] | _ => None end
  | c :: t =>
      match st with
      | DPlain =>
          if N.eqb c 37 then decodeFrom (DWantHigh 0 []) t
          else option_map (cons c) (decodeFrom DPlain t)
      | DWantPercent need acc =>
          if N.eqb c 37 then decodeFrom (DWantHigh need acc) t else None
      | DWantHigh need acc =>
          match hexVal c with
          | Some h => decodeFrom (DWantLow need acc h) t
          | None => None
          end
      | DWantLow need acc h =>
          match hexVal c with
          | Some l =>
              match octetRead need acc (16 * h + l)%N with
              | Some (out, st') => option_map (app out) (decodeFrom st' t)
              | None => None
              end
          | None => None
          end
      end
  end.

Definition decodeURIComponent (s : jsstring) : option jsstring :=
  decodeFrom DPlain s.

(** ** Numbers and dates *)

(** The number values the comparator of the folder sort can produce. *)
Inductive jsnum : Type :=
| NaN
| NegInf
| PosInf
| Fin (z : Z).

(** Subtraction of two number values (exact on the integers met here,
    whose magnitude stays far below 2^53). *)
Definition jsSub (a b : jsnum) : jsnum :=
  match a, b with
  | NaN, _ | _, NaN => NaN
  | Fin x, Fin y => Fin (x - y)
  | NegInf, NegInf | PosInf, PosInf => NaN
  | NegInf, _ | _, PosInf => NegInf
  | PosInf, _ | _, NegInf => PosInf
  end.

(** [a !== 0]. *)
Definition notZero (a : jsnum) : bool :=
  match a with
  | Fin z => negb (z =? 0)%Z
  | _ => true
  end.

(** [Number(s)] on a string of decimal digits (the only strings the
    source converts); anything else is [None], the not-a-number value. *)
Definition Number (s : jsstring) : option Z :=
  match s with
  | [] => None
  | _ :: _ =>
      if forallb isDigit s
      then Some (fold_left (fun acc c => 10 * acc + (Z.of_N c - 48))%Z s 0%Z)
      else None
  end.

Definition DayFromYear (y : Z) : Z :=
  (365 * (y - 1970) + (y - 1969) / 4 - (y - 1901) / 100 + (y - 1601) / 400)%Z.

Definition isLeapYear (y : Z) : bool :=
  (y mod 4 =? 0)%Z && (negb (y mod 100 =? 0)%Z || (y mod 400 =? 0)%Z).

Definition daysBeforeMonth (leap : bool) (m : Z) : Z :=
  (nth (Z.to_nat m) [0; 31; 59; 90; 120; 151; 181; 212; 243; 273; 304; 334] 0
   + (if leap && (2 <=? m) then 1 else 0))%Z.

(** [MakeDay]: month numbers outside 0..11 carry into the year, day
    numbers outside the month carry into the following months. *)
Definition MakeDay (year month date : Z) : Z :=
  let ym := (year + month / 12)%Z in
  let mn := (month mod 12)%Z in
  (DayFromYear ym + daysBeforeMonth (isLeapYear ym) mn + date - 1)%Z.

(** [Date.UTC(year, month, day)] in milliseconds; a year from 0 to 99
    stands for 1900 + year. *)
Definition DateUTC (year month day : Z) : Z :=
  let yr := if (0 <=? year)%Z && (year <=? 99)%Z then (1900 + year)%Z else year in
  (MakeDay yr month day * 86400000)%Z.

(** ** Arrays *)

(** What [Array.prototype.sort] reads off a comparator result: not-a-number
    counts as zero. *)
Definition sortOrder (v : jsnum) : Z :=
  match v with
  | NaN => 0%Z
  | NegInf => (-1)%Z
  | PosInf => 1%Z
  | Fin z => z
  end.

(** [Array.prototype.sort] is stable; for a consistent comparator its
    result is the stable sorted arrangement, computed here by insertion
    from the right. *)
Fixpoint insertBy {A : Type} (cmp : A -> A -> jsnum) (x : A) (l : list A)
    : list A :=
  match l with
  | [] => [x]
  | y :: t =>
      if (sortOrder (cmp x y) <=? 0)%Z then x :: l
      else y :: insertBy cmp x t
  end.

Definition sort {A : Type} (cmp : A -> A -> jsnum) (l : list A) : list A :=
  fold_right (insertBy cmp) [] l.

(** ** Locale-dependent operations

    [String.prototype.toLowerCase] and [localeCompare] with
    [{ sensitivity: "base" }] depend on the Unicode tables and the
    collation of the host; the development is parametric in them. *)
Class Runtime : Type := {
  toLowerCase : jsstring -> jsstring;
  localeCompareBase : jsstring -> jsstring -> Z
}.

(** What the standards promise about them: lower-casing acts on ASCII
    strings letter by letter, never yields an upper-case ASCII letter and
    never empties a string; the collator is a consistent comparator. *)
Class RuntimeLaws (R : Runtime) : Prop := {
  toLowerCase_ascii :
    forall s, forallb isAscii s = true -> toLowerCase s = map asciiLower s;
  toLowerCase_no_upper :
    forall s c, In c (toLowerCase s) -> isUpperAZ c = false;
  toLowerCase_nonempty :
    forall s, toLowerCase s = [] -> s = [];
  localeCompare_antisym :
    forall a b,
      Z.sgn (localeCompareBase a b) = (- Z.sgn (localeCompareBase b a))%Z;
  localeCompare_trans :
    forall a b c,
      (localeCompareBase a b <= 0)%Z -> (localeCompareBase b c <= 0)%Z ->
      (localeCompareBase a c <= 0)%Z
}.

(** A host for ASCII text: letters fold to lower case one by one and
    strings compare by their folded code units. *)
Fixpoint compareUnits (a b : jsstring) : Z :=
  match a, b with
  | [], [] => 0%Z
  | [], _ :: _ => (-1)%Z
  | _ :: _, [] => 1%Z
  | x :: a', y :: b' =>
      if N.eqb x y then compareUnits a' b'
      else if N.ltb x y then (-1)%Z else 1%Z
  end.

Definition asciiRuntime : Runtime := {|
  toLowerCase := map asciiLower;
  localeCompareBase := fun a b =>
    compareUnits (map asciiLower a) (map asciiLower b)
|}.

End JS.

Import JS.

(** ** The application *)

Section App.

Context {R : Runtime}.

(** The type of deferred image loaders (the values of [photoLoaders]). *)
Variable Loader : Type.

Definition HERO_PATH : jsstring := lit "./assets/photos/A.Wachtendonk-17.JPG".

(** [/^(\d{4})-(\d{2})-(\d{2})-(.+)$/] *)
Definition SHOOT_FOLDER_RE : regex :=
  rseq [RBol;
        RGroup 1 (rrep 4 (RChar isDigit)); rstr (lit "-");
        RGroup 2 (rrep 2 (RChar isDigit)); rstr (lit "-");
        RGroup 3 (rrep 2 (RChar isDigit)); rstr (lit "-");
        RGroup 4 (RPlus isDot);
        REol].

(** [/^cover\.(jpg|jpeg|png)$/i] *)
Definition coverRegex : regex :=
  rseq [RBol;
        rstrI (lit "cover.");
        RGroup 1 (RAlt (rstrI (lit "jpg"))
                    (RAlt (rstrI (lit "jpeg")) (rstrI (lit "png"))));
        REol].

Definition PHOTO_ROOT_PREFIX : jsstring := lit "./assets/photos/".
Definition PROJECT_PATH_PREFIX : jsstring := lit "/portfolio/".

Definition isHyphen (c : N) : bool := N.eqb 45 c.
Definition isSlash (c : N) : bool := N.eqb 47 c.

(** <<
    value.toLowerCase()
      .replace(/&/g, " and ")
      .replace(/[^a-z0-9]+/g, "-")
      .replace(/^-+|-+$/g, "")
    >> *)
Definition toRouteSlug (value : jsstring) : jsstring :=
  replaceAll (RAlt (RSeq RBol (RPlus isHyphen)) (RSeq (RPlus isHyphen) REol)) []
    (replaceAll (RPlus (fun c => negb (isLowerAZ c || isDigit c))) (lit "-")
       (replaceAll (rstr (lit "&")) (lit " and ")
          (toLowerCase value))).

(** The empty string is the only falsy string; [x || "/"] falls back on it. *)
Definition normalizePathname (value : jsstring) : jsstring :=
  match value with
  | [] => lit "/"
  | _ :: _ =>
      if streq value (lit "/") then lit "/"
      else
        let withLeadingSlash :=
          if startsWith (lit "/") value then value else lit "/" ++ value in
        match replace (RSeq (RPlus isSlash) REol) [] withLeadingSlash with
        | [] => lit "/"
        | stripped => stripped
        end
  end.

(** [/^\/portfolio\/([^/]+)\/?$/] *)
Definition PROJECT_ROUTE_RE : regex :=
  rseq [RBol; rstr (lit "/portfolio/");
        RGroup 1 (RPlus (fun c => negb (isSlash c)));
        ROpt (rstr (lit "/"));
        REol].

(** [null] is [None]; the [catch] branch keeps the raw segment. *)
Definition getProjectSlugFromPathname (pathname : jsstring) : option jsstring :=
  match exec PROJECT_ROUTE_RE pathname with
  | None => None
  | Some m =>
      match decodeURIComponent (group 1 m) with
      | Some decoded => Some (toLowerCase decoded)
      | None => Some (toLowerCase (group 1 m))
      end
  end.

(** [None] when [encodeURIComponent] throws (a lone surrogate). *)
Definition getProjectPath (projectSlug : jsstring) : option jsstring :=
  option_map (app PROJECT_PATH_PREFIX) (encodeURIComponent projectSlug).

Definition getFolderDateValue (folderName : jsstring) : jsnum :=
  match exec SHOOT_FOLDER_RE folderName with
  | None => NegInf
  | Some m =>
      match Number (group 1 m), Number (group 2 m), Number (group 3 m) with
      | Some year, Some month, Some day => Fin (DateUTC year (month - 1) day)
      | _, _, _ => NaN
      end
  end.

(** *** Grouping *)

(** An entry of a shoot bucket: [{ path, fileName, loader }]. *)
Record ShootFile : Type := {
  path : jsstring;
  fileName : jsstring;
  loader : Loader
}.

(** An entry of the digitals bucket: [{ fileName, loader }]. *)
Record DigitalFile : Type := {
  digitalFileName : jsstring;
  digitalLoader : Loader
}.

(** The record built for a shoot, without the presentation texts
    ([title], [header], [subtext], [category], [description]) that are
    looked up in the content table. *)
Record Project : Type := {
  id : jsstring;
  routeSlug : jsstring;
  image : Loader;
  backgroundImage : Loader;
  gallery : list Loader
}.

(** [shootsByFolder]: a [Map], kept in insertion order. *)
Definition FolderMap : Type := list (jsstring * list ShootFile).

(** <<
    if (!shootsByFolder.has(folderName)) shootsByFolder.set(folderName, []);
    shootsByFolder.get(folderName).push(file)
    >> *)
Fixpoint pushToFolder (folderName : jsstring) (file : ShootFile)
    (m : FolderMap) : FolderMap :=
  match m with
  | [] => [(folderName, [file])]
  | (k, files) :: m' =>
      if streq k folderName then (k, files ++ [file]) :: m'
      else (k, files) :: pushToFolder folderName file m'
  end.

(** The body of the [forEach] over [Object.entries(photoLoaders)]. *)
Definition collect (acc : FolderMap * list DigitalFile)
    (entry : jsstring * Loader) : FolderMap * list DigitalFile :=
  let '(shootsByFolder, digitals) := acc in
  let '(p, l) := entry in
  if streq p HERO_PATH || negb (startsWith PHOTO_ROOT_PREFIX p) then acc
  else
    let relativePath := slice (length PHOTO_ROOT_PREFIX) p in
    let parts := split 47 relativePath in
    if Nat.ltb (length parts) 2 then acc
    else
      let folderName := hd [] parts in
      let name := last parts [] in
      if streq (toLowerCase folderName) (lit "digitals") then
        (shootsByFolder,
         digitals ++ [{| digitalFileName := name; digitalLoader := l |}])
      else if negb (test SHOOT_FOLDER_RE folderName) then acc
      else
        (pushToFolder folderName
           {| path := p; fileName := name; loader := l |} shootsByFolder,
         digitals).

Definition grouped (photoLoaders : list (jsstring * Loader))
    : FolderMap * list DigitalFile :=
  fold_left collect photoLoaders ([], []).

(** The comparator of the folder sort. *)
Definition compareFolders (folderA folderB : jsstring) : jsnum :=
  let dateDiff :=
    jsSub (getFolderDateValue folderB) (getFolderDateValue folderA) in
  if notZero dateDiff then dateDiff
  else Fin (localeCompareBase folderB folderA).

Definition compareFileNames (a b : ShootFile) : jsnum :=
  Fin (localeCompareBase (fileName a) (fileName b)).

Definition compareDigitals (a b : DigitalFile) : jsnum :=
  Fin (localeCompareBase (digitalFileName a) (digitalFileName b)).

Definition sortedFilesOf (files : list ShootFile) : list ShootFile :=
  sort compareFileNames files.

(** [sortedFiles.find(...) || sortedFiles[0]], given the first element. *)
Definition coverOf (first : ShootFile) (sortedFiles : list ShootFile)
    : ShootFile :=
  match find (fun file => test coverRegex (fileName file)) sortedFiles with
  | Some file => file
  | None => first
  end.

(** [sortedFiles.filter((file) => file.path !== coverFile.path)] *)
Definition galleryFilesOf (coverFile : ShootFile)
    (sortedFiles : list ShootFile) : list ShootFile :=
  filter (fun file => negb (streq (path file) (path coverFile))) sortedFiles.

(** The callback of the [map] over the sorted folders; [None] is [null]. *)
Definition buildShoot (entry : jsstring * list ShootFile) : option Project :=
  let '(folderName, files) := entry in
  let sortedFiles := sortedFilesOf files in
  match sortedFiles with
  | [] => None
  | first :: _ =>
      let coverFile := coverOf first sortedFiles in
      let galleryLoaders := map loader (galleryFilesOf coverFile sortedFiles) in
      let background :=
        match galleryLoaders with
        | g :: _ => g
        | [] => loader coverFile
        end in
      let folderSlug :=
        match exec SHOOT_FOLDER_RE folderName with
        | Some m => group 4 m
        | None => folderName
        end in
      Some {| id := folderName;
              routeSlug := toRouteSlug folderSlug;
              image := loader coverFile;
              backgroundImage := background;
              gallery := galleryLoaders |}
  end.

(** [.filter(Boolean)] on an array of records and [null]s. *)
Fixpoint dropNulls {A : Type} (l : list (option A)) : list A :=
  match l with
  | [] => []
  | Some x :: t => x :: dropNulls t
  | None :: t => dropNulls t
  end.

Definition sortedFolders (m : FolderMap) : FolderMap :=
  sort (fun a b => compareFolders (fst a) (fst b)) m.

Definition builtShoots (m : FolderMap) : list Project :=
  dropNulls (map buildShoot (sortedFolders m)).

Definition sortedDigitals (digitals : list DigitalFile) : list Loader :=
  firstn 3 (map digitalLoader (sort compareDigitals digitals)).

Definition shoots (photoLoaders : list (jsstring * Loader)) : list Project :=
  builtShoots (fst (grouped photoLoaders)).

Definition digitalImages (photoLoaders : list (jsstring * Loader))
    : list Loader :=
  sortedDigitals (snd (grouped photoLoaders)).

(** *** Routing *)

Definition isProjectRoute (pathname : jsstring) : bool :=
  startsWith PROJECT_PATH_PREFIX pathname.

(** [!routeProjectSlug] holds for [null] and for the empty string. *)
Definition selectedProject (allShoots : list Project) (pathname : jsstring)
    : option Project :=
  match getProjectSlugFromPathname pathname with
  | None => None
  | Some [] => None
  | Some routeProjectSlug =>
      find (fun item => streq (routeSlug item) routeProjectSlug) allShoots
  end.

(** The three branches of the rendered page. *)
Inductive View : Type :=
| MainView
| ProjectDetailView (project : Project)
| ProjectNotFoundView.

(** The conditional of the page that chooses the branch; the component
    reaches it only past the guard on the hero photo, see [render]. *)
Definition view (allShoots : list Project) (pathname : jsstring) : View :=
  if negb (isProjectRoute pathname) then MainView
  else
    match selectedProject allShoots pathname with
    | Some project => ProjectDetailView project
    | None => ProjectNotFoundView
    end.

(** [photoLoaders[HERO_PATH]]: [undefined] ([None]) when no file has
    that path; the loaders themselves are functions, hence truthy. *)
Definition heroPhoto (photoLoaders : list (jsstring * Loader))
    : option Loader :=
  option_map snd
    (find (fun entry => streq (fst entry) HERO_PATH) photoLoaders).

(** What the component returns for the stored [pathname]: [null]
    ([None]) when the hero photo is missing ([if (!heroPhoto) return
    null], after the routing hooks have run), and otherwise the page with
    the branch chosen by [view]. *)
Definition render (photoLoaders : list (jsstring * Loader))
    (pathname : jsstring) : option View :=
  match heroPhoto photoLoaders with
  | None => None
  | Some _ => Some (view (shoots photoLoaders) pathname)
  end.

End App.

(** ** Reference functions

    Direct descriptions of what the patterns and the passes compute; the
    theorems below relate the embedding of the source to them. *)

Section Reference.

Context {R : Runtime}.
Variable Loader : Type.

(** The longest prefix of code units in a class, and what follows it. *)
Fixpoint takeRun (p : N -> bool) (s : jsstring) : jsstring :=
  match s with
  | c :: t => if p c then c :: takeRun p t else []
  | [] => []
  end.

Fixpoint dropRun (p : N -> bool) (s : jsstring) : jsstring :=
  match s with
  | c :: t => if p c then dropRun p t else s
  | [] => []
  end.

(** The string without its longest suffix of code units in a class. *)
Fixpoint dropTrailing (p : N -> bool) (s : jsstring) : jsstring :=
  match s with
  | [] => []
  | c :: t => if p c && forallb p t then [] else c :: dropTrailing p t
  end.

(** Every maximal run of code units in a class replaced by [rep];
    [inRun] tells that the run at the head has been replaced already. *)
Fixpoint collapseRuns (p : N -> bool) (rep : jsstring) (inRun : bool)
    (s : jsstring) : jsstring :=
  match s with
  | [] => []
  | c :: t =>
      if p c then
        if inRun then collapseRuns p rep true t
        else rep ++ collapseRuns p rep true t
      else c :: collapseRuns p rep false t
  end.

(** The last code unit exists and lies in the class. *)
Fixpoint lastIs (p : N -> bool) (s : jsstring) : bool :=
  match s with
  | [] => false
  | c :: t => match t with [] => p c | _ :: _ => lastIs p t end
  end.

(** The segment of a path of the shape [/portfolio/<segment>] or
    [/portfolio/<segment>/], where the segment is not empty and holds no
    slash. *)
Definition routeSegment (pathname : jsstring) : option jsstring :=
  if startsWith PROJECT_PATH_PREFIX pathname then
    let r := skipn (List.length PROJECT_PATH_PREFIX) pathname in
    match takeRun (fun c => negb (isSlash c)) r with
    | [] => None
    | seg =>
        match dropRun (fun c => negb (isSlash c)) r with
        | [] => Some seg
        | [_] => Some seg
        | _ :: _ :: _ => None
        end
    end
  else None.

(** The four parts of a folder name [YYYY-MM-DD-<text>]: digits,
    hyphens, and a text that is not empty and holds no line terminator. *)
Definition parseShootFolder (s : jsstring)
    : option (jsstring * jsstring * jsstring * jsstring) :=
  match s with
  | y1 :: y2 :: y3 :: y4 :: h1 :: m1 :: m2 :: h2 :: d1 :: d2 :: h3 :: c :: t =>
      if forallb isDigit [y1; y2; y3; y4; m1; m2; d1; d2]
         && forallb isHyphen [h1; h2; h3]
         && forallb isDot (c :: t)
      then Some ([y1; y2; y3; y4], [m1; m2], [d1; d2], c :: t)
      else None
  | _ => None
  end.

(** [a] may stand before [b] in an array sorted with [cmp]. *)
Definition notAfter {A : Type} (cmp : A -> A -> jsnum) (a b : A) : Prop :=
  (sortOrder (cmp a b) <= 0)%Z.

(** [pathname] is [/portfolio/<seg>] or [/portfolio/<seg>/] for the
    segment [seg]. *)
Definition portfolioShape (pathname seg : jsstring) : Prop :=
  seg <> []
  /\ forallb (fun c => negb (isSlash c)) seg = true
  /\ (pathname = PROJECT_PATH_PREFIX ++ seg
      \/ pathname = PROJECT_PATH_PREFIX ++ seg ++ lit "/").

(** The route slug in the words of the specification: lower-case the
    text, write [" and "] for every ampersand, put one hyphen for every
    maximal run of code units that are not ASCII letters or digits, and
    trim the hyphens at both ends. *)
Definition isAlphanumeric (c : N) : bool :=
  isLowerAZ c || isUpperAZ c || isDigit c.

Definition ampersandToAnd (s : jsstring) : jsstring :=
  flat_map (fun c => if N.eqb 38 c then lit " and " else [c]) s.

Definition trimHyphens (s : jsstring) : jsstring :=
  rev (dropRun isHyphen (rev (dropRun isHyphen s))).

Definition slugOfText (text : jsstring) : jsstring :=
  trimHyphens
    (collapseRuns (fun c => negb (isAlphanumeric c)) (lit "-") false
       (ampersandToAnd (toLowerCase text))).

(** The code units a route slug is made of: [a-z], [0-9] and the hyphen. *)
Definition isSlugUnit (c : N) : bool := isLowerAZ c || isDigit c || isHyphen c.

(** What one entry of [photoLoaders] adds to the buckets. *)
Inductive Contribution : Type :=
| Ignored
| ToDigitals (file : DigitalFile Loader)
| ToShoot (folderName : jsstring) (file : ShootFile Loader).

Definition classify (entry : jsstring * Loader) : Contribution :=
  let '(p, l) := entry in
  if streq p HERO_PATH then Ignored
  else if negb (startsWith PHOTO_ROOT_PREFIX p) then Ignored
  else
    match split 47 (skipn (List.length PHOTO_ROOT_PREFIX) p) with
    | folderName :: (_ :: _) as more =>
        if streq (toLowerCase folderName) (lit "digitals") then
          ToDigitals {| digitalFileName := last more []; digitalLoader := l |}
        else if test SHOOT_FOLDER_RE folderName then
          ToShoot folderName
            {| path := p; fileName := last more []; loader := l |}
        else Ignored
    | _ => Ignored
    end.

(** The files of a shoot folder and of the digitals folder, in the order
    of the entries. *)
Definition folderFiles (photoLoaders : list (jsstring * Loader))
    (folderName : jsstring) : list (ShootFile Loader) :=
  flat_map (fun entry =>
              match classify entry with
              | ToShoot k file => if streq k folderName then [file] else []
              | _ => []
              end) photoLoaders.

Definition digitalFiles (photoLoaders : list (jsstring * Loader))
    : list (DigitalFile Loader) :=
  flat_map (fun entry =>
              match classify entry with
              | ToDigitals file => [file]
              | _ => []
              end) photoLoaders.

(** The bucket of a folder in [shootsByFolder]; empty when absent. *)
Definition filesIn (m : FolderMap Loader) (folderName : jsstring)
    : list (ShootFile Loader) :=
  match find (fun e => streq (fst e) folderName) m with
  | Some (_, files) => files
  | None => []
  end.

(** A file name that is [cover.jpg], [cover.jpeg] or [cover.png] up to
    the case of its ASCII letters. *)
Definition isCoverName (s : jsstring) : bool :=
  let l := map asciiLower s in
  streq l (lit "cover.jpg") || streq l (lit "cover.jpeg")
  || streq l (lit "cover.png").

(** A list of strings without repetition. *)
Fixpoint distinct (l : list jsstring) : bool :=
  match l with
  | [] => true
  | x :: t => negb (existsb (streq x) t) && distinct t
  end.

End Reference.

(** A small photo library (loaders are numbered) and one of the projects
    built from it, used to exercise the theorems.  Two folders share the
    route slug [editorial]. *)
Definition samplePhotos : list (jsstring * nat) :=
  [ (lit "./assets/photos/2026-07-15-lifestyle-shoot/b.jpg", 1);
    (lit "./assets/photos/2026-08-01-editorial/z.jpg", 2);
    (lit "./assets/photos/2026-08-01-editorial/Cover.PNG", 3);
    (lit "./assets/photos/2026-08-01-editorial/a.jpg", 4);
    (lit "./assets/photos/digitals/d2.jpg", 5);
    (lit "./assets/photos/digitals/d1.jpg", 6);
    (lit "./assets/photos/A.Wachtendonk-17.JPG", 7);
    (lit "./assets/photos/2026-07-15-lifestyle-shoot/a.jpg", 8);
    (lit "./assets/photos/2025-01-01-Editorial!/x.jpg", 9) ].

Definition sampleEditorial : Project nat :=
  {| id := lit "2026-08-01-editorial";
     routeSlug := lit "editorial";
     image := 3;
     backgroundImage := 4;
     gallery := [4; 2] |}.

Definition sampleOlderEditorial : Project nat :=
  {| id := lit "2025-01-01-Editorial!";
     routeSlug := lit "editorial";
     image := 9;
     backgroundImage := 9;
     gallery := [] |}.

(** The files that the grouping pass hands to some project, in the
    order of the entries. *)
Definition shootFiles {R : Runtime} (Loader : Type)
    (photoLoaders : list (jsstring * Loader)) : list (ShootFile Loader) :=
  flat_map (fun entry =>
              match classify entry with
              | ToShoot _ file => [file]
              | _ => []
              end) photoLoaders.

(** A well-formed slug: made of [a-z], [0-9] and hyphens, with no
    hyphen at either end and no two hyphens in a row. *)
Fixpoint noDoubleHyphen (s : jsstring) : bool :=
  match s with
  | c :: (d :: _) as t => negb (isHyphen c && isHyphen d) && noDoubleHyphen t
  | _ => true
  end.

Definition wellFormedSlug (s : jsstring) : bool :=
  forallb isSlugUnit s && negb (startsWith (lit "-") s)
  && negb (lastIs isHyphen s) && noDoubleHyphen s.

(** The calendar date written in a dated folder name. *)
Definition folderDate (s : jsstring) : option (Z * Z * Z) :=
  match parseShootFolder s with
  | Some (y, m, d, _) =>
      match Number y, Number m, Number d with
      | Some year, Some month, Some day => Some (year, month, day)
      | _, _, _ => None
      end
  | None => None
  end.

(** The days of a month, January being 1. *)
Definition daysInMonth (leap : bool) (month : Z) : Z :=
  nth (Z.to_nat (month - 1))
    [31; if leap then 29 else 28; 31; 30; 31; 30; 31; 31; 30; 31; 30; 31]%Z
    0%Z.

(** A date of the calendar, from the year 100 on. *)
Definition isCalendarDate (date : Z * Z * Z) : Prop :=
  let '(year, month, day) := date in
  (100 <= year /\ 1 <= month <= 12
   /\ 1 <= day <= daysInMonth (isLeapYear year) month)%Z.

Definition earlierDate (a b : Z * Z * Z) : Prop :=
  let '(ya, ma, da) := a in
  let '(yb, mb, db) := b in
  (ya < yb \/ (ya = yb /\ (ma < mb \/ (ma = mb /\ da < db))))%Z.

(** ** Counters and indices

    The numbers met by the slider: indices, array lengths and the
    results of the arithmetic on them.  Finite numbers are integers here,
    as the indices of the slider and the lengths of arrays are; [Fin z]
    stands for a number when [z] is a double, which every integer of
    magnitude below 2^53 is, and the arithmetic below is that of the
    doubles as long as its results stay in that range. *)

Module Counters.

(** [Number.isFinite(v)] *)
Definition isFinite (v : jsnum) : bool :=
  match v with
  | Fin _ => true
  | _ => false
  end.

(** [a + b] *)
Definition jsAdd (a b : jsnum) : jsnum :=
  match a, b with
  | NaN, _ | _, NaN => NaN
  | Fin x, Fin y => Fin (x + y)
  | NegInf, PosInf | PosInf, NegInf => NaN
  | NegInf, _ | _, NegInf => NegInf
  | PosInf, _ | _, PosInf => PosInf
  end.

(** [a % b]: the remainder has the sign of the dividend. *)
Definition jsRem (a b : jsnum) : jsnum :=
  match a, b with
  | Fin x, Fin y => if (y =? 0)%Z then NaN else Fin (Z.rem x y)
  | Fin x, NegInf | Fin x, PosInf => Fin x
  | _, _ => NaN
  end.

(** [a < b] *)
Definition jsLt (a b : jsnum) : bool :=
  match a, b with
  | NaN, _ | _, NaN => false
  | Fin x, Fin y => (x <? y)%Z
  | NegInf, NegInf | PosInf, _ | _, NegInf => false
  | NegInf, _ | _, PosInf => true
  end.

(** [a === b] on numbers *)
Definition jsStrictEq (a b : jsnum) : bool :=
  match a, b with
  | Fin x, Fin y => (x =? y)%Z
  | NegInf, NegInf | PosInf, PosInf => true
  | _, _ => false
  end.

(** A number is falsy when it is zero or not-a-number. *)
Definition truthy (v : jsnum) : bool :=
  match v with
  | NaN => false
  | Fin z => negb (z =? 0)%Z
  | _ => true
  end.

(** [Math.min(a, b)] and [Math.max(a, b)] *)
Definition mathMin (a b : jsnum) : jsnum :=
  match a, b with
  | NaN, _ | _, NaN => NaN
  | NegInf, _ | _, NegInf => NegInf
  | PosInf, v | v, PosInf => v
  | Fin x, Fin y => Fin (Z.min x y)
  end.

Definition mathMax (a b : jsnum) : jsnum :=
  match a, b with
  | NaN, _ | _, NaN => NaN
  | PosInf, _ | _, PosInf => PosInf
  | NegInf, v | v, NegInf => v
  | Fin x, Fin y => Fin (Z.max x y)
  end.

(** The decimal digits of a number, the last digit first in the
    recursion; [fuel] bounds the number of digits, and a number has no
    more decimal digits than binary ones. *)
Fixpoint digitsFrom (fuel : nat) (n : N) (acc : jsstring) : jsstring :=
  match fuel with
  | O => acc
  | S f =>
      let acc' := (48 + n mod 10)%N :: acc in
      if N.ltb n 10 then acc' else digitsFrom f (n / 10) acc'
  end.

(** The step of [Number] on a decimal digit. *)
Definition digitStep (acc : Z) (c : N) : Z := (10 * acc + (Z.of_N c - 48))%Z.

(** The decimal notation of a natural number. *)
Definition decimal (value : N) : jsstring :=
  digitsFrom (S (N.to_nat (N.log2 value))) value [].

(** The double nearest to a natural number, a tie going to the even
    significand: a number below 2^53 is a double, a greater one keeps 53
    binary digits.  (The numbers that round to infinity, from
    2^1024 - 2^970 on, are not met.) *)
Definition nearestDouble (x : Z) : Z :=
  let e := (Z.log2 x - 52)%Z in
  if (e <=? 0)%Z then x
  else
    let q := Z.shiftr x e in
    let r := (x - Z.shiftl q e)%Z in
    let half := Z.shiftl 1 (e - 1) in
    if (r <? half)%Z || ((r =? half)%Z && Z.even q) then Z.shiftl q e
    else Z.shiftl (q + 1) e.

(** The decimal with the fewest significant digits that is read as the
    double [x], and the nearest to [x] among these: the digits [s] and
    the exponent of step 5 of [Number::toString].  [weight] is the
    weight of the last significant digit, tried from the greatest down. *)
Fixpoint shortestFrom (fuel : nat) (weight x : Z) : Z :=
  match fuel with
  | O => x
  | S f =>
      let lo := (x / weight * weight)%Z in
      let hi := (lo + weight)%Z in
      let okLo := (nearestDouble lo =? x)%Z in
      let okHi := (nearestDouble hi =? x)%Z in
      let loNearer :=
        (x - lo <? hi - x)%Z
        || ((x - lo =? hi - x)%Z && Z.even (x / weight)) in
      if okLo && (negb okHi || loNearer) then lo
      else if okHi then hi
      else shortestFrom f (weight / 10) x
  end.

Definition shortestDecimal (x : Z) : Z :=
  let size := List.length (decimal (Z.to_N x)) in
  shortestFrom size (10 ^ Z.of_nat (size - 1)) x.

(** The notation of a decimal: all its digits below 10^21, and from
    there on the significant digits with a point after the first one and
    the exponent. *)
Definition decimalNotation (v : Z) : jsstring :=
  let digits := decimal (Z.to_N v) in
  if (v <? 10 ^ 21)%Z then digits
  else
    let exponent :=
      lit "e+" ++ decimal (N.of_nat (List.length digits - 1)) in
    match dropTrailing (N.eqb 48) digits with
    | [] => digits
    | [c] => c :: exponent
    | c :: t => c :: lit "." ++ t ++ exponent
    end.

(** The notation of a number with a natural value: below 2^53 all the
    digits of the integer, and from there on the shortest decimal that
    is read as the same double. *)
Definition naturalToString (x : Z) : jsstring :=
  if (x <? 2 ^ 53)%Z then decimal (Z.to_N x)
  else decimalNotation (shortestDecimal x).

(** [value.toString()] *)
Definition numberToString (value : jsnum) : jsstring :=
  match value with
  | NaN => lit "NaN"
  | PosInf => lit "Infinity"
  | NegInf => lit "-Infinity"
  | Fin z =>
      if (z <? 0)%Z then lit "-" ++ naturalToString (- z)
      else naturalToString z
  end.

(** [s.padStart(targetLength, padString)] *)
Definition padStart (targetLength : nat) (padString s : jsstring) : jsstring :=
  if Nat.leb targetLength (List.length s) then s
  else
    match padString with
    | [] => s
    | _ :: _ =>
        let fillLen := targetLength - List.length s in
        firstn fillLen (concat (repeat padString fillLen)) ++ s
    end.

(** [value.toString().padStart(2, "0")] *)
Definition toCounterValue (value : jsnum) : jsstring :=
  padStart 2 (lit "0") (numberToString value).

End Counters.

(** ** Titles and the content table *)

Module Content.

(** [String.prototype.toUpperCase] depends on the Unicode tables of the
    host, as [toLowerCase] does. *)
Class UpperCase : Type := {
  toUpperCase : jsstring -> jsstring
}.

(** [\s]: white space and line terminators. *)
Definition isSpace (c : N) : bool :=
  inRange 9 13 c || N.eqb c 32 || N.eqb c 160 || N.eqb c 5760
  || inRange 8192 8202 c || N.eqb c 8232 || N.eqb c 8233 || N.eqb c 8239
  || N.eqb c 8287 || N.eqb c 12288 || N.eqb c 65279.

(** The class [[\s_-]] *)
Definition isWordBreak (c : N) : bool :=
  isSpace c || N.eqb c 95 || N.eqb c 45.

(** What is promised about [toUpperCase]: on an ASCII code unit it is
    the ASCII capital. *)
Class UpperCaseLaws (U : UpperCase) : Prop := {
  toUpperCase_ascii :
    forall c, isAscii c = true -> toUpperCase [c] = [asciiUpper c]
}.

Definition asciiUpperCase : UpperCase := {|
  toUpperCase := map asciiUpper
|}.

(** [s.split(re)] for a pattern without capture groups and without a
    limit.  [cur] holds the code units of the piece being read, last one
    first; [skip] counts the code units still covered by the separator
    that was matched.  An empty match at the start of a piece splits
    nothing. *)
Fixpoint splitWalk (r : regex) (i skip : nat) (cur s : jsstring) {struct s}
    : list jsstring :=
  match s with
  | [] => [rev cur]
  | c :: t =>
      match skip with
      | S k => splitWalk r (S i) k cur t
      | O =>
          match matchAt r i s with
          | None => splitWalk r (S i) 0 (c :: cur) t
          | Some st =>
              match pos st - i with
              | O =>
                  match cur with
                  | [] => splitWalk r (S i) 0 [c] t
                  | _ :: _ => rev cur :: splitWalk r (S i) 0 [c] t
                  end
              | S k => rev cur :: splitWalk r (S i) k [] t
              end
          end
      end
  end.

Definition splitRe (r : regex) (s : jsstring) : list jsstring :=
  match s with
  | [] => match matchAt r 0 [] with Some _ => [] | None => [[]] end
  | _ :: _ => splitWalk r 0 0 [] s
  end.

(** The maximal runs of code units outside a class, in order; [cur]
    holds the run being read, last code unit first. *)
Fixpoint wordsFrom (p : N -> bool) (cur s : jsstring) : list jsstring :=
  match s with
  | [] =>
      match cur with
      | [] => []
      | _ :: _ => [rev cur]
      end
  | c :: t =>
      if p c then
        match cur with
        | [] => wordsFrom p [] t
        | _ :: _ => rev cur :: wordsFrom p [] t
        end
      else wordsFrom p (c :: cur) t
  end.

Definition wordsOf (p : N -> bool) (s : jsstring) : list jsstring :=
  wordsFrom p [] s.

(** [words.join(sep)] *)
Fixpoint join (sep : jsstring) (words : list jsstring) : jsstring :=
  match words with
  | [] => []
  | [w] => w
  | w :: rest => w ++ sep ++ join sep rest
  end.

(** [.filter(Boolean)] on an array of strings: the empty string is the
    only falsy one. *)
Definition nonEmpty (s : jsstring) : bool :=
  match s with
  | [] => false
  | _ :: _ => true
  end.

Section Titles.

Context {R : Runtime} {U : UpperCase}.

(** [word.charAt(0).toUpperCase() + word.slice(1)] *)
Definition capitalize (word : jsstring) : jsstring :=
  toUpperCase (firstn 1 word) ++ slice 1 word.

(** <<
    value.split(/[\s_-]+/).filter(Boolean)
      .map((word) => word.charAt(0).toUpperCase() + word.slice(1))
      .join(" ")
    >> *)
Definition toTitleCase (value : jsstring) : jsstring :=
  join (lit " ")
    (map capitalize (filter nonEmpty (splitRe (RPlus isWordBreak) value))).

(** An entry of the content table: each property may be absent. *)
Record ContentEntry : Type := {
  entryTitle : option jsstring;
  entryHeader : option jsstring;
  entryCategory : option jsstring;
  entrySubtext : option jsstring;
  entryDescription : option jsstring
}.

Definition DEFAULT_PROJECT_CONTENT : ContentEntry := {|
  entryTitle := None;
  entryHeader := Some (lit "Creative Shoot");
  entryCategory := Some (lit "Creative Shoot");
  entrySubtext := None;
  entryDescription :=
    Some (lit "Add a custom description for this project in src/projectContent.js.")
|}.

Definition contentEntry (t h c d : string) : ContentEntry := {|
  entryTitle := Some (lit t);
  entryHeader := Some (lit h);
  entryCategory := Some (lit c);
  entrySubtext := None;
  entryDescription := Some (lit d)
|}.

Definition PROJECT_CONTENT : list (jsstring * ContentEntry) :=
  [ (lit "editorial",
     contentEntry "Editorial" "Creative Shoot" "Creative Shoot"
       "A cinematic exploration of styling, form, and atmosphere.");
    (lit "commercial",
     contentEntry "Commercial" "Commercial Shoot" "Commercial Shoot"
       "Polished campaign imagery built for product-forward brand narratives.");
    (lit "urban",
     contentEntry "Urban" "Urban Shoot" "Urban Shoot"
       "Location-based portrait work balancing raw structure and modern styling.");
    (lit "lifestyle",
     contentEntry "Lifestyle" "Lifestyle Shoot" "Lifestyle Shoot"
       "Natural interaction and candid motion centered on authenticity, warmth, and ease.");
    (lit "high-fashion",
     contentEntry "High Fashion" "High Fashion Shoot" "High Fashion Shoot"
       "An exploration of clean silhouettes and intentional movement.");
    (lit "beauty-and-portraits",
     contentEntry "Beauty & Portraits" "Beauty Shoot" "Beauty Shoot"
       "Close framing and soft tonal detail centered on expression, skin, and shape.") ].

(** [PROJECT_CONTENT[routeSlug] ?? {}].  The only inherited property
    whose name can be a route slug is [constructor]; its value has none of
    the five properties read below, so it acts as the empty object. *)
Definition contentFor (routeSlug : jsstring) : ContentEntry :=
  match find (fun e => streq (fst e) routeSlug) PROJECT_CONTENT with
  | Some (_, entry) => entry
  | None =>
      {| entryTitle := None; entryHeader := None; entryCategory := None;
         entrySubtext := None; entryDescription := None |}
  end.

(** [a ?? b] *)
Definition orElse {A : Type} (a b : option A) : option A :=
  match a with
  | Some _ => a
  | None => b
  end.

(** The presentation texts of the record built for a folder; [None] is
    [undefined]. *)
Record ProjectTexts : Type := {
  title : jsstring;
  header : option jsstring;
  subtext : option jsstring;
  category : option jsstring;
  description : option jsstring
}.

Definition projectTexts (folderName : jsstring) : ProjectTexts :=
  let folderSlug :=
    match exec SHOOT_FOLDER_RE folderName with
    | Some m => group 4 m
    | None => folderName
    end in
  let projectContent := contentFor (toRouteSlug folderSlug) in
  let theCategory :=
    orElse (entryCategory projectContent)
      (entryCategory DEFAULT_PROJECT_CONTENT) in
  {| title :=
       match entryTitle projectContent with
       | Some t => t
       | None => toTitleCase folderSlug
       end;
     category := theCategory;
     header :=
       orElse (entryHeader projectContent)
         (orElse theCategory (entryHeader DEFAULT_PROJECT_CONTENT));
     subtext :=
       orElse (entrySubtext projectContent)
         (entrySubtext DEFAULT_PROJECT_CONTENT);
     description :=
       orElse (entryDescription projectContent)
         (entryDescription DEFAULT_PROJECT_CONTENT) |}.

End Titles.

End Content.

(** ** Navigation

    The state of the application component that the router and the
    slider of the work section read and write, and the handlers that
    change it.  A handler reads the state of the render it was created in
    and queues its updates; the state after the handler is the state with
    all of them applied. *)

Module Navigation.

Import Counters.

Section Navigation.

Context {R : Runtime}.
Variable Loader : Type.

(** The memoized [shoots], and which ids [document.getElementById]
    finds. *)
Variable allShoots : list (Project Loader).
Variable hasElement : jsstring -> bool.

(** [location] is [window.location.pathname]; the rest are the state
    variables of the component. *)
Record State : Type := {
  location : jsstring;
  pathname : jsstring;
  pendingSectionId : option jsstring;
  isMenuOpen : bool;
  activeWorkIndex : jsnum
}.

(** What a handler does to the browser besides changing the state. *)
Inductive Effect : Type :=
| PushState (url : jsstring)
| ReplaceState (url : jsstring)
| ScrollToTop (smooth : bool)
| ScrollIntoView (sectionId : jsstring)
| UpdateLayout
| SlideTo (index : jsnum)
| SlideBackgroundTo (index : jsnum).

(** The state of the first render. *)
Definition initialState (windowPathname : jsstring) : State := {|
  location := windowPathname;
  pathname := normalizePathname windowPathname;
  pendingSectionId := None;
  isMenuOpen := false;
  activeWorkIndex := Fin 0
|}.

(** [navigateTo(nextPath, { replace })].  The paths the application
    navigates to are [/] and [/portfolio/<slug>] with an encoded slug
    other than [.] and [..]; for these the History API leaves
    [window.location.pathname] equal to the path it is given. *)
Definition navigateTo (nextPath : jsstring) (replace : bool) (st : State)
    : State * list Effect :=
  let normalizedPath := normalizePathname nextPath in
  let currentPath := normalizePathname (location st) in
  if negb (streq currentPath normalizedPath) then
    ({| location := normalizedPath;
        pathname := normalizedPath;
        pendingSectionId := pendingSectionId st;
        isMenuOpen := isMenuOpen st;
        activeWorkIndex := activeWorkIndex st |},
     [if replace then ReplaceState normalizedPath
      else PushState normalizedPath])
  else
    ({| location := location st;
        pathname := normalizedPath;
        pendingSectionId := pendingSectionId st;
        isMenuOpen := isMenuOpen st;
        activeWorkIndex := activeWorkIndex st |},
     []).

(** The updates queued by a handler before it calls [navigateTo]. *)
Definition withMenuClosed (pending : option jsstring) (index : jsnum)
    (st : State) : State := {|
  location := location st;
  pathname := pathname st;
  pendingSectionId := pending;
  isMenuOpen := false;
  activeWorkIndex := index
|}.

Definition goHome (st : State) : State * list Effect :=
  let '(st', effects) :=
    navigateTo (lit "/") false (withMenuClosed None (activeWorkIndex st) st) in
  (st', effects ++ [ScrollToTop true]).

(** [shoots.findIndex(f)]: [-1] when nothing is found. *)
Fixpoint findIndexFrom {A : Type} (f : A -> bool) (i : Z) (l : list A) : Z :=
  match l with
  | [] => (-1)%Z
  | x :: t => if f x then i else findIndexFrom f (i + 1)%Z t
  end.

Definition findIndex {A : Type} (f : A -> bool) (l : list A) : Z :=
  findIndexFrom f 0%Z l.

Definition goToSection (sectionId : jsstring) (st : State)
    : State * list Effect :=
  if negb (streq (pathname st) (lit "/")) then
    let index :=
      if streq sectionId (lit "work") then
        match selectedProject allShoots (pathname st) with
        | Some selected =>
            let selectedIndex :=
              findIndex (fun item => streq (id item) (id selected)) allShoots in
            if (0 <=? selectedIndex)%Z then Fin selectedIndex
            else activeWorkIndex st
        | None => activeWorkIndex st
        end
      else activeWorkIndex st in
    navigateTo (lit "/") false (withMenuClosed (Some sectionId) index st)
  else
    (withMenuClosed None (activeWorkIndex st) st,
     if hasElement sectionId then [ScrollIntoView sectionId] else []).

(** The slider object a handler is given; [None] is a missing slider,
    and a property that is not a number reads as not-a-number. *)
Record Swiper : Type := {
  realIndex : jsnum;
  activeIndex : jsnum
}.

Definition shootsLength : jsnum := Fin (Z.of_nat (List.length allShoots)).

Definition getValidSwiperIndex (st : State) (swiper : option Swiper) : jsnum :=
  match allShoots with
  | [] => Fin (-1)
  | _ :: _ =>
      let realIndex :=
        match swiper with
        | Some s => if isFinite (realIndex s) then realIndex s else NaN
        | None => NaN
        end in
      let activeIndex :=
        match swiper with
        | Some s => if isFinite (activeIndex s) then activeIndex s else NaN
        | None => NaN
        end in
      let fallbackIndex :=
        if isFinite (activeWorkIndex st) then activeWorkIndex st else Fin 0 in
      let resolvedIndex :=
        if isFinite realIndex then realIndex
        else if isFinite activeIndex then activeIndex
        else fallbackIndex in
      jsRem (jsAdd (jsRem resolvedIndex shootsLength) shootsLength) shootsLength
  end.

(** The index that [getValidSwiperIndex] reduces: the first finite one
    of the real index and the active index of the slider and the stored
    index, and 0 when none is finite. *)
Definition resolvedIndex (st : State) (swiper : option Swiper) : Z :=
  match swiper with
  | Some {| realIndex := Fin r |} => r
  | Some {| activeIndex := Fin a |} => a
  | _ =>
      match activeWorkIndex st with
      | Fin i => i
      | _ => 0%Z
      end
  end.

(** A position of [shoots], or 0 when there is none. *)
Definition indexInRange (v : jsnum) : Prop :=
  exists i,
    v = Fin i /\ (0 <= i)%Z
    /\ (i = 0%Z \/ (i < Z.of_nat (List.length allShoots))%Z).

(** [shoots[index]]: [None] is [undefined]. *)
Definition shootAt (index : jsnum) : option (Project Loader) :=
  match index with
  | Fin z => if (z <? 0)%Z then None else nth_error allShoots (Z.to_nat z)
  | _ => None
  end.

(** [None] stands for the [URIError] that [encodeURIComponent] throws
    on a lone surrogate; the handler is left at that point. *)
Definition openProject (project : option (Project Loader)) (st : State)
    : option (State * list Effect) :=
  match project with
  | None => Some (st, [])
  | Some p =>
      match getProjectPath (routeSlug p) with
      | None => None
      | Some projectPath =>
          let '(st', effects) :=
            navigateTo projectPath false
              (withMenuClosed None (activeWorkIndex st) st) in
          Some (st', effects ++ [ScrollToTop false])
      end
  end.

(** [openActiveProject], and the tap on a slide, for the main slider
    [swiper]. *)
Definition openActiveProject (swiper : option Swiper) (st : State)
    : option (State * list Effect) :=
  let slideIndex := getValidSwiperIndex st swiper in
  if jsLt slideIndex (Fin 0) then Some (st, [])
  else openProject (shootAt slideIndex) st.

Definition withActiveWorkIndex (index : jsnum) (st : State) : State := {|
  location := location st;
  pathname := pathname st;
  pendingSectionId := pendingSectionId st;
  isMenuOpen := isMenuOpen st;
  activeWorkIndex := index
|}.

(** [handleWorkSlideChange(swiper)]; [background] is the index the
    background slider shows, if that slider exists. *)
Definition handleWorkSlideChange (swiper : option Swiper)
    (background : option jsnum) (st : State) : State * list Effect :=
  let nextIndex := getValidSwiperIndex st swiper in
  if jsLt nextIndex (Fin 0) then (st, [])
  else
    (withActiveWorkIndex nextIndex st,
     match background with
     | None => []
     | Some shown =>
         if jsStrictEq shown nextIndex then []
         else [SlideBackgroundTo nextIndex]
     end).

(** [refreshWorkSliderLayout(swiper)] *)
Definition refreshWorkSliderLayout (swiper : option Swiper) : list Effect :=
  match swiper with
  | None => []
  | Some s =>
      let targetIndex :=
        if isFinite (realIndex s) then realIndex s
        else if truthy (activeIndex s) then activeIndex s
        else Fin 0 in
      [UpdateLayout; SlideTo targetIndex]
  end.

(** [Math.min(activeWorkIndex, Math.max(shoots.length - 1, 0))] *)
Definition initialIndex (st : State) : jsnum :=
  mathMin (activeWorkIndex st)
    (mathMax (jsAdd shootsLength (Fin (-1))) (Fin 0)).

(** The [onSwiper] callbacks of the background slider and of the main
    slider. *)
Definition onBackgroundSwiper (st : State) : State * list Effect :=
  (st,
   if jsLt (Fin 0) (initialIndex st) then [SlideBackgroundTo (initialIndex st)]
   else []).

Definition onMainSwiper (swiper : Swiper) (st : State) : State * list Effect :=
  (withActiveWorkIndex (initialIndex st) st,
   refreshWorkSliderLayout (Some swiper)
   ++ (if jsLt (Fin 0) (initialIndex st) then [SlideTo (initialIndex st)]
       else [])).

(** The two buttons of the menu: [setIsMenuOpen(!isMenuOpen)] and
    [setIsMenuOpen(false)]. *)
Definition withMenu (open : bool) (st : State) : State := {|
  location := location st;
  pathname := pathname st;
  pendingSectionId := pendingSectionId st;
  isMenuOpen := open;
  activeWorkIndex := activeWorkIndex st
|}.

(** [handlePopState]: the browser has moved to [windowPathname]. *)
Definition handlePopState (windowPathname : jsstring) (st : State) : State := {|
  location := windowPathname;
  pathname := normalizePathname windowPathname;
  pendingSectionId := pendingSectionId st;
  isMenuOpen := isMenuOpen st;
  activeWorkIndex := activeWorkIndex st
|}.

(** The effect on [[pathname, pendingSectionId]] keeps a timer exactly
    while a section is pending on the root path ([!pendingSectionId] holds
    for [null] and for the empty string); this is what the timer does when
    it fires. *)
Definition scrollTimerArmed (st : State) : bool :=
  match pendingSectionId st with
  | Some (_ :: _) => streq (pathname st) (lit "/")
  | _ => false
  end.

Definition scrollTimerFires (st : State) : State * list Effect :=
  match pendingSectionId st with
  | Some ((_ :: _) as sectionId) =>
      if streq (pathname st) (lit "/") then
        ({| location := location st;
            pathname := pathname st;
            pendingSectionId := None;
            isMenuOpen := isMenuOpen st;
            activeWorkIndex := activeWorkIndex st |},
         if hasElement sectionId then [ScrollIntoView sectionId] else [])
      else (st, [])
  | _ => (st, [])
  end.

(** What can happen to the component.  [OpenSlide] is a click on the
    card or on the button of the slide at [index], which hands that
    element of [shoots] to [openProject]; [OpenActiveProject] stands for
    the cover button and for a tap on the slider; [SliderResized] for the
    [onResize] callback and for the animation frame that follows a change
    of the orientations, which both refresh the layout of the slider. *)
Inductive Event : Type :=
| GoHome
| GoToSection (sectionId : jsstring)
| OpenSlide (index : nat)
| OpenActiveProject (swiper : option Swiper)
| WorkSlideChange (swiper : option Swiper) (background : option jsnum)
| BackgroundSwiperReady
| MainSwiperReady (swiper : Swiper)
| SliderResized (swiper : option Swiper)
| ToggleMenu
| CloseMenu
| PopState (windowPathname : jsstring)
| ScrollTimer.

(** [None] when the handler is left by the [URIError] of
    [encodeURIComponent], the one exception that is modelled. *)
Definition step (st : State) (e : Event) : option (State * list Effect) :=
  match e with
  | GoHome => Some (goHome st)
  | GoToSection sectionId => Some (goToSection sectionId st)
  | OpenSlide index => openProject (nth_error allShoots index) st
  | OpenActiveProject swiper => openActiveProject swiper st
  | WorkSlideChange swiper background =>
      Some (handleWorkSlideChange swiper background st)
  | BackgroundSwiperReady => Some (onBackgroundSwiper st)
  | MainSwiperReady swiper => Some (onMainSwiper swiper st)
  | SliderResized swiper => Some (st, refreshWorkSliderLayout swiper)
  | ToggleMenu => Some (withMenu (negb (isMenuOpen st)) st, [])
  | CloseMenu => Some (withMenu false st, [])
  | PopState windowPathname => Some (handlePopState windowPathname st, [])
  | ScrollTimer => Some (scrollTimerFires st)
  end.

(** The states reached from the first render. *)
Inductive Reachable (windowPathname : jsstring) : State -> Prop :=
| ReachInitial : Reachable windowPathname (initialState windowPathname)
| ReachStep (st st' : State) (e : Event) (effects : list Effect) :
    Reachable windowPathname st ->
    step st e = Some (st', effects) ->
    Reachable windowPathname st'.

(** The values derived for the work section at each render. *)
Definition safeWorkIndex (st : State) : jsnum :=
  match allShoots with
  | _ :: _ =>
      if isFinite (activeWorkIndex st) then
        jsRem (jsAdd (jsRem (activeWorkIndex st) shootsLength) shootsLength)
          shootsLength
      else Fin 0
  | [] => Fin 0
  end.

Definition activeWorkProject (st : State) : option (Project Loader) :=
  shootAt (safeWorkIndex st).

Definition currentWorkCounter (st : State) : jsstring :=
  match allShoots with
  | _ :: _ => toCounterValue (jsAdd (safeWorkIndex st) (Fin 1))
  | [] => lit "00"
  end.

Definition totalWorkCounter : jsstring := toCounterValue shootsLength.

End Navigation.

End Navigation.

(** The projects of the sample library, a page that has both sections,
    and a library with one folder whose name has no letter or digit after
    the date. *)
Definition sampleShoots : list (Project nat) :=
  @shoots asciiRuntime nat samplePhotos.

Definition sampleHasElement (sectionId : jsstring) : bool :=
  streq sectionId (lit "work") || streq sectionId (lit "contact").

Definition sampleUnnamedPhotos : list (jsstring * nat) :=
  [ (lit "./assets/photos/2026-01-01-!!!/a.jpg", 1) ].

Definition sampleUnnamed : Project nat :=
  {| id := lit "2026-01-01-!!!";
     routeSlug := [];
     image := 1;
     backgroundImage := 1;
     gallery := [] |}.

(** The first render at the address of a project, and the state after
    the button back to the work section. *)
Definition sampleProjectState : Navigation.State :=
  Navigation.initialState (lit "/portfolio/Editorial/").

Definition sampleWorkState : Navigation.State :=
  fst (@Navigation.goToSection asciiRuntime nat sampleShoots sampleHasElement
         (lit "work") sampleProjectState).

Definition sampleLifestyle : Project nat :=
  {| id := lit "2026-07-15-lifestyle-shoot";
     routeSlug := lit "lifestyle-shoot";
     image := 8;
     backgroundImage := 1;
     gallery := [1] |}.

Unset Implicit Arguments.

(** ** The matcher on the patterns of the source *)

Section Matcher.

Lemma takeRun_dropRun (p : N -> bool) (s : jsstring) :
  takeRun p s ++ dropRun p s = s.
Proof.
  induction s as [|c t IH]; simpl; [reflexivity|].
  destruct (p c); simpl; [now rewrite IH | reflexivity].
Qed.

Lemma dropRun_nil_iff (p : N -> bool) (s : jsstring) :
  dropRun p s = [] <-> forallb p s = true.
Proof.
  induction s as [|c t IH]; simpl; [tauto|].
  destruct (p c); simpl; [exact IH | split; discriminate].
Qed.

Lemma takeRun_all (p : N -> bool) (s : jsstring) :
  forallb p s = true -> takeRun p s = s.
Proof.
  induction s as [|c t IH]; simpl; [reflexivity|].
  destruct (p c); simpl; [intros H; now rewrite IH | discriminate].
Qed.

Lemma dropRun_head (p : N -> bool) (s : jsstring) (c : N) (t : jsstring) :
  dropRun p s = c :: t -> p c = false.
Proof.
  induction s as [|d u IH]; simpl; [discriminate|].
  destruct (p d) eqn:E; [exact IH | intros H; injection H as -> _; exact E].
Qed.

(** A greedy [+] hands the longest run to its continuation first; the
    shorter runs are tried only when that fails, and they cannot succeed
    when the continuation refuses every input that starts in the class. *)
Lemma plusLoop_longest (p : N -> bool) (k : nat -> jsstring -> option mstate)
    (s : jsstring) :
  forall (i : nat) (c : N),
    p c = true ->
    (k (S i + List.length (takeRun p s)) (dropRun p s) = None ->
     forall j d t, p d = true -> k j (d :: t) = None) ->
    plusLoop p k i (c :: s)
    = k (S i + List.length (takeRun p s)) (dropRun p s).
Proof.
  induction s as [|d u IH]; intros i c Hc Hk.
  - simpl. rewrite Hc. simpl in Hk. now rewrite Nat.add_0_r.
  - change (plusLoop p k i (c :: d :: u))
      with (if p c then
              match plusLoop p k (S i) (d :: u) with
              | Some r => Some r
              | None => k (S i) (d :: u)
              end
            else None).
    rewrite Hc. simpl takeRun in *. simpl dropRun in *.
    destruct (p d) eqn:Hd.
    + simpl List.length in *.
      assert (S i + S (List.length (takeRun p u))
              = S (S i) + List.length (takeRun p u)) as E by lia.
      rewrite E in Hk |- *. clear E.
      rewrite (IH (S i) d Hd Hk).
      destruct (k (S (S i) + List.length (takeRun p u)) (dropRun p u)) eqn:E;
        [reflexivity|].
      exact (Hk eq_refl (S i) d u Hd).
    + simpl. rewrite Hd. simpl. now rewrite Nat.add_0_r.
Qed.

Lemma plusLoop_stop (p : N -> bool) (k : nat -> jsstring -> option mstate)
    (i : nat) (c : N) (s : jsstring) :
  p c = false -> plusLoop p k i (c :: s) = None.
Proof. intros H; simpl; now rewrite H. Qed.

(** A pattern that starts with [^] can only match at index 0. *)
Lemma execFrom_bol (r : regex) (s : jsstring) :
  forall i, execFrom (RSeq RBol r) (S i) s = None.
Proof.
  induction s as [|c t IH]; intros i; simpl; [reflexivity | apply IH].
Qed.

Lemma exec_bol (r : regex) (s : jsstring) :
  exec (RSeq RBol r) s = rmatch r (MState 0 s []) Some.
Proof.
  unfold exec.
  assert (matchAt (RSeq RBol r) 0 s = rmatch r (MState 0 s []) Some) as E
    by reflexivity.
  destruct s as [|c t]; cbn [execFrom]; rewrite E.
  - now destruct (rmatch r (MState 0 [] []) Some).
  - destruct (rmatch r (MState 0 (c :: t) []) Some); [reflexivity|].
    apply execFrom_bol.
Qed.

(** Code units already covered by a match are passed over unchanged. *)
Lemma replaceFrom_skip (r : regex) (rep : jsstring) (g : bool)
    (pre s : jsstring) :
  forall i,
    replaceFrom r rep g i (List.length pre) (pre ++ s)
    = replaceFrom r rep g (i + List.length pre) 0 s.
Proof.
  induction pre as [|c t IH]; intros i; simpl.
  - now rewrite Nat.add_0_r.
  - rewrite IH. f_equal. lia.
Qed.

(** [s.replace(/\/+$/, "")] drops the trailing slashes, and likewise for
    any class in place of the slash. *)
Lemma replace_trailing (p : N -> bool) (s : jsstring) :
  forall i, replaceFrom (RSeq (RPlus p) REol) [] false i 0 s = dropTrailing p s.
Proof.
  induction s as [|c t IH]; intros i; [reflexivity|].
  cbn [replaceFrom dropTrailing]. unfold matchAt. cbn [rmatch pos rest caps].
  destruct (p c) eqn:Hc.
  - rewrite plusLoop_longest by (auto; intros _ j d u _; reflexivity).
    destruct (dropRun p t) as [|d u] eqn:Hd.
    + apply dropRun_nil_iff in Hd. rewrite Hd. cbn [andb pos].
      rewrite (takeRun_all _ _ Hd).
      replace (S i + List.length t - i) with (S (List.length t)) by lia.
      cbn [app]. apply skipn_all.
    + assert (forallb p t = false) as ->.
      { destruct (forallb p t) eqn:E; [|reflexivity].
        apply dropRun_nil_iff in E. congruence. }
      cbn [andb]. now rewrite IH.
  - rewrite plusLoop_stop by exact Hc. cbn [andb]. now rewrite IH.
Qed.

(** [s.replace(/&/g, rep)] (and any other single code unit). *)
Lemma replaceAll_char (c : N) (rep s : jsstring) :
  replaceAll (rstr [c]) rep s
  = flat_map (fun x => if N.eqb c x then rep else [x]) s.
Proof.
  unfold replaceAll. generalize 0 at 1 as i.
  induction s as [|x t IH]; intros i; [reflexivity|].
  cbn [replaceFrom flat_map]. unfold matchAt, rstr, rseq, rch.
  cbn [map fold_right rmatch pos rest caps].
  destruct (N.eqb c x).
  - cbn [pos]. replace (S i - i) with 1 by lia. now rewrite IH.
  - now rewrite IH.
Qed.

(** [s.replace(/[...]+/g, rep)] collapses every maximal run of the class. *)
Lemma replaceFrom_plus (p : N -> bool) (rep s : jsstring) :
  forall i,
    replaceFrom (RPlus p) rep true i 0 s = collapseRuns p rep false s
    /\ replaceFrom (RPlus p) rep true i (List.length (takeRun p s)) s
       = collapseRuns p rep true s.
Proof.
  induction s as [|c t IH]; intros i; [split; reflexivity|].
  cbn [takeRun collapseRuns]. destruct (p c) eqn:Hc.
  - split.
    + cbn [replaceFrom]. unfold matchAt. cbn [rmatch pos rest caps].
      rewrite plusLoop_longest by (auto; discriminate).
      cbn [pos].
      replace (S i + List.length (takeRun p t) - i)
        with (S (List.length (takeRun p t))) by lia.
      now rewrite (proj2 (IH (S i))).
    + cbn [List.length replaceFrom]. apply (proj2 (IH (S i))).
  - assert (replaceFrom (RPlus p) rep true i 0 (c :: t)
            = c :: collapseRuns p rep false t) as E.
    { cbn [replaceFrom]. unfold matchAt. cbn [rmatch pos rest caps].
      rewrite plusLoop_stop by exact Hc. now rewrite (proj1 (IH (S i))). }
    split; [exact E | exact E].
Qed.

Lemma replaceAll_plus (p : N -> bool) (rep s : jsstring) :
  replaceAll (RPlus p) rep s = collapseRuns p rep false s.
Proof. apply (proj1 (replaceFrom_plus p rep s 0)). Qed.

(** [s.replace(/^-+|-+$/g, "")] trims the class at both ends. *)
Lemma replaceFrom_trim_tail (p : N -> bool) (s : jsstring) :
  forall i,
    replaceFrom (RAlt (RSeq RBol (RPlus p)) (RSeq (RPlus p) REol)) [] true
      (S i) 0 s
    = dropTrailing p s.
Proof.
  induction s as [|c t IH]; intros i; [reflexivity|].
  cbn [replaceFrom dropTrailing]. unfold matchAt.
  cbn [rmatch pos rest caps Nat.eqb].
  destruct (p c) eqn:Hc.
  - rewrite plusLoop_longest by (auto; intros _ j d u _; reflexivity).
    destruct (dropRun p t) as [|d u] eqn:Hd.
    + apply dropRun_nil_iff in Hd. rewrite Hd. cbn [andb pos].
      rewrite (takeRun_all _ _ Hd).
      replace (S (S i) + List.length t - S i) with (S (List.length t)) by lia.
      cbn [app].
      rewrite <- (app_nil_r t) at 2. rewrite replaceFrom_skip. reflexivity.
    + assert (forallb p t = false) as ->.
      { destruct (forallb p t) eqn:E; [|reflexivity].
        apply dropRun_nil_iff in E. congruence. }
      cbn [andb]. now rewrite IH.
  - rewrite plusLoop_stop by exact Hc. cbn [andb]. now rewrite IH.
Qed.

Lemma replaceAll_trim (p : N -> bool) (s : jsstring) :
  replaceAll (RAlt (RSeq RBol (RPlus p)) (RSeq (RPlus p) REol)) [] s
  = dropTrailing p (dropRun p s).
Proof.
  unfold replaceAll. destruct s as [|c t]; [reflexivity|].
  cbn [replaceFrom dropRun]. unfold matchAt.
  cbn [rmatch pos rest caps Nat.eqb].
  destruct (p c) eqn:Hc.
  - rewrite plusLoop_longest by (auto; discriminate).
    cbn [pos].
    replace (1 + List.length (takeRun p t) - 0)
      with (S (List.length (takeRun p t))) by lia.
    cbn [app].
    rewrite <- (takeRun_dropRun p t) at 2.
    rewrite replaceFrom_skip. apply replaceFrom_trim_tail.
  - rewrite !plusLoop_stop by exact Hc.
    cbn [dropTrailing]. rewrite Hc. cbn [andb].
    now rewrite replaceFrom_trim_tail.
Qed.

End Matcher.

(** ** Strings *)

Section Strings.

Lemma streq_eq (a b : jsstring) : streq a b = true <-> a = b.
Proof.
  revert b. induction a as [|x a IH]; intros [|y b]; simpl;
    try (split; [discriminate | discriminate]); [tauto|].
  rewrite andb_true_iff, N.eqb_eq, IH.
  split; [intros [-> ->]; reflexivity | intros H; injection H; auto].
Qed.

Lemma streq_refl (a : jsstring) : streq a a = true.
Proof. now apply streq_eq. Qed.

Lemma streq_neq (a b : jsstring) : streq a b = false <-> a <> b.
Proof.
  rewrite <- streq_eq. destruct (streq a b); split; congruence.
Qed.

Lemma startsWith_app (p s : jsstring) :
  startsWith p s = true <-> exists t, s = p ++ t.
Proof.
  revert s. induction p as [|x p IH]; intros s; simpl.
  - split; [intros _; now exists s | reflexivity].
  - destruct s as [|y s].
    + split; [discriminate | intros [t H]; discriminate].
    + rewrite andb_true_iff, N.eqb_eq, IH. split.
      * intros [-> [t ->]]. now exists t.
      * intros [t H]. injection H as -> ->. split; [reflexivity | now exists t].
Qed.

Lemma startsWith_skipn (p s : jsstring) :
  startsWith p s = true -> s = p ++ skipn (List.length p) s.
Proof.
  intros H. apply startsWith_app in H as [t ->].
  now rewrite skipn_app, skipn_all, Nat.sub_diag.
Qed.

Lemma firstn_takeRun (p : N -> bool) (s : jsstring) :
  firstn (List.length (takeRun p s)) s = takeRun p s.
Proof.
  rewrite <- (takeRun_dropRun p s) at 2.
  rewrite firstn_app, Nat.sub_diag, firstn_all. simpl. apply app_nil_r.
Qed.

Lemma takeRun_app (p : N -> bool) (a b : jsstring) :
  forallb p a = true -> takeRun p (a ++ b) = a ++ takeRun p b.
Proof.
  induction a as [|x a IH]; simpl; [reflexivity|].
  destruct (p x); simpl; [intros H; now rewrite IH | discriminate].
Qed.

Lemma dropRun_app (p : N -> bool) (a b : jsstring) :
  forallb p a = true -> dropRun p (a ++ b) = dropRun p b.
Proof.
  induction a as [|x a IH]; simpl; [reflexivity|].
  destruct (p x); simpl; [exact IH | discriminate].
Qed.

Lemma takeRun_forallb (p : N -> bool) (s : jsstring) :
  forallb p (takeRun p s) = true.
Proof.
  induction s as [|c t IH]; simpl; [reflexivity|].
  destruct (p c) eqn:E; simpl; [now rewrite E | reflexivity].
Qed.

(** A literal of the pattern matches exactly when the input starts with it. *)
Lemma rmatch_rstr (w : jsstring) (k : mstate -> option mstate) :
  forall i s cs,
    rmatch (rstr w) (MState i s cs) k
    = if startsWith w s
      then k (MState (i + List.length w) (skipn (List.length w) s) cs)
      else None.
Proof.
  induction w as [|x w IH]; intros i s cs.
  - simpl. now rewrite Nat.add_0_r.
  - change (rstr (x :: w)) with (RSeq (rch x) (rstr w)).
    cbn [rmatch rch pos rest caps startsWith].
    destruct s as [|y s]; [reflexivity|].
    destruct (N.eqb x y); cbn [andb]; [|reflexivity].
    rewrite IH. cbn [List.length skipn].
    now replace (S i + List.length w) with (i + S (List.length w)) by lia.
Qed.

End Strings.

(** ** The patterns of the router and of the folder names *)

Section Patterns.

Local Arguments isSlash : simpl never.
Local Arguments isDigit : simpl never.
Local Arguments isDot : simpl never.
Local Arguments isHyphen : simpl never.
Local Arguments N.eqb : simpl never.

Lemma exec_PROJECT_ROUTE_RE (p : jsstring) :
  option_map (group 1) (exec PROJECT_ROUTE_RE p) = routeSegment p.
Proof.
  unfold PROJECT_ROUTE_RE.
  change (rseq (RBol :: ?l)) with (RSeq RBol (rseq l)).
  rewrite exec_bol.
  change (rseq (rstr ?w :: ?l)) with (RSeq (rstr w) (rseq l)).
  cbn [rmatch]. rewrite rmatch_rstr.
  unfold routeSegment, PROJECT_PATH_PREFIX.
  destruct (startsWith (lit "/portfolio/") p); [|reflexivity].
  generalize (skipn (List.length (lit "/portfolio/")) p) as r. intros r.
  cbn [rseq fold_right rmatch pos rest caps].
  destruct r as [|c t]; [reflexivity|].
  cbn [takeRun dropRun].
  destruct (negb (isSlash c)) eqn:Hc; [|now rewrite plusLoop_stop].
  rewrite plusLoop_longest; [|exact Hc|].
  - set (i0 := 0 + List.length (lit "/portfolio/")).
    set (ns := fun c0 : N => negb (isSlash c0)).
    assert (firstn (S i0 + List.length (takeRun ns t) - i0) (c :: t)
            = c :: takeRun ns t) as ->.
    { replace (S i0 + List.length (takeRun ns t) - i0)
        with (S (List.length (takeRun ns t))) by lia.
      cbn [firstn]. now rewrite firstn_takeRun. }
    rewrite rmatch_rstr. cbn [rest].
    destruct (dropRun ns t) as [|d u] eqn:Hd; [reflexivity|].
    apply dropRun_head in Hd. unfold ns in Hd.
    apply negb_false_iff in Hd. unfold isSlash in Hd.
    apply N.eqb_eq in Hd. subst d.
    destruct u as [|e u]; reflexivity.
  - intros _ j d u Hd. rewrite rmatch_rstr.
    apply negb_true_iff in Hd.
    cbn [startsWith lit map list_ascii_of_string].
    change (N_of_ascii "/") with 47%N.
    change (N.eqb 47 d) with (isSlash d).
    rewrite Hd. reflexivity.
Qed.

Ltac close_false :=
  repeat first [reflexivity | progress cbn [andb] | rewrite andb_false_r].

Ltac check_unit :=
  match goal with
  | |- (if ?b then _ else _) = _ => destruct b eqn:?; [|close_false]
  end.

Lemma exec_SHOOT_FOLDER_RE (s : jsstring) :
  exec SHOOT_FOLDER_RE s
  = match parseShootFolder s with
    | Some (y, m, d, x) =>
        Some (MState (List.length s) [] [(4, x); (3, d); (2, m); (1, y)])
    | None => None
    end.
Proof.
  unfold SHOOT_FOLDER_RE.
  change (rseq (RBol :: ?l)) with (RSeq RBol (rseq l)).
  rewrite exec_bol.
  destruct s as [|y1 [|y2 [|y3 [|y4 [|h1 [|m1 [|m2 [|h2 [|d1 [|d2 [|h3 [|c t]]]]]]]]]]]];
    cbn [rseq fold_right rrep rmatch rstr map rch lit list_ascii_of_string
         pos rest caps parseShootFolder forallb];
    change (N_of_ascii "-") with 45%N;
    change (N.eqb 45) with isHyphen;
    repeat check_unit; try reflexivity.
  cbn [andb firstn Nat.sub].
  destruct (isDot c) eqn:Hc; [|now rewrite plusLoop_stop].
  rewrite plusLoop_longest by (auto; intros _ j d u _; reflexivity).
  destruct (dropRun isDot t) as [|d u] eqn:Hd.
  - apply dropRun_nil_iff in Hd. rewrite Hd. cbn [andb].
    rewrite (takeRun_all _ _ Hd).
    replace (12 + List.length t - 11) with (S (List.length t)) by lia.
    cbn [firstn List.length]. rewrite firstn_all. reflexivity.
  - assert (forallb isDot t = false) as ->.
    { destruct (forallb isDot t) eqn:E; [|reflexivity].
      apply dropRun_nil_iff in E. congruence. }
    reflexivity.
Qed.

End Patterns.

Section CoverPattern.

Local Arguments N.eqb : simpl never.
Local Arguments asciiLower : simpl never.
Local Arguments asciiUpper : simpl never.

(** Under the [i] flag a lower-case letter or a dot of the pattern
    matches the code units that fold to it. *)
Lemma ignoreCase_unit (x c : N) :
  isLowerAZ c = true \/ c = 46%N ->
  N.eqb (asciiUpper x) (asciiUpper c) = N.eqb (asciiLower x) c.
Proof.
  unfold asciiUpper, asciiLower, isLowerAZ, isUpperAZ, inRange.
  intros H.
  destruct (N.eqb_spec (if (97 <=? x)%N && (x <=? 122)%N then (x - 32)%N else x)
              (if (97 <=? c)%N && (c <=? 122)%N then (c - 32)%N else c));
    destruct (N.eqb_spec (if (65 <=? x)%N && (x <=? 90)%N then (x + 32)%N else x) c);
    try reflexivity; exfalso;
    destruct (N.leb_spec 97 x); destruct (N.leb_spec x 122);
    destruct (N.leb_spec 97 c); destruct (N.leb_spec c 122);
    destruct (N.leb_spec 65 x); destruct (N.leb_spec x 90);
    cbn [andb] in *; destruct H; try discriminate; lia.
Qed.

Ltac fold_units :=
  repeat match goal with
  | |- context [N.eqb (asciiUpper ?x) (asciiUpper ?c)] =>
      rewrite (ignoreCase_unit x c)
        by (first [left; reflexivity | right; reflexivity])
  end.

Ltac split_units :=
  repeat match goal with
  | |- context [N.eqb (asciiLower ?x) ?c] =>
      destruct (N.eqb_spec (asciiLower x) c); cbn [andb orb]
  end.

Lemma test_coverRegex (s : jsstring) : test coverRegex s = isCoverName s.
Proof.
  unfold test, coverRegex, isCoverName.
  change (rseq (RBol :: ?l)) with (RSeq RBol (rseq l)).
  rewrite exec_bol.
  destruct s as [|c1 [|c2 [|c3 [|c4 [|c5 [|c6 [|c7 [|c8 [|c9 [|c10 [|c11 t]]]]]]]]]]];
    cbn [rseq fold_right rmatch rstrI rchI map lit list_ascii_of_string
         pos rest caps streq];
    repeat match goal with
    | |- context [N_of_ascii ?a] =>
        let v := eval vm_compute in (N_of_ascii a) in
        change (N_of_ascii a) with v
    end.
  all: fold_units.
  all: split_units; reflexivity.
Qed.

End CoverPattern.

(** ** Path normalization *)

Section Normalize.

Lemma dropTrailing_nil_iff (p : N -> bool) (s : jsstring) :
  dropTrailing p s = [] <-> forallb p s = true.
Proof.
  destruct s as [|c t]; simpl; [tauto|].
  destruct (p c && forallb p t); split; congruence.
Qed.

Lemma lastIs_dropTrailing (p : N -> bool) (s : jsstring) :
  lastIs p (dropTrailing p s) = false.
Proof.
  induction s as [|c t IH]; [reflexivity|].
  cbn [dropTrailing]. destruct (p c && forallb p t) eqn:E; [reflexivity|].
  cbn [lastIs]. destruct (dropTrailing p t) as [|d u] eqn:Ed; [|exact IH].
  apply dropTrailing_nil_iff in Ed. rewrite Ed, andb_true_r in E. exact E.
Qed.

Lemma forallb_lastIs (p : N -> bool) (s : jsstring) :
  s <> [] -> forallb p s = true -> lastIs p s = true.
Proof.
  induction s as [|c t IH]; [congruence|].
  intros _ H. cbn [forallb] in H. apply andb_true_iff in H as [Hc Ht].
  cbn [lastIs]. destruct t as [|d u]; [exact Hc|].
  apply IH; [discriminate | exact Ht].
Qed.

Lemma dropTrailing_fixed (p : N -> bool) (s : jsstring) :
  lastIs p s = false -> dropTrailing p s = s.
Proof.
  induction s as [|c t IH]; [reflexivity|].
  cbn [lastIs dropTrailing]. destruct t as [|d u].
  - intros ->. reflexivity.
  - intros H. rewrite (IH H).
    destruct (forallb p (d :: u)) eqn:E.
    + rewrite forallb_lastIs in H; [discriminate | discriminate | exact E].
    + now rewrite andb_false_r.
Qed.

Lemma dropTrailing_prefix (p : N -> bool) (s : jsstring) :
  exists u, s = dropTrailing p s ++ u.
Proof.
  induction s as [|c t [u IH]]; [now exists []|].
  cbn [dropTrailing]. destruct (p c && forallb p t).
  - now exists (c :: t).
  - exists u. cbn [app]. now rewrite <- IH.
Qed.

Lemma normalizePathname_fixed (r : jsstring) :
  r <> [] -> lastIs isSlash (47%N :: r) = false ->
  normalizePathname (47%N :: r) = 47%N :: r.
Proof.
  intros Hr Hlast. unfold normalizePathname.
  destruct r as [|e r2]; [congruence|].
  cbn [streq lit map list_ascii_of_string startsWith andb].
  change (N_of_ascii "/") with 47%N. cbn [N.eqb Pos.eqb andb].
  unfold replace. rewrite replace_trailing.
  rewrite (dropTrailing_fixed _ _ Hlast). reflexivity.
Qed.

Lemma normalizePathname_cases (p : jsstring) :
  normalizePathname p = lit "/"
  \/ exists r,
       normalizePathname p = 47%N :: r /\ r <> []
       /\ lastIs isSlash (47%N :: r) = false
       /\ (startsWith (lit "//") p = false -> startsWith (lit "/") r = false).
Proof.
  unfold normalizePathname.
  destruct p as [|c t]; [now left|].
  destruct (streq (c :: t) (lit "/")); [now left|].
  match goal with
  | |- context [replace _ _ ?x] => remember x as w eqn:Ew
  end.
  assert (exists w', w = 47%N :: w'
            /\ (startsWith (lit "//") (c :: t) = false ->
                startsWith (lit "/") w' = false)) as (w' & Hw & Hw').
  { subst w. destruct (startsWith (lit "/") (c :: t)) eqn:E.
    - apply startsWith_app in E as [u E]. exists u. split; [exact E|].
      injection E as -> ->. intros H. exact H.
    - exists (c :: t). split; [reflexivity | intros _; exact E]. }
  clear Ew. unfold replace. rewrite replace_trailing.
  pose proof (lastIs_dropTrailing isSlash w) as Hlast.
  destruct (dropTrailing_prefix isSlash w) as [u Hu].
  destruct (dropTrailing isSlash w) as [|d r1] eqn:Er; [left; reflexivity|].
  rewrite Hw in Hu. injection Hu as <- Hu.
  assert (r1 <> []) as Hr1
    by (intros ->; vm_compute in Hlast; discriminate Hlast).
  right. exists r1. repeat split; auto.
  intros H. specialize (Hw' H). destruct r1 as [|e r2]; [congruence|].
  cbn [app] in Hu. subst w'.
  cbn [startsWith lit map list_ascii_of_string andb] in *.
  change (N_of_ascii "/") with 47%N in *.
  destruct (N.eqb 47 e); [discriminate Hw' | reflexivity].
Qed.

(** C4, as amended: [normalizePathname] is idempotent; its result is
    either ["/"] or a string that starts with a slash and does not end with
    one; and the result starts with two slashes only if the input did, so
    an input without a doubled leading slash is given exactly one. *)
Theorem normalizePathname_canonical (p : jsstring) :
  let r := normalizePathname p in
  normalizePathname r = r
  /\ (r = lit "/"
      \/ (startsWith (lit "/") r = true /\ lastIs isSlash r = false))
  /\ (startsWith (lit "//") p = false -> startsWith (lit "//") r = false).
Proof.
  cbv zeta.
  destruct (normalizePathname_cases p) as [-> | (r & -> & Hr & Hlast & Hs)].
  - repeat split; auto.
  - repeat split.
    + now apply normalizePathname_fixed.
    + right. split; [reflexivity | exact Hlast].
    + intros H. specialize (Hs H). destruct r as [|e r2]; [congruence|].
      cbn [startsWith lit map list_ascii_of_string andb] in *.
      change (N_of_ascii "/") with 47%N in *.
      destruct (N.eqb 47 e); [discriminate Hs | reflexivity].
Qed.

(** C4 as stated fails: a path that starts with two slashes keeps both. *)
Lemma normalizePathname_keeps_double_slash :
  normalizePathname (lit "//a") <> lit "/"
  /\ startsWith (lit "//") (normalizePathname (lit "//a")) = true.
Proof. split; [discriminate | reflexivity]. Qed.

End Normalize.

(** ** The route pattern *)

Section Route.

Context {R : Runtime}.

Lemma routeSegment_shape (pathname seg : jsstring) :
  routeSegment pathname = Some seg <-> portfolioShape pathname seg.
Proof.
  unfold routeSegment, portfolioShape.
  set (ns := fun c : N => negb (isSlash c)).
  split.
  - destruct (startsWith PROJECT_PATH_PREFIX pathname) eqn:E; [|discriminate].
    apply startsWith_skipn in E.
    set (r := skipn (List.length PROJECT_PATH_PREFIX) pathname) in *.
    pose proof (takeRun_dropRun ns r) as Hr.
    pose proof (takeRun_forallb ns r) as Hall.
    destruct (takeRun ns r) as [|c u] eqn:Et; [discriminate|].
    destruct (dropRun ns r) as [|d [|e v]] eqn:Ed; try discriminate;
      intros H; injection H as <-; (split; [discriminate|]);
      (split; [exact Hall|]).
    + left. rewrite app_nil_r in Hr. rewrite <- Hr in E. exact E.
    + right. apply dropRun_head in Ed. unfold ns in Ed.
      apply negb_false_iff in Ed. unfold isSlash in Ed.
      apply N.eqb_eq in Ed. subst d. rewrite <- Hr in E. exact E.
  - intros (Hne & Hall & Hp).
    assert (exists tail, pathname = PROJECT_PATH_PREFIX ++ seg ++ tail
              /\ (tail = [] \/ tail = lit "/")) as (tail & -> & Htail).
    { destruct Hp as [-> | ->]; [exists [] | exists (lit "/")]; split; auto.
      now rewrite app_nil_r. }
    assert (startsWith PROJECT_PATH_PREFIX
              (PROJECT_PATH_PREFIX ++ seg ++ tail) = true)
      as -> by (apply startsWith_app; now exists (seg ++ tail)).
    rewrite skipn_app, skipn_all, Nat.sub_diag. cbn [app skipn].
    rewrite takeRun_app, dropRun_app by exact Hall.
    destruct Htail as [-> | ->]; cbn [takeRun dropRun];
      [|change (takeRun ns (lit "/")) with (@nil N);
        change (dropRun ns (lit "/")) with (lit "/")];
      rewrite app_nil_r; (destruct seg; [congruence | reflexivity]).
Qed.

Lemma getProjectSlugFromPathname_segment (pathname : jsstring) :
  getProjectSlugFromPathname pathname
  = match routeSegment pathname with
    | Some seg =>
        Some (toLowerCase
                (match decodeURIComponent seg with
                 | Some decoded => decoded
                 | None => seg
                 end))
    | None => None
    end.
Proof.
  unfold getProjectSlugFromPathname.
  rewrite <- exec_PROJECT_ROUTE_RE.
  destruct (exec PROJECT_ROUTE_RE pathname) as [m|]; [|reflexivity].
  cbn [option_map]. now destruct (decodeURIComponent (group 1 m)).
Qed.

(** C7, as amended: a slug is returned exactly for the paths
    [/portfolio/<segment>] with an optional single trailing slash, where
    the segment is not empty and holds no slash; it is the lower-cased
    percent-decoding of the segment, or the lower-cased segment itself when
    the segment is not a well-formed percent-encoding. *)
Theorem getProjectSlugFromPathname_shape (pathname : jsstring) :
  match getProjectSlugFromPathname pathname with
  | Some slug =>
      exists seg,
        portfolioShape pathname seg
        /\ slug = toLowerCase (match decodeURIComponent seg with
                              | Some decoded => decoded
                              | None => seg
                              end)
  | None => forall seg, ~ portfolioShape pathname seg
  end.
Proof.
  rewrite getProjectSlugFromPathname_segment.
  destruct (routeSegment pathname) as [seg|] eqn:E.
  - exists seg. split; [now apply routeSegment_shape | reflexivity].
  - intros seg H. apply routeSegment_shape in H. congruence.
Qed.

End Route.

(** C7 as stated fails: a segment that is not a well-formed
    percent-encoding has no decoding, and the raw segment is returned. *)
Lemma getProjectSlugFromPathname_undecodable :
  portfolioShape (lit "/portfolio/%zz") (lit "%zz")
  /\ decodeURIComponent (lit "%zz") = None
  /\ @getProjectSlugFromPathname asciiRuntime (lit "/portfolio/%zz")
     = Some (lit "%zz").
Proof.
  split; [|split; reflexivity].
  split; [discriminate | split; [reflexivity | left; reflexivity]].
Qed.

(** Paths with a further slash in the segment are not routed. *)
Example getProjectSlugFromPathname_nested :
  @getProjectSlugFromPathname asciiRuntime (lit "/portfolio/a/b") = None
  /\ @getProjectSlugFromPathname asciiRuntime (lit "/portfolio/High-Fashion/")
     = Some (lit "high-fashion").
Proof. split; reflexivity. Qed.

(** ** Sorting *)

Section Sorting.

Variable A : Type.
Variable cmp : A -> A -> jsnum.

Lemma insertBy_perm (x : A) (l : list A) :
  Permutation (insertBy cmp x l) (x :: l).
Proof.
  induction l as [|y t IH]; simpl; [reflexivity|].
  destruct (sortOrder (cmp x y) <=? 0)%Z; [reflexivity|].
  rewrite IH. apply perm_swap.
Qed.

Lemma sort_perm (l : list A) : Permutation (sort cmp l) l.
Proof.
  induction l as [|x t IH]; simpl; [reflexivity|].
  rewrite insertBy_perm. now constructor.
Qed.

Lemma sort_In (l : list A) (x : A) : In x (sort cmp l) <-> In x l.
Proof.
  split; apply Permutation_in; [|symmetry]; apply sort_perm.
Qed.

Lemma sort_length (l : list A) : List.length (sort cmp l) = List.length l.
Proof. apply Permutation_length, sort_perm. Qed.

(** On a set of values where the comparator is consistent, the result
    is sorted. *)
Variable P : A -> Prop.
Hypothesis cmp_total :
  forall a b, P a -> P b ->
    (0 < sortOrder (cmp a b))%Z -> (sortOrder (cmp b a) <= 0)%Z.
Hypothesis cmp_trans :
  forall a b c, P a -> P b -> P c ->
    notAfter cmp a b -> notAfter cmp b c -> notAfter cmp a c.

Lemma insertBy_sorted (x : A) (l : list A) :
  P x -> Forall P l -> StronglySorted (notAfter cmp) l ->
  StronglySorted (notAfter cmp) (insertBy cmp x l).
Proof.
  intros Hx. induction l as [|y t IH]; intros Hl Hs; simpl.
  - constructor; constructor.
  - inversion Hl as [|? ? Py Pt]; subst.
    inversion Hs as [|? ? Hs' Hy]; subst.
    destruct (Z.leb_spec (sortOrder (cmp x y)) 0) as [Hle | Hgt].
    + constructor; [now constructor|].
      constructor; [exact Hle|].
      rewrite Forall_forall in *. intros z Hz.
      apply (cmp_trans x y z); auto.
    + constructor; [now apply IH|].
      rewrite Forall_forall in *. intros z Hz.
      apply (Permutation_in _ (insertBy_perm x t)) in Hz.
      destruct Hz as [<- | Hz]; [|now apply Hy].
      now apply cmp_total.
Qed.

Lemma sort_sorted (l : list A) :
  Forall P l -> StronglySorted (notAfter cmp) (sort cmp l).
Proof.
  induction 1 as [|x t Hx Ht IH]; [constructor|].
  change (sort cmp (x :: t)) with (insertBy cmp x (sort cmp t)).
  apply insertBy_sorted; [exact Hx| |exact IH].
  rewrite Forall_forall in *. intros z Hz. apply Ht.
  exact (proj1 (sort_In t z) Hz).
Qed.

End Sorting.

(** Arrays of records and [null]s, and [find]. *)
Section Arrays.

Variable A : Type.

Lemma dropNulls_In (l : list (option A)) (x : A) :
  In x (dropNulls l) <-> In (Some x) l.
Proof.
  induction l as [|[y|] t IH]; simpl; [tauto| |].
  - rewrite IH. split; (intros [H | H]; [left; congruence | now right]).
  - rewrite IH. split; [now right | intros [H | H]; [discriminate | exact H]].
Qed.

Lemma find_first (f : A -> bool) (l : list A) (x : A) :
  find f l = Some x ->
  exists before after,
    l = before ++ x :: after /\ f x = true
    /\ forall y, In y before -> f y = false.
Proof.
  induction l as [|y t IH]; simpl; [discriminate|].
  destruct (f y) eqn:E.
  - intros H. injection H as ->. exists [], t. repeat split; auto.
    intros z [].
  - intros H. destruct (IH H) as (b & a & -> & Hx & Hb).
    exists (y :: b), a. repeat split; auto.
    intros z [<- | Hz]; auto.
Qed.

Lemma find_none (f : A -> bool) (l : list A) :
  find f l = None <-> forall y, In y l -> f y = false.
Proof.
  induction l as [|y t IH]; simpl; [split; [intros _ z [] | reflexivity]|].
  destruct (f y) eqn:E.
  - split; [discriminate | intros H; rewrite (H y) in E; auto; discriminate].
  - rewrite IH. split; [intros H z [<- | Hz]; auto | intros H z Hz; auto].
Qed.

End Arrays.

(** ** Dated folder names and their order *)

Section Folders.

Context {R : Runtime}.

Lemma parseShootFolder_parts (s y m d x : jsstring) :
  parseShootFolder s = Some (y, m, d, x) ->
  s = y ++ lit "-" ++ m ++ lit "-" ++ d ++ lit "-" ++ x
  /\ (List.length y = 4 /\ forallb isDigit y = true)
  /\ (List.length m = 2 /\ forallb isDigit m = true)
  /\ (List.length d = 2 /\ forallb isDigit d = true)
  /\ (x <> [] /\ forallb isDot x = true).
Proof.
  destruct s as [|y1 [|y2 [|y3 [|y4 [|h1 [|m1 [|m2 [|h2 [|d1 [|d2 [|h3 [|c t]]]]]]]]]]]];
    try discriminate.
  unfold parseShootFolder.
  destruct (forallb isDigit [y1; y2; y3; y4; m1; m2; d1; d2]) eqn:Hd;
    [|discriminate].
  destruct (forallb isHyphen [h1; h2; h3]) eqn:Hh; [|discriminate].
  destruct (forallb isDot (c :: t)) eqn:Hx; [|discriminate].
  cbn [andb]. intros H. injection H as <- <- <- <-.
  cbn [forallb] in Hd, Hh.
  repeat (apply andb_true_iff in Hd as [? Hd]).
  repeat (apply andb_true_iff in Hh as [? Hh]).
  unfold isHyphen in *.
  repeat match goal with
         | H : N.eqb 45 _ = true |- _ => apply N.eqb_eq in H; subst
         end.
  cbn [forallb]. repeat split; try discriminate; try exact Hx;
    repeat match goal with
           | H : isDigit _ = true |- _ => rewrite H; clear H
           end; reflexivity.
Qed.

Lemma Number_digits (s : jsstring) :
  s <> [] -> forallb isDigit s = true -> exists z, Number s = Some z.
Proof.
  intros Hs Hd. unfold Number. destruct s; [congruence|].
  rewrite Hd. eauto.
Qed.

Lemma test_SHOOT_FOLDER_RE (s : jsstring) :
  test SHOOT_FOLDER_RE s = true <-> parseShootFolder s <> None.
Proof.
  unfold test. rewrite exec_SHOOT_FOLDER_RE.
  destruct (parseShootFolder s) as [[[[y m] d] x]|]; split; congruence.
Qed.

(** A dated folder name always has a finite date value. *)
Lemma getFolderDateValue_dated (s : jsstring) :
  test SHOOT_FOLDER_RE s = true -> exists z, getFolderDateValue s = Fin z.
Proof.
  intros H. apply test_SHOOT_FOLDER_RE in H.
  unfold getFolderDateValue. rewrite exec_SHOOT_FOLDER_RE.
  destruct (parseShootFolder s) as [[[[y m] d] x]|] eqn:E; [|congruence].
  apply parseShootFolder_parts in E as (_ & [Ly Dy] & [Lm Dm] & [Ld Dd] & _).
  cbn [group caps lookupCap Nat.eqb].
  destruct (Number_digits y) as [zy ->]; [now destruct y | exact Dy|].
  destruct (Number_digits m) as [zm ->]; [now destruct m | exact Dm|].
  destruct (Number_digits d) as [zd ->]; [now destruct d | exact Dd|].
  eauto.
Qed.

Lemma compareFolders_dated (a b : jsstring) (da db : Z) :
  getFolderDateValue a = Fin da -> getFolderDateValue b = Fin db ->
  compareFolders a b
  = if (db - da =? 0)%Z then Fin (localeCompareBase b a) else Fin (db - da).
Proof.
  intros Ha Hb. unfold compareFolders. rewrite Ha, Hb. cbn [jsSub notZero].
  now destruct (db - da =? 0)%Z.
Qed.

Context (L : RuntimeLaws R).

Lemma localeCompare_refl (a : jsstring) : localeCompareBase a a = 0%Z.
Proof.
  pose proof (localeCompare_antisym a a) as H.
  destruct (Z.sgn_spec (localeCompareBase a a)) as [[? E]|[[? E]|[? E]]];
    rewrite E in H; lia.
Qed.

Lemma compareFolders_sign (a b : jsstring) :
  test SHOOT_FOLDER_RE a = true -> test SHOOT_FOLDER_RE b = true ->
  Z.sgn (sortOrder (compareFolders a b))
  = (- Z.sgn (sortOrder (compareFolders b a)))%Z.
Proof.
  intros Ha Hb.
  destruct (getFolderDateValue_dated a Ha) as [da Ea].
  destruct (getFolderDateValue_dated b Hb) as [db Eb].
  rewrite (compareFolders_dated a b da db Ea Eb).
  rewrite (compareFolders_dated b a db da Eb Ea).
  destruct (Z.eqb_spec (db - da) 0); destruct (Z.eqb_spec (da - db) 0);
    cbn [sortOrder]; try lia.
  apply localeCompare_antisym.
Qed.

Lemma compareFolders_trans (a b c : jsstring) :
  test SHOOT_FOLDER_RE a = true ->
  test SHOOT_FOLDER_RE b = true ->
  test SHOOT_FOLDER_RE c = true ->
  notAfter compareFolders a b -> notAfter compareFolders b c ->
  notAfter compareFolders a c.
Proof.
  intros Ha Hb Hc.
  destruct (getFolderDateValue_dated a Ha) as [da Ea].
  destruct (getFolderDateValue_dated b Hb) as [db Eb].
  destruct (getFolderDateValue_dated c Hc) as [dc Ec].
  unfold notAfter.
  rewrite (compareFolders_dated a b da db Ea Eb).
  rewrite (compareFolders_dated b c db dc Eb Ec).
  rewrite (compareFolders_dated a c da dc Ea Ec).
  pose proof (localeCompare_trans c b a) as Htr.
  destruct (Z.eqb_spec (db - da) 0); destruct (Z.eqb_spec (dc - db) 0);
    destruct (Z.eqb_spec (dc - da) 0); cbn [sortOrder]; intros; lia.
Qed.

Lemma compareFolders_total (a b : jsstring) :
  test SHOOT_FOLDER_RE a = true -> test SHOOT_FOLDER_RE b = true ->
  (0 < sortOrder (compareFolders a b))%Z ->
  (sortOrder (compareFolders b a) <= 0)%Z.
Proof.
  intros Ha Hb H. pose proof (compareFolders_sign a b Ha Hb) as Hs.
  destruct (Z.sgn_spec (sortOrder (compareFolders a b))) as [[? E]|[[? E]|[? E]]];
    destruct (Z.sgn_spec (sortOrder (compareFolders b a))) as [[? E']|[[? E']|[? E']]];
    lia.
Qed.

End Folders.

Section AsciiRuntime.

Lemma compareUnits_sign (a b : jsstring) :
  Z.sgn (compareUnits a b) = (- Z.sgn (compareUnits b a))%Z.
Proof.
  revert b. induction a as [|x a IH]; intros [|y b]; try reflexivity.
  cbn [compareUnits]. rewrite (N.eqb_sym y x).
  destruct (N.eqb_spec x y); [apply IH|].
  destruct (N.ltb_spec x y); destruct (N.ltb_spec y x);
    try reflexivity; lia.
Qed.

Lemma compareUnits_trans (a b c : jsstring) :
  (compareUnits a b <= 0)%Z -> (compareUnits b c <= 0)%Z ->
  (compareUnits a c <= 0)%Z.
Proof.
  revert b c. induction a as [|x a IH]; intros [|y b] [|z c];
    cbn [compareUnits]; try lia.
  destruct (N.eqb_spec x y); destruct (N.eqb_spec y z);
    destruct (N.eqb_spec x z); destruct (N.ltb_spec x y);
    destruct (N.ltb_spec y z); destruct (N.ltb_spec x z);
    try lia; subst; try lia; eauto.
Qed.

Lemma asciiLower_not_upper (c : N) : isUpperAZ (asciiLower c) = false.
Proof.
  unfold asciiLower. destruct (isUpperAZ c) eqn:E; [|exact E].
  unfold isUpperAZ, inRange in *.
  apply andb_true_iff in E as [E1 E2].
  apply N.leb_le in E1, E2. apply andb_false_iff. right.
  apply N.leb_gt. lia.
Qed.

Lemma asciiRuntime_laws : RuntimeLaws asciiRuntime.
Proof.
  constructor; cbn [toLowerCase localeCompareBase asciiRuntime].
  - reflexivity.
  - intros s c H. apply in_map_iff in H as (x & <- & _).
    apply asciiLower_not_upper.
  - intros s H. now apply map_eq_nil in H.
  - intros a b. apply compareUnits_sign.
  - intros a b c. apply compareUnits_trans.
Qed.

End AsciiRuntime.

(** ** Route slugs *)

Section Slugs.

Context {R : Runtime}.

Lemma toRouteSlug_passes (value : jsstring) :
  toRouteSlug value
  = dropTrailing isHyphen
      (dropRun isHyphen
         (collapseRuns (fun c => negb (isLowerAZ c || isDigit c)) (lit "-")
            false (ampersandToAnd (toLowerCase value)))).
Proof.
  unfold toRouteSlug.
  rewrite replaceAll_trim, replaceAll_plus.
  change (rstr (lit "&")) with (rstr [38%N]).
  now rewrite replaceAll_char.
Qed.

Lemma collapseRuns_ext (p q : N -> bool) (rep s : jsstring) :
  (forall c, In c s -> p c = q c) ->
  forall b, collapseRuns p rep b s = collapseRuns q rep b s.
Proof.
  induction s as [|c t IH]; intros H b; [reflexivity|].
  cbn [collapseRuns]. rewrite (H c) by now left.
  rewrite !IH by (intros; apply H; now right). reflexivity.
Qed.

Lemma forallb_rev (p : N -> bool) (s : jsstring) :
  forallb p (rev s) = forallb p s.
Proof.
  induction s as [|c t IH]; [reflexivity|].
  cbn [rev forallb]. rewrite forallb_app, IH. cbn [forallb].
  rewrite andb_true_r. apply andb_comm.
Qed.

Lemma dropRun_snoc (p : N -> bool) (a : jsstring) (c : N) :
  dropRun p (a ++ [c])
  = if forallb p a then (if p c then [] else [c]) else dropRun p a ++ [c].
Proof.
  induction a as [|x a IH]; [reflexivity|].
  cbn [app dropRun forallb]. destruct (p x); [exact IH | reflexivity].
Qed.

Lemma dropTrailing_rev (p : N -> bool) (s : jsstring) :
  dropTrailing p s = rev (dropRun p (rev s)).
Proof.
  induction s as [|c t IH]; [reflexivity|].
  cbn [dropTrailing rev]. rewrite dropRun_snoc, forallb_rev.
  destruct (forallb p t) eqn:E.
  - destruct (p c); [reflexivity|]. cbn [andb rev app].
    f_equal. now apply dropTrailing_nil_iff.
  - rewrite andb_false_r, rev_app_distr. cbn [rev app]. now rewrite IH.
Qed.

Lemma ampersandToAnd_no_upper (s : jsstring) :
  (forall c, In c s -> isUpperAZ c = false) ->
  forall c, In c (ampersandToAnd s) -> isUpperAZ c = false.
Proof.
  intros H c Hc. unfold ampersandToAnd in Hc.
  apply in_flat_map in Hc as (x & Hx & Hc).
  destruct (N.eqb 38 x).
  - cbn in Hc. repeat (destruct Hc as [<- | Hc]; [reflexivity|]). destruct Hc.
  - destruct Hc as [<- | []]. now apply H.
Qed.

(** What the slug is made of. *)
Lemma collapseRuns_slug_units (s : jsstring) (b : bool) :
  forallb isSlugUnit
    (collapseRuns (fun c => negb (isLowerAZ c || isDigit c)) (lit "-") b s)
  = true.
Proof.
  revert b. induction s as [|c t IH]; intros b; [reflexivity|].
  cbn [collapseRuns]. destruct (isLowerAZ c || isDigit c) eqn:E; cbn [negb].
  - cbn [forallb]. unfold isSlugUnit at 1. rewrite E. apply IH.
  - destruct b; [apply IH|]. cbn [app lit map list_ascii_of_string forallb].
    rewrite IH. reflexivity.
Qed.

Lemma dropRun_forallb (p q : N -> bool) (s : jsstring) :
  forallb q s = true -> forallb q (dropRun p s) = true.
Proof.
  induction s as [|c t IH]; [reflexivity|].
  cbn [dropRun]. destruct (p c); [|auto].
  cbn [forallb]. intros H. apply andb_true_iff in H as [_ H]. auto.
Qed.

Lemma dropTrailing_forallb (p q : N -> bool) (s : jsstring) :
  forallb q s = true -> forallb q (dropTrailing p s) = true.
Proof.
  induction s as [|c t IH]; [reflexivity|].
  cbn [dropTrailing forallb]. intros H. apply andb_true_iff in H as [Hc H].
  destruct (p c && forallb p t); [reflexivity|].
  cbn [forallb]. now rewrite Hc, IH.
Qed.

Lemma toRouteSlug_units (value : jsstring) :
  forallb isSlugUnit (toRouteSlug value) = true.
Proof.
  rewrite toRouteSlug_passes.
  apply dropTrailing_forallb, dropRun_forallb, collapseRuns_slug_units.
Qed.

Lemma slugUnit_range (c : N) :
  isSlugUnit c = true ->
  (97 <= c <= 122 \/ 48 <= c <= 57 \/ c = 45)%N.
Proof.
  unfold isSlugUnit, isLowerAZ, isDigit, isHyphen, inRange.
  intros H. apply orb_true_iff in H as [H | H];
    [apply orb_true_iff in H as [H | H]|].
  - apply andb_true_iff in H as [H1 H2]. apply N.leb_le in H1, H2. lia.
  - apply andb_true_iff in H as [H1 H2]. apply N.leb_le in H1, H2. lia.
  - apply N.eqb_eq in H. lia.
Qed.

Lemma slugUnit_unescaped (c : N) : isSlugUnit c = true -> isUnescaped c = true.
Proof.
  unfold isSlugUnit, isUnescaped. intros H.
  apply orb_true_iff in H as [H | H];
    [apply orb_true_iff in H as [H | H]|].
  - rewrite H. now rewrite orb_true_r.
  - rewrite H. now rewrite orb_true_r.
  - unfold isHyphen in H. apply N.eqb_eq in H. subst c. reflexivity.
Qed.

Lemma encodeURIComponent_slug (s : jsstring) :
  forallb isSlugUnit s = true -> encodeURIComponent s = Some s.
Proof.
  induction s as [|c t IH]; [reflexivity|].
  cbn [forallb encodeURIComponent]. intros H.
  apply andb_true_iff in H as [Hc Ht].
  now rewrite (slugUnit_unescaped c Hc), (IH Ht).
Qed.

Lemma decodeURIComponent_plain (s : jsstring) :
  forallb (fun c => negb (N.eqb c 37)) s = true ->
  decodeURIComponent s = Some s.
Proof.
  unfold decodeURIComponent. induction s as [|c t IH]; [reflexivity|].
  cbn [forallb decodeFrom]. intros H. apply andb_true_iff in H as [Hc Ht].
  apply negb_true_iff in Hc. now rewrite Hc, (IH Ht).
Qed.

Lemma forallb_impl (p q : N -> bool) (s : jsstring) :
  (forall c, p c = true -> q c = true) ->
  forallb p s = true -> forallb q s = true.
Proof.
  intros H. rewrite !forallb_forall. auto.
Qed.

Context (L : RuntimeLaws R).

Lemma toLowerCase_slug (s : jsstring) :
  forallb isSlugUnit s = true -> toLowerCase s = s.
Proof.
  intros H. rewrite toLowerCase_ascii.
  - rewrite <- (map_id s) at 2. apply map_ext_in. intros c Hc.
    rewrite forallb_forall in H. apply H, slugUnit_range in Hc.
    unfold asciiLower, isUpperAZ, inRange.
    destruct (N.leb_spec 65 c); destruct (N.leb_spec c 90);
      cbn [andb]; try reflexivity; lia.
  - revert H. apply forallb_impl. intros c Hc.
    apply slugUnit_range in Hc. unfold isAscii. apply N.ltb_lt. lia.
Qed.

(** A non-empty string of slug units is routed back to itself. *)
Lemma slug_roundtrip (s : jsstring) :
  s <> [] -> forallb isSlugUnit s = true ->
  getProjectPath s = Some (PROJECT_PATH_PREFIX ++ s)
  /\ getProjectSlugFromPathname (PROJECT_PATH_PREFIX ++ s) = Some s.
Proof.
  intros Hne Hs. split.
  - unfold getProjectPath. now rewrite (encodeURIComponent_slug s Hs).
  - rewrite getProjectSlugFromPathname_segment.
    assert (routeSegment (PROJECT_PATH_PREFIX ++ s) = Some s) as ->.
    { apply routeSegment_shape. split; [exact Hne|]. split; [|now left].
      revert Hs. apply forallb_impl. intros c Hc.
      apply slugUnit_range in Hc. apply negb_true_iff.
      unfold isSlash. apply N.eqb_neq. lia. }
    rewrite decodeURIComponent_plain.
    + now rewrite toLowerCase_slug.
    + revert Hs. apply forallb_impl. intros c Hc.
      apply slugUnit_range in Hc. apply negb_true_iff, N.eqb_neq. lia.
Qed.

(** The pattern [[^a-z0-9]] and "not alphanumeric" agree after
    lower-casing. *)
Lemma toRouteSlug_slugOfText (text : jsstring) :
  toRouteSlug text = slugOfText text.
Proof.
  rewrite toRouteSlug_passes. unfold slugOfText, trimHyphens.
  rewrite <- dropTrailing_rev. f_equal. f_equal.
  apply collapseRuns_ext. intros c Hc.
  apply ampersandToAnd_no_upper in Hc; [|apply toLowerCase_no_upper].
  unfold isAlphanumeric. rewrite Hc. now rewrite orb_false_r.
Qed.

End Slugs.

(** ** The grouping pass *)

Section Grouping.

Context {R : Runtime}.
Variable Loader : Type.

Lemma collect_classify (acc : FolderMap Loader * list (DigitalFile Loader))
    (entry : jsstring * Loader) :
  collect acc entry
  = match classify entry with
    | Ignored _ => acc
    | ToDigitals file => (fst acc, snd acc ++ [file])
    | ToShoot folderName file =>
        (pushToFolder folderName file (fst acc), snd acc)
    end.
Proof.
  destruct acc as [m ds], entry as [p l]. unfold collect, classify, slice.
  destruct (streq p HERO_PATH); [reflexivity|]. cbn [orb].
  destruct (negb (startsWith PHOTO_ROOT_PREFIX p)); [reflexivity|].
  destruct (split 47 (skipn (List.length PHOTO_ROOT_PREFIX) p))
    as [|folderName [|x more]]; try reflexivity.
  cbn [List.length Nat.ltb Nat.leb hd].
  destruct (streq (toLowerCase folderName) (lit "digitals")); [reflexivity|].
  now destruct (test SHOOT_FOLDER_RE folderName).
Qed.

Lemma fold_collect_digitals (entries : list (jsstring * Loader)) :
  forall acc,
    snd (fold_left (@collect R Loader) entries acc)
    = snd acc ++ digitalFiles entries.
Proof.
  induction entries as [|e es IH]; intros acc; cbn [fold_left].
  - cbn. now rewrite app_nil_r.
  - rewrite IH, collect_classify. unfold digitalFiles. cbn [flat_map].
    destruct (classify e); cbn [snd app]; try reflexivity.
    now rewrite <- app_assoc.
Qed.

Lemma filesIn_push (k : jsstring) (f : ShootFile Loader)
    (m : FolderMap Loader) (k' : jsstring) :
  filesIn (pushToFolder k f m) k'
  = if streq k k' then filesIn m k' ++ [f] else filesIn m k'.
Proof.
  unfold filesIn. induction m as [|[k0 fs] m IH]; cbn [pushToFolder find fst].
  - now destruct (streq k k').
  - destruct (streq k0 k) eqn:E0; cbn [find fst].
    + apply streq_eq in E0. subst k0. now destruct (streq k k').
    + destruct (streq k0 k') eqn:E1; [|exact IH].
      apply streq_eq in E1. subst k0.
      destruct (streq k k') eqn:E2; [|reflexivity].
      apply streq_eq in E2. subst k. rewrite streq_refl in E0. discriminate.
Qed.

Lemma fold_collect_filesIn (entries : list (jsstring * Loader)) (k : jsstring) :
  forall acc,
    filesIn (fst (fold_left (@collect R Loader) entries acc)) k
    = filesIn (fst acc) k ++ folderFiles entries k.
Proof.
  induction entries as [|e es IH]; intros acc; cbn [fold_left].
  - cbn. now rewrite app_nil_r.
  - rewrite IH, collect_classify. unfold folderFiles. cbn [flat_map].
    destruct (classify e) as [|d|k0 f]; cbn [fst app]; try reflexivity.
    rewrite filesIn_push. destruct (streq k0 k); [|reflexivity].
    now rewrite <- app_assoc.
Qed.

Lemma pushToFolder_keys (k : jsstring) (f : ShootFile Loader)
    (m : FolderMap Loader) :
  map fst (pushToFolder k f m)
  = if existsb (fun e => streq (fst e) k) m then map fst m
    else map fst m ++ [k].
Proof.
  induction m as [|[k0 fs] m IH]; cbn [pushToFolder existsb map fst app];
    [reflexivity|].
  destruct (streq k0 k); cbn [orb map fst]; [reflexivity|].
  rewrite IH. now destruct (existsb (fun e => streq (fst e) k) m).
Qed.

Lemma pushToFolder_NoDup (k : jsstring) (f : ShootFile Loader)
    (m : FolderMap Loader) :
  NoDup (map fst m) -> NoDup (map fst (pushToFolder k f m)).
Proof.
  intros H. rewrite pushToFolder_keys.
  destruct (existsb (fun e => streq (fst e) k) m) eqn:E; [exact H|].
  apply NoDup_app; [exact H | repeat constructor; intros [] |].
  intros x Hx [-> | []].
  apply in_map_iff in Hx as (e & He & Hin).
  assert (existsb (fun e => streq (fst e) x) m = true) as E'.
  { apply existsb_exists. exists e. split; [exact Hin|].
    rewrite He. apply streq_refl. }
  congruence.
Qed.

Lemma pushToFolder_dated (k : jsstring) (f : ShootFile Loader)
    (m : FolderMap Loader) :
  test SHOOT_FOLDER_RE k = true ->
  Forall (fun e => test SHOOT_FOLDER_RE (fst e) = true) m ->
  Forall (fun e => test SHOOT_FOLDER_RE (fst e) = true) (pushToFolder k f m).
Proof.
  intros Hk. induction m as [|[k0 fs] m IH]; intros Hd; cbn [pushToFolder].
  - repeat constructor. exact Hk.
  - inversion Hd; subst. destruct (streq k0 k); constructor; auto.
Qed.

(** The keys of the map are distinct, they are dated folder names, and
    each bucket holds the files of its folder in the order of the entries. *)
Lemma fold_collect_keys (entries : list (jsstring * Loader)) :
  forall acc,
    NoDup (map fst (fst acc)) ->
    Forall (fun e => test SHOOT_FOLDER_RE (fst e) = true) (fst acc) ->
    NoDup (map fst (fst (fold_left (@collect R Loader) entries acc)))
    /\ Forall (fun e => test SHOOT_FOLDER_RE (fst e) = true)
         (fst (fold_left (@collect R Loader) entries acc)).
Proof.
  induction entries as [|e es IH]; intros acc Hn Hd; cbn [fold_left];
    [now split|].
  apply IH; rewrite collect_classify.
  - destruct (classify e); cbn [fst]; auto using pushToFolder_NoDup.
  - destruct (classify e) as [|d|k f] eqn:E; cbn [fst]; auto.
    assert (test SHOOT_FOLDER_RE k = true) as Hk.
    { destruct e as [p l]. unfold classify in E.
      destruct (streq p HERO_PATH); [discriminate|].
      destruct (negb (startsWith PHOTO_ROOT_PREFIX p)); [discriminate|].
      destruct (split 47 (skipn (List.length PHOTO_ROOT_PREFIX) p))
        as [|folderName [|x more]]; try discriminate.
      destruct (streq (toLowerCase folderName) (lit "digitals"));
        [discriminate|].
      destruct (test SHOOT_FOLDER_RE folderName) eqn:T; [|discriminate].
      injection E as <- _. exact T. }
    now apply pushToFolder_dated.
Qed.

Lemma filesIn_In (m : FolderMap Loader) (k : jsstring)
    (files : list (ShootFile Loader)) :
  NoDup (map fst m) -> In (k, files) m -> filesIn m k = files.
Proof.
  unfold filesIn. induction m as [|[k0 fs] m IH]; intros Hn Hin; [destruct Hin|].
  cbn [find fst]. inversion Hn as [|? ? Hk Hn']; subst.
  destruct Hin as [E | Hin].
  - injection E as -> ->. now rewrite streq_refl.
  - destruct (streq k0 k) eqn:E; [|now apply IH].
    apply streq_eq in E. subst k0. exfalso. apply Hk.
    apply in_map_iff. now exists (k, files).
Qed.

(** Every entry of the grouped map is a dated folder with its files. *)
Lemma grouped_folder (photoLoaders : list (jsstring * Loader)) (k : jsstring)
    (files : list (ShootFile Loader)) :
  In (k, files) (fst (grouped photoLoaders)) ->
  test SHOOT_FOLDER_RE k = true /\ files = folderFiles photoLoaders k.
Proof.
  intros Hin. unfold grouped in *.
  destruct (fold_collect_keys photoLoaders ([], []))
    as [Hn Hd]; [constructor | constructor |].
  split.
  - rewrite Forall_forall in Hd. exact (Hd _ Hin).
  - rewrite <- (filesIn_In _ _ _ Hn Hin).
    now rewrite fold_collect_filesIn.
Qed.

Lemma classify_path (entry : jsstring * Loader) (k : jsstring) (f : ShootFile Loader) :
  classify entry = ToShoot k f -> path f = fst entry /\ loader f = snd entry.
Proof.
  destruct entry as [p l]. unfold classify.
  destruct (streq p HERO_PATH); [discriminate|].
  destruct (negb (startsWith PHOTO_ROOT_PREFIX p)); [discriminate|].
  destruct (split 47 (skipn (List.length PHOTO_ROOT_PREFIX) p))
    as [|folderName [|x more]]; try discriminate.
  destruct (streq (toLowerCase folderName) (lit "digitals")); [discriminate|].
  destruct (test SHOOT_FOLDER_RE folderName); [|discriminate].
  intros H. injection H as _ <-. split; reflexivity.
Qed.

Lemma folderFiles_path (photoLoaders : list (jsstring * Loader)) (k : jsstring)
    (f : ShootFile Loader) :
  In f (folderFiles photoLoaders k) -> In (path f) (map fst photoLoaders).
Proof.
  unfold folderFiles. intros H. apply in_flat_map in H as (e & He & Hf).
  destruct (classify e) as [|d|k0 f0] eqn:E; try destruct Hf.
  destruct (streq k0 k); [|destruct Hf]. destruct Hf as [<- | []].
  apply classify_path in E as [-> _]. now apply in_map.
Qed.

(** Object keys are distinct, so the files of a folder have distinct paths. *)
Lemma folderFiles_NoDup (photoLoaders : list (jsstring * Loader)) (k : jsstring) :
  NoDup (map fst photoLoaders) ->
  NoDup (map (@path Loader) (folderFiles photoLoaders k)).
Proof.
  induction photoLoaders as [|e es IH]; intros Hn; [constructor|].
  inversion Hn as [|? ? He Hn']; subst.
  change (folderFiles (e :: es) k)
    with ((match classify e with
           | ToShoot k0 file => if streq k0 k then [file] else []
           | _ => []
           end) ++ folderFiles es k).
  destruct (classify e) as [|d|k0 f] eqn:E; cbn [app]; auto.
  destruct (streq k0 k); cbn [app map]; auto.
  constructor; [|auto]. intros Hin.
  apply in_map_iff in Hin as (g & Hg & Hin).
  apply folderFiles_path in Hin. apply classify_path in E as [E _].
  apply He. now rewrite <- E, <- Hg.
Qed.

End Grouping.

(** ** The built shoots *)

Section Shoots.

Context {R : Runtime}.
Variable Loader : Type.

Lemma buildShoot_fields (k : jsstring) (files : list (ShootFile Loader))
    (p : Project Loader) :
  buildShoot (k, files) = Some p ->
  exists first others,
    sortedFilesOf files = first :: others
    /\ id p = k
    /\ routeSlug p
       = toRouteSlug (match exec SHOOT_FOLDER_RE k with
                      | Some m => group 4 m
                      | None => k
                      end)
    /\ image p = loader (coverOf first (first :: others))
    /\ gallery p
       = map (@loader Loader)
           (galleryFilesOf (coverOf first (first :: others)) (first :: others)).
Proof.
  unfold buildShoot.
  destruct (sortedFilesOf files) as [|first others]; [discriminate|].
  intros H. injection H as <-. exists first, others. repeat split.
Qed.

(** A project of [shoots] is built from a dated folder and its files. *)
Lemma shoots_built (photoLoaders : list (jsstring * Loader))
    (p : Project Loader) :
  In p (shoots photoLoaders) ->
  test SHOOT_FOLDER_RE (id p) = true
  /\ buildShoot (id p, folderFiles photoLoaders (id p)) = Some p.
Proof.
  unfold shoots, builtShoots, sortedFolders. intros H.
  apply dropNulls_In, in_map_iff in H as ([k files] & Hb & Hin).
  apply sort_In, grouped_folder in Hin as [Hk ->].
  destruct (buildShoot_fields _ _ _ Hb) as (_ & _ & _ & <- & _).
  split; [exact Hk | exact Hb].
Qed.

Lemma coverOf_position (first : ShootFile Loader)
    (others : list (ShootFile Loader)) :
  exists before after,
    first :: others = before ++ coverOf first (first :: others) :: after
    /\ (forall g, In g before -> test coverRegex (fileName g) = false)
    /\ (test coverRegex (fileName (coverOf first (first :: others))) = true
        \/ (before = []
            /\ forall g, In g (first :: others) ->
                 test coverRegex (fileName g) = false)).
Proof.
  unfold coverOf.
  destruct (find (fun file => test coverRegex (fileName file)) (first :: others))
    as [file|] eqn:E.
  - apply find_first in E as (before & after & E & Hc & Hb).
    exists before, after. repeat split; auto.
  - exists [], others. repeat split; [intros g []|].
    right. split; [reflexivity|]. now apply find_none.
Qed.

Lemma filter_keep (A : Type) (f : A -> bool) (l : list A) :
  (forall x, In x l -> f x = true) -> filter f l = l.
Proof.
  induction l as [|x t IH]; intros H; [reflexivity|].
  cbn [filter]. rewrite (H x) by now left.
  f_equal. apply IH. intros y Hy. apply H. now right.
Qed.

(** With distinct paths, the filter of the gallery removes the cover and
    nothing else. *)
Lemma galleryFilesOf_removes (cover : ShootFile Loader)
    (before after : list (ShootFile Loader)) :
  NoDup (map (@path Loader) (before ++ cover :: after)) ->
  galleryFilesOf cover (before ++ cover :: after) = before ++ after.
Proof.
  intros Hn. unfold galleryFilesOf. rewrite filter_app. cbn [filter].
  rewrite streq_refl. cbn [negb].
  rewrite map_app in Hn. cbn [map] in Hn.
  apply NoDup_remove in Hn as [Hn Hc]. rewrite in_app_iff in Hc.
  rewrite !filter_keep; [reflexivity| |];
    intros g Hg; apply negb_true_iff, streq_neq; intros E;
    apply Hc; [right | left]; rewrite <- E; now apply in_map.
Qed.

Lemma StronglySorted_after (A : Type) (le : A -> A -> Prop)
    (before after : list A) (x : A) :
  StronglySorted le (before ++ x :: after) ->
  forall y, In y after -> le x y.
Proof.
  induction before as [|b before IH]; cbn [app]; intros H.
  - inversion H as [|? ? _ Hx]; subst. now apply Forall_forall.
  - inversion H; subst. auto.
Qed.

Lemma StronglySorted_head (A : Type) (le : A -> A -> Prop)
    (x : A) (l : list A) :
  StronglySorted le (x :: l) -> forall y, In y l -> le x y.
Proof. apply (StronglySorted_after A le [] l x). Qed.

Lemma dropNulls_sorted (A B : Type) (f : A -> option B)
    (le : A -> A -> Prop) (le' : B -> B -> Prop) (l : list A) :
  (forall a b a' b', f a = Some a' -> f b = Some b' -> le a b -> le' a' b') ->
  StronglySorted le l -> StronglySorted le' (dropNulls (map f l)).
Proof.
  intros H. induction 1 as [|a l Hs IH Ha]; cbn [map dropNulls];
    [constructor|].
  destruct (f a) as [a'|] eqn:E; [|exact IH].
  constructor; [exact IH|].
  apply Forall_forall. intros b' Hb'.
  apply dropNulls_In, in_map_iff in Hb' as (b & Eb & Hb).
  rewrite Forall_forall in Ha. eauto.
Qed.

Context (L : RuntimeLaws R).

Lemma sortedFilesOf_sorted (files : list (ShootFile Loader)) :
  StronglySorted (notAfter (@compareFileNames R Loader)) (sortedFilesOf files).
Proof.
  apply (sort_sorted _ _ (fun _ => True)).
  - intros a b _ _. unfold compareFileNames. cbn [sortOrder]. intros H.
    pose proof (localeCompare_antisym (fileName a) (fileName b)) as Hs.
    destruct (Z.sgn_spec (localeCompareBase (fileName a) (fileName b)))
      as [[? E]|[[? E]|[? E]]];
      destruct (Z.sgn_spec (localeCompareBase (fileName b) (fileName a)))
        as [[? E']|[[? E']|[? E']]]; lia.
  - intros a b c _ _ _. unfold notAfter, compareFileNames. cbn [sortOrder].
    apply localeCompare_trans.
  - now apply Forall_forall.
Qed.

Lemma sortedDigitals_sorted (files : list (DigitalFile Loader)) :
  StronglySorted (notAfter (@compareDigitals R Loader))
    (sort (@compareDigitals R Loader) files).
Proof.
  apply (sort_sorted _ _ (fun _ => True)).
  - intros a b _ _. unfold compareDigitals. cbn [sortOrder]. intros H.
    pose proof (localeCompare_antisym (digitalFileName a) (digitalFileName b))
      as Hs.
    destruct (Z.sgn_spec (localeCompareBase (digitalFileName a) (digitalFileName b)))
      as [[? E]|[[? E]|[? E]]];
      destruct (Z.sgn_spec (localeCompareBase (digitalFileName b) (digitalFileName a)))
        as [[? E']|[[? E']|[? E']]]; lia.
  - intros a b c _ _ _. unfold notAfter, compareDigitals. cbn [sortOrder].
    apply localeCompare_trans.
  - now apply Forall_forall.
Qed.

(** The projects come in the order of the folder comparator. *)
Lemma shoots_sorted (photoLoaders : list (jsstring * Loader)) :
  StronglySorted (fun p q => notAfter compareFolders (id p) (id q))
    (shoots photoLoaders).
Proof.
  unfold shoots, builtShoots.
  apply (dropNulls_sorted _ _ _
           (fun a b => notAfter compareFolders (fst a) (fst b))).
  - intros [k fs] [k' fs'] p q Hp Hq.
    destruct (buildShoot_fields _ _ _ Hp) as (_ & _ & _ & -> & _).
    destruct (buildShoot_fields _ _ _ Hq) as (_ & _ & _ & -> & _).
    auto.
  - unfold sortedFolders.
    apply (sort_sorted _ (fun a b => compareFolders (fst a) (fst b))
             (fun e => test SHOOT_FOLDER_RE (fst e) = true)).
    + intros a b Ha Hb. now apply compareFolders_total.
    + intros a b c Ha Hb Hc. now apply compareFolders_trans.
    + unfold grouped.
      apply (fold_collect_keys Loader photoLoaders ([], [])); constructor.
Qed.

End Shoots.

(** ** Decoding never empties a segment *)

Section Decoding.

Lemma utf16_nonempty (cp : N) : utf16 cp <> [].
Proof. unfold utf16. destruct (N.ltb cp 65536); discriminate. Qed.

Lemma octetRead_plain (need : nat) (acc : list N) (b : N) (out : jsstring) :
  octetRead need acc b = Some (out, DPlain) -> out <> [].
Proof.
  unfold octetRead. destruct acc as [|a acc].
  - destruct (leadingOnes b) as [|[|[|[|[|n]]]]]; intros H;
      try discriminate; injection H as <-; discriminate.
  - destruct need as [|[|n]]; try discriminate.
    destruct (decodeUtf8 ((a :: acc) ++ [b])); [|discriminate].
    intros H. injection H as <-. apply utf16_nonempty.
Qed.

Lemma decodeFrom_nonempty (s : jsstring) :
  forall st out,
    decodeFrom st s = Some out ->
    (st <> DPlain \/ s <> []) -> out <> [].
Proof.
  induction s as [|c t IH]; intros st out H Hst.
  - destruct st; [destruct Hst; congruence | discriminate..].
  - cbn [decodeFrom] in H. destruct st as [|need acc|need acc|need acc h].
    + destruct (N.eqb c 37).
      * apply (IH _ _ H). left. discriminate.
      * destruct (decodeFrom DPlain t); [|discriminate].
        injection H as <-. discriminate.
    + destruct (N.eqb c 37); [|discriminate].
      apply (IH _ _ H). left. discriminate.
    + destruct (hexVal c); [|discriminate].
      apply (IH _ _ H). left. discriminate.
    + destruct (hexVal c) as [l|]; [|discriminate].
      destruct (octetRead need acc (16 * h + l)) as [[o st']|] eqn:E;
        [|discriminate].
      destruct (decodeFrom st' t) as [out'|] eqn:E'; [|discriminate].
      injection H as <-.
      destruct st'; try (intros Hn; apply app_eq_nil in Hn as [_ Hn];
                         revert Hn; apply (IH _ _ E'); left; discriminate).
      intros Hn. apply app_eq_nil in Hn as [Hn _].
      revert Hn. now apply (octetRead_plain _ _ _ _ E).
Qed.

Lemma decodeURIComponent_nonempty (s out : jsstring) :
  decodeURIComponent s = Some out -> s <> [] -> out <> [].
Proof.
  intros H Hs. apply (decodeFrom_nonempty s DPlain out H). now right.
Qed.

Lemma distinct_NoDup (l : list jsstring) : distinct l = true -> NoDup l.
Proof.
  induction l as [|x t IH]; [constructor|].
  cbn [distinct]. intros H. apply andb_true_iff in H as [Hx Ht].
  constructor; [|auto]. intros Hin.
  apply negb_true_iff in Hx.
  assert (existsb (streq x) t = true) as E
    by (apply existsb_exists; exists x; split; [exact Hin | apply streq_refl]).
  congruence.
Qed.

End Decoding.

(** ** Covers, galleries and digitals *)

Section Galleries.

Context {R : Runtime} (L : RuntimeLaws R).
Variable Loader : Type.

Lemma sortedFilesOf_In (files : list (ShootFile Loader))
    (f : ShootFile Loader) :
  In f (sortedFilesOf files) <-> In f files.
Proof. apply sort_In. Qed.

(** C1: for every project built from an object of loaders (whose keys
    are distinct), the files of its folder sorted by file name split as
    [before ++ coverFile :: after]; the project shows the loader of
    [coverFile] as its image and the loaders of [before ++ after], in that
    order, as its gallery; so the cover together with the gallery is a
    rearrangement of the files of the folder, each taken once. *)
Theorem gallery_partition (photoLoaders : list (jsstring * Loader))
    (p : Project Loader) :
  NoDup (map fst photoLoaders) ->
  In p (shoots photoLoaders) ->
  let files := folderFiles photoLoaders (id p) in
  exists coverFile before after,
    sortedFilesOf files = before ++ coverFile :: after
    /\ StronglySorted (notAfter (@compareFileNames R Loader))
         (sortedFilesOf files)
    /\ Permutation (sortedFilesOf files) files
    /\ image p = loader coverFile
    /\ gallery p = map (@loader Loader) (before ++ after)
    /\ Permutation (coverFile :: before ++ after) files.
Proof.
  intros Hn Hp files.
  destruct (shoots_built Loader photoLoaders p Hp) as [_ Hb].
  destruct (buildShoot_fields Loader _ _ _ Hb)
    as (first & others & Hs & _ & _ & Hi & Hg).
  fold files in Hs.
  destruct (coverOf_position Loader first others)
    as (before & after & E & _ & _).
  set (coverFile := coverOf first (first :: others)) in *.
  assert (Permutation (sortedFilesOf files) files) as Hperm
    by apply sort_perm.
  exists coverFile, before, after. rewrite Hs.
  split; [exact E|]. split; [rewrite <- Hs; apply sortedFilesOf_sorted; exact L|].
  split; [rewrite <- Hs; exact Hperm|]. split; [exact Hi|]. split.
  - rewrite Hg, E. f_equal. apply galleryFilesOf_removes.
    rewrite <- E, <- Hs.
    apply (Permutation_NoDup (l := map (@path Loader) files)).
    + symmetry. now apply Permutation_map.
    + now apply folderFiles_NoDup.
  - rewrite <- Hperm, Hs, E. apply Permutation_middle.
Qed.

(** C2: the image of every project is the loader of a file of its folder
    that is named [cover.jpg], [cover.jpeg] or [cover.png] up to case
    whenever the folder has such a file, namely the first of them in the
    order of the sorted file names; when the folder has none, it is the
    first file in that order, which no file of the folder precedes. *)
Theorem cover_selection (photoLoaders : list (jsstring * Loader))
    (p : Project Loader) :
  In p (shoots photoLoaders) ->
  let files := folderFiles photoLoaders (id p) in
  exists coverFile before after,
    image p = loader coverFile
    /\ sortedFilesOf files = before ++ coverFile :: after
    /\ (forall g, In g before -> isCoverName (fileName g) = false)
    /\ ((exists f, In f files /\ isCoverName (fileName f) = true) ->
        isCoverName (fileName coverFile) = true)
    /\ ((forall f, In f files -> isCoverName (fileName f) = false) ->
        before = []
        /\ forall g, In g files ->
             notAfter (@compareFileNames R Loader) coverFile g).
Proof.
  intros Hp files.
  destruct (shoots_built Loader photoLoaders p Hp) as [_ Hb].
  destruct (buildShoot_fields Loader _ _ _ Hb)
    as (first & others & Hs & _ & _ & Hi & _).
  fold files in Hs.
  destruct (coverOf_position Loader first others)
    as (before & after & E & Hbefore & Hcover).
  set (coverFile := coverOf first (first :: others)) in *.
  exists coverFile, before, after.
  split; [exact Hi|]. split; [now rewrite Hs|].
  split; [intros g Hg; rewrite <- test_coverRegex; auto|]. split.
  - intros (f & Hf & Hc). rewrite <- test_coverRegex in *.
    destruct Hcover as [Hcover | [_ Hnone]]; [exact Hcover|].
    apply sortedFilesOf_In in Hf.
    rewrite Hs in Hf. rewrite (Hnone f Hf) in Hc. discriminate.
  - intros Hnone.
    assert (before = []) as ->.
    { destruct Hcover as [Hcover | [Hnil _]]; [|exact Hnil].
      rewrite test_coverRegex, Hnone in Hcover; [discriminate|].
      apply sortedFilesOf_In.
      rewrite Hs, E. apply in_elt. }
    split; [reflexivity|]. intros g Hg.
    apply sortedFilesOf_In in Hg.
    pose proof (sortedFilesOf_sorted Loader L files) as Hsorted.
    rewrite Hs, E in Hg, Hsorted. cbn [app] in Hg, Hsorted.
    destruct Hg as [<- | Hg].
    + unfold notAfter, compareFileNames. cbn [sortOrder].
      rewrite (localeCompare_refl L). lia.
    + exact (StronglySorted_head _ _ _ _ Hsorted g Hg).
Qed.

(** C9: the digitals shown are the loaders of the first three files of
    the digitals bucket in the order of the sorted file names; their number
    is the smaller of 3 and the size of the bucket. *)
Theorem digitalImages_sorted_truncated
    (photoLoaders : list (jsstring * Loader)) :
  let bucket := digitalFiles photoLoaders in
  let sorted := sort (@compareDigitals R Loader) bucket in
  digitalImages photoLoaders = firstn 3 (map (@digitalLoader Loader) sorted)
  /\ Permutation sorted bucket
  /\ StronglySorted (notAfter (@compareDigitals R Loader)) sorted
  /\ List.length (digitalImages photoLoaders)
     = Nat.min 3 (List.length bucket).
Proof.
  intros bucket sorted.
  assert (digitalImages photoLoaders
          = firstn 3 (map (@digitalLoader Loader) sorted)) as E.
  { unfold digitalImages, sortedDigitals, grouped.
    now rewrite fold_collect_digitals. }
  split; [exact E|]. split; [apply sort_perm|].
  split; [apply sortedDigitals_sorted; exact L|].
  rewrite E, length_firstn, length_map. unfold sorted.
  now rewrite sort_length.
Qed.

End Galleries.

(** ** Slugs of projects and the routed selection *)

Section Routing.

Context {R : Runtime} (L : RuntimeLaws R).
Variable Loader : Type.

Lemma shoots_routeSlug (photoLoaders : list (jsstring * Loader))
    (p : Project Loader) :
  In p (shoots photoLoaders) ->
  exists year month day text,
    parseShootFolder (id p) = Some (year, month, day, text)
    /\ routeSlug p = toRouteSlug text.
Proof.
  intros Hp.
  destruct (shoots_built Loader photoLoaders p Hp) as [Hk Hb].
  destruct (buildShoot_fields Loader _ _ _ Hb) as (_ & _ & _ & _ & Hr & _).
  apply test_SHOOT_FOLDER_RE in Hk.
  rewrite exec_SHOOT_FOLDER_RE in Hr.
  destruct (parseShootFolder (id p)) as [[[[y m] d] x]|]; [|congruence].
  exists y, m, d, x. split; [reflexivity | exact Hr].
Qed.

(** C8: the folder name of every project reads
    [YYYY-MM-DD-<text>], and its route slug is the text lower-cased, with
    [" and "] for each ampersand, one hyphen for each maximal run of
    code units that are not alphanumeric, and no hyphen at either end. *)
Theorem routeSlug_of_folder (photoLoaders : list (jsstring * Loader))
    (p : Project Loader) :
  In p (shoots photoLoaders) ->
  exists year month day text,
    id p = year ++ lit "-" ++ month ++ lit "-" ++ day ++ lit "-" ++ text
    /\ List.length year = 4 /\ List.length month = 2 /\ List.length day = 2
    /\ forallb isDigit (year ++ month ++ day) = true
    /\ routeSlug p = slugOfText text.
Proof.
  intros Hp.
  destruct (shoots_routeSlug photoLoaders p Hp) as (y & m & d & x & Hk & Hr).
  apply parseShootFolder_parts in Hk
    as (Hid & [Ly Dy] & [Lm Dm] & [Ld Dd] & _).
  exists y, m, d, x. repeat split; auto.
  - now rewrite !forallb_app, Dy, Dm, Dd.
  - rewrite Hr. now apply toRouteSlug_slugOfText.
Qed.

(** C5, as amended: for every project whose route slug is not empty,
    the path built for the slug is parsed back to the slug. *)
Theorem project_path_roundtrip (photoLoaders : list (jsstring * Loader))
    (p : Project Loader) :
  In p (shoots photoLoaders) ->
  routeSlug p <> [] ->
  exists pathname,
    getProjectPath (routeSlug p) = Some pathname
    /\ getProjectSlugFromPathname pathname = Some (routeSlug p).
Proof.
  intros Hp Hne.
  destruct (shoots_routeSlug photoLoaders p Hp) as (y & m & d & x & _ & Hr).
  exists (PROJECT_PATH_PREFIX ++ routeSlug p).
  apply (slug_roundtrip L); [exact Hne|].
  rewrite Hr. apply toRouteSlug_units.
Qed.

(** A slug read off a path is never the empty string. *)
Lemma getProjectSlugFromPathname_nonempty (pathname slug : jsstring) :
  getProjectSlugFromPathname pathname = Some slug -> slug <> [].
Proof.
  rewrite getProjectSlugFromPathname_segment.
  destruct (routeSegment pathname) as [seg|] eqn:E; [|discriminate].
  apply routeSegment_shape in E as (Hne & _).
  intros H. injection H as <-. intros Hl.
  apply toLowerCase_nonempty in Hl.
  destruct (decodeURIComponent seg) as [decoded|] eqn:Ed; [|congruence].
  now apply (decodeURIComponent_nonempty seg decoded Ed).
Qed.

Lemma selectedProject_find (allShoots : list (Project Loader))
    (pathname slug : jsstring) :
  getProjectSlugFromPathname pathname = Some slug ->
  selectedProject allShoots pathname
  = find (fun item => streq (routeSlug item) slug) allShoots.
Proof.
  intros H. unfold selectedProject. rewrite H.
  apply getProjectSlugFromPathname_nonempty in H.
  destruct slug; [congruence | reflexivity].
Qed.

Lemma selectedProject_slug (allShoots : list (Project Loader))
    (pathname : jsstring) (p : Project Loader) :
  selectedProject allShoots pathname = Some p ->
  getProjectSlugFromPathname pathname = Some (routeSlug p)
  /\ exists before after,
       allShoots = before ++ p :: after
       /\ forall r, In r before -> routeSlug r <> routeSlug p.
Proof.
  intros H.
  destruct (getProjectSlugFromPathname pathname) as [slug|] eqn:E;
    [|unfold selectedProject in H; rewrite E in H; discriminate].
  rewrite (selectedProject_find allShoots pathname slug E) in H.
  apply find_first in H as (before & after & -> & Hp & Hb).
  apply streq_eq in Hp. subst slug. split; [reflexivity|].
  exists before, after. split; [reflexivity|].
  intros r Hr. apply streq_neq. auto.
Qed.

End Routing.

(** ** The theorems on the sample library *)

Section Samples.

Lemma samplePhotos_distinct : NoDup (map fst samplePhotos).
Proof. apply distinct_NoDup. reflexivity. Qed.

Lemma sampleEditorial_built :
  In sampleEditorial (@shoots asciiRuntime nat samplePhotos).
Proof. vm_compute. left. reflexivity. Qed.


End Samples.

Lemma gallery_partition_witness :
  NoDup (map fst samplePhotos)
  /\ In sampleEditorial (@shoots asciiRuntime nat samplePhotos)
  /\ Permutation
       (image sampleEditorial :: gallery sampleEditorial)
       (map (@loader nat)
          (@folderFiles asciiRuntime nat samplePhotos (id sampleEditorial))).
Proof.
  split; [exact samplePhotos_distinct|].
  split; [exact sampleEditorial_built|].
  destruct (@gallery_partition asciiRuntime asciiRuntime_laws nat
              samplePhotos sampleEditorial
              samplePhotos_distinct sampleEditorial_built)
    as (coverFile & before & after & _ & _ & _ & Hi & Hg & Hperm).
  rewrite Hi, Hg.
  change (loader coverFile :: map (@loader nat) (before ++ after))
    with (map (@loader nat) (coverFile :: before ++ after)).
  apply Permutation_map. exact Hperm.
Defined.

Lemma cover_selection_witness :
  In sampleEditorial (@shoots asciiRuntime nat samplePhotos)
  /\ exists coverFile,
       image sampleEditorial = loader coverFile
       /\ isCoverName (fileName coverFile) = true.
Proof.
  split; [exact sampleEditorial_built|].
  destruct (@cover_selection asciiRuntime asciiRuntime_laws nat
              samplePhotos sampleEditorial sampleEditorial_built)
    as (coverFile & before & after & Hi & _ & _ & Hcover & _).
  exists coverFile. split; [exact Hi|]. apply Hcover.
  exists {| path := lit "./assets/photos/2026-08-01-editorial/Cover.PNG";
            fileName := lit "Cover.PNG"; loader := 3 |}.
  split; [vm_compute; right; left; reflexivity | reflexivity].
Defined.

Lemma digitalImages_sorted_truncated_witness :
  @digitalImages asciiRuntime nat samplePhotos = [6; 5]
  /\ List.length (@digitalImages asciiRuntime nat samplePhotos)
     = Nat.min 3 (List.length (@digitalFiles asciiRuntime nat samplePhotos)).
Proof.
  split; [reflexivity|].
  exact (proj2 (proj2 (proj2
           (@digitalImages_sorted_truncated asciiRuntime asciiRuntime_laws
              nat samplePhotos)))).
Defined.

Lemma routeSlug_of_folder_witness :
  In sampleEditorial (@shoots asciiRuntime nat samplePhotos)
  /\ exists year month day text,
       id sampleEditorial
       = year ++ lit "-" ++ month ++ lit "-" ++ day ++ lit "-" ++ text
       /\ List.length year = 4 /\ List.length month = 2
       /\ List.length day = 2
       /\ forallb isDigit (year ++ month ++ day) = true
       /\ routeSlug sampleEditorial = @slugOfText asciiRuntime text.
Proof.
  split; [exact sampleEditorial_built|].
  exact (@routeSlug_of_folder asciiRuntime asciiRuntime_laws nat
           samplePhotos sampleEditorial sampleEditorial_built).
Defined.

Lemma project_path_roundtrip_witness :
  In sampleEditorial (@shoots asciiRuntime nat samplePhotos)
  /\ routeSlug sampleEditorial <> []
  /\ exists pathname,
       getProjectPath (routeSlug sampleEditorial) = Some pathname
       /\ @getProjectSlugFromPathname asciiRuntime pathname
          = Some (routeSlug sampleEditorial).
Proof.
  split; [exact sampleEditorial_built|].
  assert (routeSlug sampleEditorial <> []) as Hne by discriminate.
  split; [exact Hne|].
  exact (@project_path_roundtrip asciiRuntime asciiRuntime_laws nat
           samplePhotos sampleEditorial sampleEditorial_built Hne).
Defined.

(** C5 as stated fails: a folder whose text has no letter or digit
    yields a project with the empty route slug; the path built for it is
    [/portfolio/], which is not parsed back to any slug. *)
Lemma project_path_roundtrip_fails_on_empty_slug :
  exists p : Project nat,
    In p (@shoots asciiRuntime nat
            [(lit "./assets/photos/2026-01-01-!!!/a.jpg", 1)])
    /\ routeSlug p = []
    /\ getProjectPath (routeSlug p) = Some (lit "/portfolio/")
    /\ @getProjectSlugFromPathname asciiRuntime (lit "/portfolio/") = None.
Proof.
  exists {| id := lit "2026-01-01-!!!"; routeSlug := [];
            image := 1; backgroundImage := 1; gallery := [] |}.
  split; [vm_compute; left; reflexivity|].
  split; [reflexivity|]. split; reflexivity.
Qed.

(** ** Further properties of the built projects *)

Section Projects.

Context {R : Runtime}.
Variable Loader : Type.

Lemma builtShoots_ids (l : FolderMap Loader) :
  NoDup (map fst l) ->
  NoDup (map (@id Loader) (dropNulls (map (@buildShoot R Loader) l))).
Proof.
  induction l as [|[k fs] l IH]; intros Hn; [constructor|].
  inversion Hn as [|? ? Hk Hn']; subst.
  cbn [map dropNulls]. destruct (buildShoot (k, fs)) as [p|] eqn:E; [|auto].
  destruct (buildShoot_fields Loader _ _ _ E) as (_ & _ & _ & Hid & _).
  cbn [map]. constructor; [|auto]. rewrite Hid. intros Hin.
  apply in_map_iff in Hin as (q & Hq & Hin).
  apply dropNulls_In, in_map_iff in Hin as ([k' fs'] & E' & Hin).
  destruct (buildShoot_fields Loader _ _ _ E') as (_ & _ & _ & Hid' & _).
  apply Hk. apply in_map_iff. exists (k', fs'). split; [|exact Hin].
  cbn [fst]. congruence.
Qed.

(** X1.  The [id] of a project is the name of a dated folder that holds
    at least one file, and no two projects share an [id]. *)
Theorem shoots_ids_distinct (photoLoaders : list (jsstring * Loader)) :
  NoDup (map (@id Loader) (shoots photoLoaders))
  /\ forall p, In p (shoots photoLoaders) ->
       test SHOOT_FOLDER_RE (id p) = true
       /\ folderFiles photoLoaders (id p) <> [].
Proof.
  split.
  - unfold shoots, builtShoots, sortedFolders. apply builtShoots_ids.
    apply (Permutation_NoDup (l := map fst (fst (grouped photoLoaders)))).
    + symmetry. apply Permutation_map, sort_perm.
    + unfold grouped.
      apply (fold_collect_keys Loader photoLoaders ([], [])); constructor.
  - intros p Hp. destruct (shoots_built Loader photoLoaders p Hp) as [Hk Hb].
    split; [exact Hk|]. intros Hnil. rewrite Hnil in Hb. discriminate Hb.
Qed.

(** The background image is the first loader of the gallery, and the
    loader of the cover when the gallery is empty. *)
Theorem backgroundImage_first_of_gallery
    (photoLoaders : list (jsstring * Loader)) (p : Project Loader) :
  In p (shoots photoLoaders) ->
  backgroundImage p = hd (image p) (gallery p).
Proof.
  intros Hp. destruct (shoots_built Loader photoLoaders p Hp) as [_ Hb].
  unfold buildShoot in Hb.
  destruct (sortedFilesOf (folderFiles photoLoaders (id p)))
    as [|first others]; [discriminate|].
  injection Hb as <-. cbn [backgroundImage gallery image].
  now destruct (map (@loader Loader)
                  (galleryFilesOf (coverOf first (first :: others))
                     (first :: others))).
Qed.

(** X2.  A route slug is made of [a-z], [0-9] and hyphens only, and a
    hyphen stands neither at its start nor at its end. *)
Theorem routeSlug_url_safe (photoLoaders : list (jsstring * Loader))
    (p : Project Loader) :
  In p (shoots photoLoaders) ->
  forallb isSlugUnit (routeSlug p) = true
  /\ startsWith (lit "-") (routeSlug p) = false
  /\ lastIs isHyphen (routeSlug p) = false.
Proof.
  intros Hp. destruct (shoots_built Loader photoLoaders p Hp) as [_ Hb].
  destruct (buildShoot_fields Loader _ _ _ Hb) as (_ & _ & _ & _ & -> & _).
  split; [apply toRouteSlug_units|].
  rewrite toRouteSlug_passes.
  match goal with
  | |- context [dropRun isHyphen ?x] => generalize x
  end.
  intros s. split; [|apply lastIs_dropTrailing].
  destruct (dropTrailing_prefix isHyphen (dropRun isHyphen s)) as [u Hu].
  destruct (dropTrailing isHyphen (dropRun isHyphen s)) as [|c t];
    [reflexivity|].
  cbn [app] in Hu. apply dropRun_head in Hu.
  cbn [startsWith lit map list_ascii_of_string].
  change (N.eqb (N_of_ascii "-") c) with (isHyphen c).
  now rewrite Hu.
Qed.

End Projects.

Lemma backgroundImage_first_of_gallery_witness :
  In sampleEditorial (@shoots asciiRuntime nat samplePhotos)
  /\ backgroundImage sampleEditorial
     = hd (image sampleEditorial) (gallery sampleEditorial).
Proof.
  split; [exact sampleEditorial_built|].
  exact (@backgroundImage_first_of_gallery asciiRuntime nat samplePhotos
           sampleEditorial sampleEditorial_built).
Defined.

Lemma routeSlug_url_safe_witness :
  In sampleEditorial (@shoots asciiRuntime nat samplePhotos)
  /\ forallb isSlugUnit (routeSlug sampleEditorial) = true
  /\ startsWith (lit "-") (routeSlug sampleEditorial) = false
  /\ lastIs isHyphen (routeSlug sampleEditorial) = false.
Proof.
  split; [exact sampleEditorial_built|].
  exact (@routeSlug_url_safe asciiRuntime nat samplePhotos
           sampleEditorial sampleEditorial_built).
Defined.

(** ** The examples of the specification *)

(** Of the folders [2026-07-15-lifestyle-shoot] and
    [2026-08-01-editorial] the later one comes first. *)
Example later_folder_first :
  map (@id nat)
    (@shoots asciiRuntime nat
       [ (lit "./assets/photos/2026-07-15-lifestyle-shoot/b.jpg", 1);
         (lit "./assets/photos/2026-08-01-editorial/z.jpg", 2);
         (lit "./assets/photos/2026-08-01-editorial/a.jpg", 3) ])
  = [lit "2026-08-01-editorial"; lit "2026-07-15-lifestyle-shoot"]
  /\ map (@image nat)
       (@shoots asciiRuntime nat
          [ (lit "./assets/photos/2026-07-15-lifestyle-shoot/b.jpg", 1);
            (lit "./assets/photos/2026-08-01-editorial/z.jpg", 2);
            (lit "./assets/photos/2026-08-01-editorial/a.jpg", 3) ])
     = [3; 1].
Proof. split; reflexivity. Qed.

(** The folder [2026-01-01-high-fashion] has the route slug
    [high-fashion], and [Beauty & Portraits] is routed as
    [beauty-and-portraits]. *)
Example route_slugs :
  @toRouteSlug asciiRuntime (lit "high-fashion") = lit "high-fashion"
  /\ @toRouteSlug asciiRuntime (lit "Beauty & Portraits")
     = lit "beauty-and-portraits".
Proof. split; reflexivity. Qed.

(** The path [/portfolio/High-Fashion/] selects the slug [high-fashion],
    with or without normalization. *)
Example routed_slug :
  normalizePathname (lit "/portfolio/High-Fashion/")
  = lit "/portfolio/High-Fashion"
  /\ @getProjectSlugFromPathname asciiRuntime
       (normalizePathname (lit "/portfolio/High-Fashion/"))
     = Some (lit "high-fashion").
Proof. split; reflexivity. Qed.

(** The date value follows [Date.UTC]: a year field from 0000 to 0099
    counts from 1900, and a day past the end of the month carries over. *)
Example date_values :
  getFolderDateValue (lit "2026-07-15-lifestyle-shoot") = Fin 1784073600000
  /\ getFolderDateValue (lit "0099-12-31-x")
     = getFolderDateValue (lit "1999-12-31-x")
  /\ getFolderDateValue (lit "2026-01-32-x")
     = getFolderDateValue (lit "2026-02-01-x")
  /\ getFolderDateValue (lit "2026-7-15-x") = NegInf.
Proof. repeat split; reflexivity. Qed.

(** ** Every file of a dated folder is shown once *)

Section Conservation.

Context {R : Runtime}.
Variable Loader : Type.

Lemma bucket_images (k : jsstring) (files : list (ShootFile Loader))
    (p : Project Loader) :
  NoDup (map (@path Loader) files) ->
  buildShoot (k, files) = Some p ->
  Permutation (image p :: gallery p) (map (@loader Loader) files).
Proof.
  intros Hn Hb.
  destruct (buildShoot_fields Loader _ _ _ Hb)
    as (first & others & Es & _ & _ & -> & ->).
  destruct (coverOf_position Loader first others)
    as (before & after & Hl & _).
  assert (Permutation (first :: others) files) as Hperm.
  { rewrite <- Es. apply sort_perm. }
  assert (NoDup (map (@path Loader) (first :: others))) as Hn'.
  { apply (Permutation_NoDup (l := map (@path Loader) files)); [|exact Hn].
    symmetry. apply Permutation_map, Hperm. }
  set (cover := coverOf first (first :: others)) in *.
  rewrite Hl in Hn' |- *. rewrite galleryFilesOf_removes by exact Hn'.
  rewrite <- Hperm, Hl.
  change (loader cover :: map (@loader Loader) (before ++ after))
    with (map (@loader Loader) (cover :: before ++ after)).
  apply Permutation_map, Permutation_middle.
Qed.

Lemma bucket_empty (k : jsstring) (files : list (ShootFile Loader)) :
  buildShoot (k, files) = None -> files = [].
Proof.
  unfold buildShoot. destruct (sortedFilesOf files) eqn:E; [|discriminate].
  intros _. apply Permutation_nil. rewrite <- E. exact (sort_perm _ _ files).
Qed.

Lemma built_images (l : FolderMap Loader) :
  (forall k fs, In (k, fs) l -> NoDup (map (@path Loader) fs)) ->
  Permutation
    (flat_map (fun p => image p :: gallery p)
       (dropNulls (map (@buildShoot R Loader) l)))
    (map (@loader Loader) (flat_map snd l)).
Proof.
  induction l as [|[k fs] l IH]; intros Hn; [constructor|].
  cbn [map dropNulls flat_map snd]. rewrite map_app.
  assert (Permutation
            (flat_map (fun p => image p :: gallery p)
               (dropNulls (map (@buildShoot R Loader) l)))
            (map (@loader Loader) (flat_map snd l))) as IH'.
  { apply IH. intros k' fs' H. apply (Hn k' fs'). now right. }
  destruct (buildShoot (k, fs)) as [p|] eqn:E.
  - cbn [flat_map].
    change (image p :: gallery p ++ ?x) with ((image p :: gallery p) ++ x).
    apply Permutation_app; [|exact IH'].
    apply (bucket_images k); [apply (Hn k fs); now left|exact E].
  - rewrite (bucket_empty _ _ E). exact IH'.
Qed.

Lemma pushToFolder_files (k : jsstring) (f : ShootFile Loader)
    (m : FolderMap Loader) :
  Permutation (flat_map snd (pushToFolder k f m)) (flat_map snd m ++ [f]).
Proof.
  induction m as [|[k0 fs] m IH]; cbn [pushToFolder flat_map snd app];
    [reflexivity|].
  destruct (streq k0 k); cbn [flat_map snd].
  - rewrite <- !app_assoc. apply Permutation_app_head, Permutation_app_comm.
  - rewrite <- app_assoc. apply Permutation_app_head, IH.
Qed.

Lemma fold_collect_files (entries : list (jsstring * Loader)) :
  forall acc,
    Permutation
      (flat_map snd (fst (fold_left (@collect R Loader) entries acc)))
      (flat_map snd (fst acc) ++ shootFiles entries).
Proof.
  induction entries as [|e es IH]; intros acc; cbn [fold_left].
  - cbn. now rewrite app_nil_r.
  - rewrite IH, collect_classify. unfold shootFiles. cbn [flat_map].
    destruct (classify e) as [|d|k f]; cbn [fst app]; try reflexivity.
    rewrite pushToFolder_files, <- app_assoc. reflexivity.
Qed.

(** X3.  When no path occurs twice, the covers and galleries of all
    projects together hold the loader of every file of a dated folder
    exactly once: no such file is lost, none is shown twice, and nothing
    else is shown. In particular a project shows as many images as its
    folder has files. *)
Theorem every_file_shown_once (photoLoaders : list (jsstring * Loader)) :
  NoDup (map fst photoLoaders) ->
  Permutation
    (flat_map (fun p => image p :: gallery p) (shoots photoLoaders))
    (map (@loader Loader) (shootFiles photoLoaders))
  /\ forall p, In p (shoots photoLoaders) ->
       S (List.length (gallery p))
       = List.length (folderFiles photoLoaders (id p)).
Proof.
  intros Hn. split.
  - unfold shoots, builtShoots, sortedFolders.
    rewrite built_images.
    + apply Permutation_map.
      rewrite (Permutation_flat_map snd (sort_perm _ _ (fst (grouped photoLoaders)))).
      unfold grouped. rewrite fold_collect_files. reflexivity.
    + intros k fs Hin.
      apply (Permutation_in _ (sort_perm _ _ _)) in Hin.
      apply grouped_folder in Hin as [_ ->].
      apply folderFiles_NoDup, Hn.
  - intros p Hp. destruct (shoots_built Loader photoLoaders p Hp) as [_ Hb].
    pose proof (bucket_images _ _ _ (folderFiles_NoDup Loader photoLoaders (id p) Hn) Hb)
      as Hperm.
    apply Permutation_length in Hperm. rewrite length_map in Hperm.
    exact Hperm.
Qed.

End Conservation.

Lemma every_file_shown_once_witness :
  NoDup (map fst samplePhotos)
  /\ Permutation
       (flat_map (fun p => image p :: gallery p)
          (@shoots asciiRuntime nat samplePhotos))
       (map (@loader nat) (@shootFiles asciiRuntime nat samplePhotos))
  /\ forall p, In p (@shoots asciiRuntime nat samplePhotos) ->
       S (List.length (gallery p))
       = List.length (@folderFiles asciiRuntime nat samplePhotos (id p)).
Proof.
  split; [exact samplePhotos_distinct|].
  exact (@every_file_shown_once asciiRuntime nat samplePhotos
           samplePhotos_distinct).
Defined.

(** ** Which file goes to which folder *)

Section Classification.

Context {R : Runtime}.
Variable Loader : Type.

Lemma split_head (sep : N) (k rest : jsstring) :
  forallb (fun c => negb (N.eqb c sep)) k = true ->
  split sep (k ++ sep :: rest) = k :: split sep rest.
Proof.
  induction k as [|c k IH]; intros H.
  - cbn [app split]. now rewrite N.eqb_refl.
  - cbn [forallb] in H. apply andb_true_iff in H as [Hc Hk].
    apply negb_true_iff in Hc. cbn [app split]. rewrite Hc, (IH Hk).
    reflexivity.
Qed.

Lemma split_parts (sep : N) (s : jsstring) :
  forall h x more,
    split sep s = h :: x :: more ->
    exists rest,
      s = h ++ sep :: rest
      /\ split sep rest = x :: more
      /\ forallb (fun c => negb (N.eqb c sep)) h = true.
Proof.
  induction s as [|c t IH]; intros h x more H; [discriminate|].
  cbn [split] in H. destruct (N.eqb_spec c sep) as [->|Hne].
  - injection H as <- H. exists t. repeat split. exact H.
  - destruct (split sep t) as [|h' r] eqn:E; [discriminate|].
    injection H as <- ->.
    destruct (IH h' x more eq_refl) as (rest & -> & Hr & Hh).
    exists rest. split; [reflexivity|]. split; [exact Hr|].
    cbn [forallb]. rewrite Hh, andb_true_r.
    now apply negb_true_iff, N.eqb_neq.
Qed.

Lemma last_split (sep : N) (s : jsstring) :
  forallb (fun c => negb (N.eqb c sep)) (last (split sep s) []) = true.
Proof.
  induction s as [|c t IH]; [reflexivity|].
  cbn [split]. destruct (N.eqb_spec c sep) as [->|Hne].
  - destruct (split sep t) as [|h r] eqn:E; [reflexivity|exact IH].
  - destruct (split sep t) as [|h [|x r]] eqn:E; [| |exact IH].
    + cbn [last forallb]. rewrite andb_true_r.
      now apply negb_true_iff, N.eqb_neq.
    + cbn [last forallb] in *. rewrite IH, andb_true_r.
      now apply negb_true_iff, N.eqb_neq.
Qed.

Lemma path_not_hero (k rest : jsstring) :
  PHOTO_ROOT_PREFIX ++ k ++ lit "/" ++ rest <> HERO_PATH.
Proof.
  intros E.
  change HERO_PATH with (PHOTO_ROOT_PREFIX ++ lit "A.Wachtendonk-17.JPG") in E.
  apply app_inv_head in E.
  assert (In 47%N (k ++ lit "/" ++ rest)) as Hin
    by (apply in_or_app; right; left; reflexivity).
  rewrite E in Hin. cbn in Hin.
  repeat (destruct Hin as [Hin|Hin]; [discriminate Hin|]). destruct Hin.
Qed.

Lemma split_rest (rest : jsstring) :
  exists x more,
    split 47 rest = x :: more
    /\ last (split 47 rest) [] = last (x :: more) [].
Proof.
  destruct (split 47 rest) as [|x more] eqn:Es; [|now exists x, more].
  destruct rest as [|c t]; [discriminate Es|]. cbn [split] in Es.
  destruct (N.eqb c 47); [discriminate Es|].
  destruct (split 47 t); discriminate Es.
Qed.

(** The entries that [classify] hands to a dated folder. *)
Lemma classify_shoot (entry : jsstring * Loader) (k : jsstring)
    (f : ShootFile Loader) :
  classify entry = ToShoot k f <->
  exists rest,
    fst entry = PHOTO_ROOT_PREFIX ++ k ++ lit "/" ++ rest
    /\ forallb (fun c => negb (N.eqb c 47)) k = true
    /\ test SHOOT_FOLDER_RE k = true
    /\ streq (toLowerCase k) (lit "digitals") = false
    /\ f = {| path := fst entry;
              fileName := last (split 47 rest) [];
              loader := snd entry |}.
Proof.
  split.
  - destruct entry as [p l]. unfold classify. cbn [fst snd].
    destruct (streq p HERO_PATH); [discriminate|].
    destruct (startsWith PHOTO_ROOT_PREFIX p) eqn:Hs; [|discriminate].
    cbn [negb]. apply startsWith_skipn in Hs.
    destruct (split 47 (skipn (List.length PHOTO_ROOT_PREFIX) p))
      as [|folderName [|x more]] eqn:Es; try discriminate.
    destruct (streq (toLowerCase folderName) (lit "digitals")) eqn:Ed;
      [discriminate|].
    destruct (test SHOOT_FOLDER_RE folderName) eqn:Et; [|discriminate].
    intros H. injection H as <- <-.
    destruct (split_parts _ _ _ _ _ Es) as (rest & Er & Hr & Hk).
    exists rest. rewrite Er in Hs. repeat split; auto.
    f_equal. now rewrite Hr.
  - intros (rest & Hp & Hk & Ht & Hd & ->).
    destruct entry as [p l]. cbn [fst snd] in *. subst p. unfold classify.
    rewrite (proj2 (streq_neq _ _) (path_not_hero k rest)).
    rewrite (proj2 (startsWith_app _ _)) by (eexists; reflexivity).
    cbn [negb]. rewrite skipn_app, skipn_all, Nat.sub_diag. cbn [skipn app].
    change (lit "/" ++ rest) with (47%N :: rest).
    rewrite split_head by exact Hk.
    destruct (split_rest rest) as (x & more & -> & _).
    now rewrite Hd, Ht.
Qed.

(** The entries that [classify] hands to the digitals. *)
Lemma classify_digitals (entry : jsstring * Loader)
    (file : DigitalFile Loader) :
  classify entry = ToDigitals file <->
  exists folder rest,
    fst entry = PHOTO_ROOT_PREFIX ++ folder ++ lit "/" ++ rest
    /\ forallb (fun c => negb (N.eqb c 47)) folder = true
    /\ streq (toLowerCase folder) (lit "digitals") = true
    /\ file = {| digitalFileName := last (split 47 rest) [];
                 digitalLoader := snd entry |}.
Proof.
  split.
  - destruct entry as [p l]. unfold classify. cbn [fst snd].
    destruct (streq p HERO_PATH); [discriminate|].
    destruct (startsWith PHOTO_ROOT_PREFIX p) eqn:Hs; [|discriminate].
    cbn [negb]. apply startsWith_skipn in Hs.
    destruct (split 47 (skipn (List.length PHOTO_ROOT_PREFIX) p))
      as [|folderName [|x more]] eqn:Es; try discriminate.
    destruct (streq (toLowerCase folderName) (lit "digitals")) eqn:Ed.
    + intros H. injection H as <-.
      destruct (split_parts _ _ _ _ _ Es) as (rest & Er & Hr & Hk).
      exists folderName, rest. rewrite Er in Hs. repeat split; auto.
      f_equal. now rewrite Hr.
    + destruct (test SHOOT_FOLDER_RE folderName); discriminate.
  - intros (folder & rest & Hp & Hk & Hd & ->).
    destruct entry as [p l]. cbn [fst snd] in *. subst p. unfold classify.
    rewrite (proj2 (streq_neq _ _) (path_not_hero folder rest)).
    rewrite (proj2 (startsWith_app _ _)) by (eexists; reflexivity).
    cbn [negb]. rewrite skipn_app, skipn_all, Nat.sub_diag. cbn [skipn app].
    change (lit "/" ++ rest) with (47%N :: rest).
    rewrite split_head by exact Hk.
    destruct (split_rest rest) as (x & more & -> & _).
    now rewrite Hd.
Qed.

(** Pushing a file always changes the map of the folders: the number
    of files in it grows by one. *)
Lemma pushToFolder_count (k : jsstring) (f : ShootFile Loader)
    (m : FolderMap Loader) :
  List.length (concat (map snd (pushToFolder k f m)))
  = S (List.length (concat (map snd m))).
Proof.
  induction m as [|[k' files] m IH]; [reflexivity|].
  cbn [pushToFolder]. destruct (streq k' k); cbn [map snd concat].
  - rewrite !length_app. cbn [List.length]. lia.
  - rewrite !length_app, IH. lia.
Qed.

Lemma pushToFolder_changes (k : jsstring) (f : ShootFile Loader)
    (m : FolderMap Loader) :
  pushToFolder k f m <> m.
Proof.
  intros E. pose proof (pushToFolder_count k f m) as H.
  rewrite E in H. lia.
Qed.

(** X4.  The grouping pass appends an entry to the bucket of a folder
    exactly when its path is the photo root, the folder name, a slash
    and a rest, where the folder name has no slash, is a dated name and
    is not the digitals folder: then the file is pushed to the bucket of
    that folder and the digitals are left alone, and for every other
    entry the buckets of the folders stay as they are. The rest may hold
    further slashes, and the file name is what follows the last one; so
    the files of the subfolders of a dated folder belong to that folder,
    a file name never holds a slash, and the hero photo is in no bucket. *)
Theorem file_goes_to_its_folder
    (acc : FolderMap Loader * list (DigitalFile Loader))
    (entry : jsstring * Loader) :
  (forall k rest,
     fst entry = PHOTO_ROOT_PREFIX ++ k ++ lit "/" ++ rest ->
     forallb (fun c => negb (N.eqb c 47)) k = true ->
     test SHOOT_FOLDER_RE k = true ->
     streq (toLowerCase k) (lit "digitals") = false ->
     collect acc entry
     = (pushToFolder k
          {| path := fst entry;
             fileName := last (split 47 rest) [];
             loader := snd entry |} (fst acc),
        snd acc)
     /\ forallb (fun c => negb (N.eqb c 47)) (last (split 47 rest) []) = true
     /\ fst entry <> HERO_PATH)
  /\ (fst (collect acc entry) <> fst acc <->
      exists k rest,
        fst entry = PHOTO_ROOT_PREFIX ++ k ++ lit "/" ++ rest
        /\ forallb (fun c => negb (N.eqb c 47)) k = true
        /\ test SHOOT_FOLDER_RE k = true
        /\ streq (toLowerCase k) (lit "digitals") = false).
Proof.
  assert (forall k rest,
            fst entry = PHOTO_ROOT_PREFIX ++ k ++ lit "/" ++ rest ->
            forallb (fun c => negb (N.eqb c 47)) k = true ->
            test SHOOT_FOLDER_RE k = true ->
            streq (toLowerCase k) (lit "digitals") = false ->
            collect acc entry
            = (pushToFolder k
                 {| path := fst entry;
                    fileName := last (split 47 rest) [];
                    loader := snd entry |} (fst acc),
               snd acc)) as Hpush.
  { intros k rest Hp Hk Ht Hd. rewrite collect_classify.
    assert (classify entry
            = ToShoot k {| path := fst entry;
                           fileName := last (split 47 rest) [];
                           loader := snd entry |}) as ->; [|reflexivity].
    apply classify_shoot. exists rest. repeat split; assumption. }
  split.
  - intros k rest Hp Hk Ht Hd. split; [now apply Hpush|].
    split; [apply last_split|]. rewrite Hp. apply path_not_hero.
  - split.
    + intros Hchange. rewrite collect_classify in Hchange.
      destruct (classify entry) as [|file|k f] eqn:E;
        try (now destruct Hchange).
      apply classify_shoot in E as (rest & Hp & Hk & Ht & Hd & _).
      exists k, rest. repeat split; assumption.
    + intros (k & rest & Hp & Hk & Ht & Hd).
      rewrite (Hpush k rest Hp Hk Ht Hd). cbn [fst].
      apply pushToFolder_changes.
Qed.

(** X5.  The grouping pass appends an entry to the digitals exactly when
    its path is the photo root, a folder name without a slash that reads
    [digitals] in lower case, a slash and a rest: then the file, named
    by what follows the last slash of the rest, is put at the end of the
    digitals and the buckets of the folders are left alone, and for
    every other entry the digitals stay as they are. *)
Theorem file_goes_to_digitals
    (acc : FolderMap Loader * list (DigitalFile Loader))
    (entry : jsstring * Loader) :
  (forall folder rest,
     fst entry = PHOTO_ROOT_PREFIX ++ folder ++ lit "/" ++ rest ->
     forallb (fun c => negb (N.eqb c 47)) folder = true ->
     streq (toLowerCase folder) (lit "digitals") = true ->
     collect acc entry
     = (fst acc,
        snd acc ++ [{| digitalFileName := last (split 47 rest) [];
                       digitalLoader := snd entry |}]))
  /\ (snd (collect acc entry) <> snd acc <->
      exists folder rest,
        fst entry = PHOTO_ROOT_PREFIX ++ folder ++ lit "/" ++ rest
        /\ forallb (fun c => negb (N.eqb c 47)) folder = true
        /\ streq (toLowerCase folder) (lit "digitals") = true).
Proof.
  assert (forall folder rest,
            fst entry = PHOTO_ROOT_PREFIX ++ folder ++ lit "/" ++ rest ->
            forallb (fun c => negb (N.eqb c 47)) folder = true ->
            streq (toLowerCase folder) (lit "digitals") = true ->
            collect acc entry
            = (fst acc,
               snd acc ++ [{| digitalFileName := last (split 47 rest) [];
                              digitalLoader := snd entry |}])) as Hpush.
  { intros folder rest Hp Hk Hd. rewrite collect_classify.
    assert (classify entry
            = ToDigitals {| digitalFileName := last (split 47 rest) [];
                            digitalLoader := snd entry |}) as ->;
      [|reflexivity].
    apply classify_digitals. exists folder, rest. repeat split; assumption. }
  split; [exact Hpush|]. split.
  - intros Hchange. rewrite collect_classify in Hchange.
    destruct (classify entry) as [|file|k f] eqn:E;
      try (now destruct Hchange).
    apply classify_digitals in E as (folder & rest & Hp & Hk & Hd & _).
    exists folder, rest. repeat split; assumption.
  - intros (folder & rest & Hp & Hk & Hd).
    rewrite (Hpush folder rest Hp Hk Hd). cbn [snd].
    intros E. apply (f_equal (@List.length _)) in E.
    rewrite length_app in E. cbn [List.length] in E. lia.
Qed.

End Classification.

(** ** Calendar dates and the order of the folders *)

Section Calendar.

Context {R : Runtime}.

Lemma DayFromYear_next (y : Z) :
  DayFromYear (y + 1)
  = (DayFromYear y + 365 + if isLeapYear y then 1 else 0)%Z.
Proof.
  unfold DayFromYear, isLeapYear.
  replace (y + 1 - 1970)%Z with (y - 1970 + 1)%Z by lia.
  replace (y + 1 - 1969)%Z with (y - 1968)%Z by lia.
  replace (y + 1 - 1901)%Z with (y - 1900)%Z by lia.
  replace (y + 1 - 1601)%Z with (y - 1600)%Z by lia.
  destruct (Z.eqb_spec (y mod 4) 0); destruct (Z.eqb_spec (y mod 100) 0);
    destruct (Z.eqb_spec (y mod 400) 0); cbn [andb orb negb];
    Z.to_euclidean_division_equations; lia.
Qed.

Lemma DayFromYear_mono (y1 y2 : Z) :
  (y1 <= y2)%Z -> (DayFromYear y1 <= DayFromYear y2)%Z.
Proof.
  intros H. unfold DayFromYear. Z.to_euclidean_division_equations. lia.
Qed.

Lemma month_cases (m : Z) :
  (1 <= m <= 12)%Z ->
  In m [1; 2; 3; 4; 5; 6; 7; 8; 9; 10; 11; 12]%Z.
Proof.
  intros H. cbn [In].
  assert (m = 1 \/ m = 2 \/ m = 3 \/ m = 4 \/ m = 5 \/ m = 6 \/ m = 7
          \/ m = 8 \/ m = 9 \/ m = 10 \/ m = 11 \/ m = 12)%Z as Hm by lia.
  intuition auto.
Qed.

Lemma dayOfYear_bounds (leap : bool) (m d : Z) :
  (1 <= m <= 12)%Z -> (1 <= d <= daysInMonth leap m)%Z ->
  (0 <= daysBeforeMonth leap (m - 1) + d - 1
   <= 364 + if leap then 1 else 0)%Z.
Proof.
  intros Hm. apply month_cases in Hm. cbn [In] in Hm.
  destruct leap;
    repeat (destruct Hm as [<-|Hm];
            [vm_compute daysInMonth; vm_compute daysBeforeMonth; lia|]);
    destruct Hm.
Qed.

Lemma dayOfYear_months (leap : bool) (m1 d1 m2 d2 : Z) :
  (1 <= m1 <= 12)%Z -> (1 <= d1 <= daysInMonth leap m1)%Z ->
  (1 <= m2 <= 12)%Z -> (1 <= d2)%Z ->
  (m1 < m2)%Z ->
  (daysBeforeMonth leap (m1 - 1) + d1 - 1
   < daysBeforeMonth leap (m2 - 1) + d2 - 1)%Z.
Proof.
  intros Hm1 Hd1 Hm2 Hd2 Hlt.
  assert (forall m, (1 <= m <= 11)%Z ->
            (daysBeforeMonth leap (m - 1) + daysInMonth leap m
             = daysBeforeMonth leap m)%Z) as Hstep.
  { intros m Hm.
    assert (1 <= m <= 12)%Z as Hm' by lia.
    apply month_cases in Hm'. cbn [In] in Hm'.
    destruct leap;
      repeat (destruct Hm' as [<-|Hm']; [try reflexivity; lia|]);
      destruct Hm'. }
  assert (forall k m, (1 <= m)%Z -> (m + Z.of_nat k <= 12)%Z ->
            (daysBeforeMonth leap (m - 1)
             <= daysBeforeMonth leap (m + Z.of_nat k - 1))%Z) as Hmono.
  { induction k as [|k IH]; intros m H1 H2.
    - replace (m + Z.of_nat 0 - 1)%Z with (m - 1)%Z by lia. lia.
    - specialize (IH m H1 ltac:(lia)).
      replace (m + Z.of_nat (S k) - 1)%Z with (m + Z.of_nat k)%Z by lia.
      rewrite <- (Hstep (m + Z.of_nat k)%Z) by lia.
      assert (0 <= daysInMonth leap (m + Z.of_nat k))%Z.
      { assert (1 <= m + Z.of_nat k <= 12)%Z as Hc by lia.
        apply month_cases in Hc. cbn [In] in Hc.
        destruct leap;
          repeat (destruct Hc as [<-|Hc]; [vm_compute; discriminate|]);
          destruct Hc. }
      lia. }
  specialize (Hmono (Z.to_nat (m2 - (m1 + 1))) (m1 + 1)%Z ltac:(lia) ltac:(lia)).
  replace (m1 + 1 + Z.of_nat (Z.to_nat (m2 - (m1 + 1))) - 1)%Z
    with (m2 - 1)%Z in Hmono by lia.
  replace (m1 + 1 - 1)%Z with m1 in Hmono by lia.
  rewrite <- (Hstep m1) in Hmono by lia. lia.
Qed.

Lemma DateUTC_calendar (y m d : Z) :
  (100 <= y)%Z -> (1 <= m <= 12)%Z ->
  DateUTC y (m - 1) d
  = ((DayFromYear y + daysBeforeMonth (isLeapYear y) (m - 1) + d - 1)
     * 86400000)%Z.
Proof.
  intros Hy Hm. unfold DateUTC, MakeDay.
  destruct (Z.leb_spec y 99); [lia|]. rewrite andb_false_r.
  rewrite Z.div_small, Z.mod_small by lia. now rewrite Z.add_0_r.
Qed.

Lemma getFolderDateValue_folderDate (s : jsstring) (y m d : Z) :
  folderDate s = Some (y, m, d) ->
  getFolderDateValue s = Fin (DateUTC y (m - 1) d).
Proof.
  unfold folderDate, getFolderDateValue. rewrite exec_SHOOT_FOLDER_RE.
  destruct (parseShootFolder s) as [[[[ty tm] td] tx]|]; [|discriminate].
  cbn [group caps lookupCap Nat.eqb].
  destruct (Number ty); [|discriminate].
  destruct (Number tm); [|discriminate].
  destruct (Number td); [|discriminate].
  intros H. injection H as -> -> ->. reflexivity.
Qed.

Lemma dayNumber_order (ya ma da yb mb db : Z) :
  isCalendarDate (ya, ma, da) -> isCalendarDate (yb, mb, db) ->
  earlierDate (ya, ma, da) (yb, mb, db) ->
  (DayFromYear ya + daysBeforeMonth (isLeapYear ya) (ma - 1) + da - 1
   < DayFromYear yb + daysBeforeMonth (isLeapYear yb) (mb - 1) + db - 1)%Z.
Proof.
  intros (Hya & Hma & Hda) (Hyb & Hmb & Hdb) Hlt.
  pose proof (dayOfYear_bounds _ _ _ Hma Hda) as Ba.
  pose proof (dayOfYear_bounds _ _ _ Hmb Hdb) as Bb.
  destruct Hlt as [Hy | [<- [Hm | [<- Hd]]]].
  - pose proof (DayFromYear_next ya) as Hn.
    pose proof (DayFromYear_mono (ya + 1) yb ltac:(lia)) as Hmono.
    destruct (isLeapYear ya); lia.
  - pose proof (dayOfYear_months _ _ _ _ _ Hma Hda Hmb (proj1 Hdb) Hm). lia.
  - lia.
Qed.

Lemma earlier_date_value (a b : jsstring) (da db : Z * Z * Z) :
  folderDate a = Some da -> folderDate b = Some db ->
  isCalendarDate da -> isCalendarDate db ->
  earlierDate da db ->
  exists za zb,
    getFolderDateValue a = Fin za /\ getFolderDateValue b = Fin zb
    /\ (za < zb)%Z.
Proof.
  destruct da as [[ya ma] da], db as [[yb mb] db].
  intros Ea Eb Ha Hb Hlt.
  apply getFolderDateValue_folderDate in Ea, Eb.
  pose proof (dayNumber_order _ _ _ _ _ _ Ha Hb Hlt) as Hd.
  destruct Ha as (Hya & Hma & _), Hb as (Hyb & Hmb & _).
  rewrite DateUTC_calendar in Ea, Eb by assumption.
  eexists. eexists. split; [exact Ea|]. split; [exact Eb|]. lia.
Qed.

(** X6.  Of two folders named after dates of the calendar, the one with
    the later date has the greater date value and is sorted before the
    other. *)
Theorem later_date_sorts_first (a b : jsstring) (da db : Z * Z * Z) :
  folderDate a = Some da -> folderDate b = Some db ->
  isCalendarDate da -> isCalendarDate db ->
  earlierDate da db ->
  exists za zb,
    getFolderDateValue a = Fin za /\ getFolderDateValue b = Fin zb
    /\ (za < zb)%Z
    /\ (sortOrder (compareFolders b a) < 0)%Z
    /\ (0 < sortOrder (compareFolders a b))%Z.
Proof.
  intros Ea Eb Ha Hb Hlt.
  destruct (earlier_date_value _ _ _ _ Ea Eb Ha Hb Hlt)
    as (za & zb & Eza & Ezb & Hz).
  exists za, zb. split; [exact Eza|]. split; [exact Ezb|]. split; [exact Hz|].
  rewrite (compareFolders_dated _ _ _ _ Ezb Eza),
    (compareFolders_dated _ _ _ _ Eza Ezb).
  destruct (Z.eqb_spec (za - zb) 0); destruct (Z.eqb_spec (zb - za) 0);
    cbn [sortOrder]; lia.
Qed.

Context (L : RuntimeLaws R).
Variable Loader : Type.

(** X7.  The projects are listed from the newest to the oldest: a
    project never stands before one with a later calendar date. *)
Theorem projects_newest_first (photoLoaders : list (jsstring * Loader))
    (before between after : list (Project Loader)) (p q : Project Loader)
    (dp dq : Z * Z * Z) :
  shoots photoLoaders = before ++ p :: between ++ q :: after ->
  folderDate (id p) = Some dp -> folderDate (id q) = Some dq ->
  isCalendarDate dp -> isCalendarDate dq ->
  ~ earlierDate dp dq.
Proof.
  intros Hl Ep Eq Hp Hq Hlt.
  pose proof (shoots_sorted Loader L photoLoaders) as Hs. rewrite Hl in Hs.
  assert (notAfter compareFolders (id p) (id q)) as Hle.
  { apply (StronglySorted_after _ _ _ _ _ Hs).
    apply in_or_app. right. left. reflexivity. }
  destruct (earlier_date_value _ _ _ _ Ep Eq Hp Hq Hlt)
    as (zp & zq & Ezp & Ezq & Hz).
  unfold notAfter in Hle.
  rewrite (compareFolders_dated _ _ _ _ Ezp Ezq) in Hle.
  destruct (Z.eqb_spec (zq - zp) 0); cbn [sortOrder] in Hle; lia.
Qed.

End Calendar.

Lemma later_date_sorts_first_witness :
  folderDate (lit "2024-02-29-leap-day") = Some (2024, 2, 29)%Z
  /\ folderDate (lit "2024-03-01-spring") = Some (2024, 3, 1)%Z
  /\ isCalendarDate (2024, 2, 29)%Z
  /\ isCalendarDate (2024, 3, 1)%Z
  /\ earlierDate (2024, 2, 29)%Z (2024, 3, 1)%Z
  /\ exists za zb,
       getFolderDateValue (lit "2024-02-29-leap-day") = Fin za
       /\ getFolderDateValue (lit "2024-03-01-spring") = Fin zb
       /\ (za < zb)%Z
       /\ (sortOrder
             (@compareFolders asciiRuntime (lit "2024-03-01-spring")
                (lit "2024-02-29-leap-day")) < 0)%Z
       /\ (0 < sortOrder
                 (@compareFolders asciiRuntime (lit "2024-02-29-leap-day")
                    (lit "2024-03-01-spring")))%Z.
Proof.
  assert (isCalendarDate (2024, 2, 29)%Z) as Ha by (vm_compute; intuition discriminate).
  assert (isCalendarDate (2024, 3, 1)%Z) as Hb by (vm_compute; intuition discriminate).
  assert (earlierDate (2024, 2, 29)%Z (2024, 3, 1)%Z) as Hlt
    by (right; split; [reflexivity|left; reflexivity]).
  split; [reflexivity|]. split; [reflexivity|].
  split; [exact Ha|]. split; [exact Hb|]. split; [exact Hlt|].
  exact (@later_date_sorts_first asciiRuntime (lit "2024-02-29-leap-day")
           (lit "2024-03-01-spring") _ _ eq_refl eq_refl Ha Hb Hlt).
Defined.

Lemma projects_newest_first_witness :
  @shoots asciiRuntime nat samplePhotos
  = [] ++ sampleEditorial :: [sampleLifestyle] ++ sampleOlderEditorial :: []
  /\ folderDate (id sampleEditorial) = Some (2026, 8, 1)%Z
  /\ folderDate (id sampleOlderEditorial) = Some (2025, 1, 1)%Z
  /\ isCalendarDate (2026, 8, 1)%Z
  /\ isCalendarDate (2025, 1, 1)%Z
  /\ ~ earlierDate (2026, 8, 1)%Z (2025, 1, 1)%Z.
Proof.
  assert (isCalendarDate (2026, 8, 1)%Z) as Ha by (vm_compute; intuition discriminate).
  assert (isCalendarDate (2025, 1, 1)%Z) as Hb by (vm_compute; intuition discriminate).
  split; [reflexivity|]. split; [reflexivity|]. split; [reflexivity|].
  split; [exact Ha|]. split; [exact Hb|].
  exact (@projects_newest_first asciiRuntime asciiRuntime_laws nat samplePhotos
           [] [sampleLifestyle] [] sampleEditorial sampleOlderEditorial
           _ _ eq_refl eq_refl eq_refl Ha Hb).
Defined.
(** ** The order of the dated folders *)

Section FolderOrder.

Context {R : Runtime}.

(** The three numeric fields of a dated folder name are always read. *)
Lemma folderDate_dated (s : jsstring) :
  test SHOOT_FOLDER_RE s = true ->
  exists y m d, folderDate s = Some (y, m, d).
Proof.
  intros H. apply test_SHOOT_FOLDER_RE in H. unfold folderDate.
  destruct (parseShootFolder s) as [[[[ty tm] td] tx]|] eqn:E; [|congruence].
  apply parseShootFolder_parts in E as (_ & [Ly Dy] & [Lm Dm] & [Ld Dd] & _).
  destruct (Number_digits ty) as [zy ->]; [now destruct ty | exact Dy|].
  destruct (Number_digits tm) as [zm ->]; [now destruct tm | exact Dm|].
  destruct (Number_digits td) as [zd ->]; [now destruct td | exact Dd|].
  eauto.
Qed.

(** On dates of the calendar [Date.UTC] grows with the date. *)
Lemma earlierDate_DateUTC (ya ma da yb mb db : Z) :
  isCalendarDate (ya, ma, da) -> isCalendarDate (yb, mb, db) ->
  earlierDate (ya, ma, da) (yb, mb, db) ->
  (DateUTC ya (ma - 1) da < DateUTC yb (mb - 1) db)%Z.
Proof.
  intros Ha Hb Hlt.
  pose proof (dayNumber_order _ _ _ _ _ _ Ha Hb Hlt) as Hd.
  destruct Ha as (Hya & Hma & _), Hb as (Hyb & Hmb & _).
  rewrite !DateUTC_calendar by assumption. lia.
Qed.


Context (L : RuntimeLaws R).

(** C3, as amended: the date value of a dated folder name is
    [Date.UTC] of its three numeric fields, and the comparator puts the
    folder with the greater value first.  For names whose fields are a
    date of the calendar this is the order of decreasing encoded date.
    Names with the same fields, and more generally with the same date
    value, are ordered by the collation of the names, descending.  On all
    dated names the sign of the comparator is reversed when the arguments
    are swapped and "not after" is transitive: a total preorder. *)
Theorem compareFolders_order (a b c : jsstring) :
  test SHOOT_FOLDER_RE a = true ->
  test SHOOT_FOLDER_RE b = true ->
  test SHOOT_FOLDER_RE c = true ->
  exists ya ma da yb mb db,
    folderDate a = Some (ya, ma, da) /\ folderDate b = Some (yb, mb, db)
    /\ getFolderDateValue a = Fin (DateUTC ya (ma - 1) da)
    /\ getFolderDateValue b = Fin (DateUTC yb (mb - 1) db)
    /\ ((DateUTC yb (mb - 1) db < DateUTC ya (ma - 1) da)%Z ->
        (sortOrder (compareFolders a b) < 0)%Z)
    /\ ((DateUTC ya (ma - 1) da < DateUTC yb (mb - 1) db)%Z ->
        (0 < sortOrder (compareFolders a b))%Z)
    /\ (isCalendarDate (ya, ma, da) -> isCalendarDate (yb, mb, db) ->
        (earlierDate (yb, mb, db) (ya, ma, da) ->
         (sortOrder (compareFolders a b) < 0)%Z)
        /\ (earlierDate (ya, ma, da) (yb, mb, db) ->
            (0 < sortOrder (compareFolders a b))%Z))
    /\ ((ya, ma, da) = (yb, mb, db) ->
        compareFolders a b = Fin (localeCompareBase b a))
    /\ (DateUTC ya (ma - 1) da = DateUTC yb (mb - 1) db ->
        compareFolders a b = Fin (localeCompareBase b a))
    /\ Z.sgn (sortOrder (compareFolders a b))
       = (- Z.sgn (sortOrder (compareFolders b a)))%Z
    /\ (notAfter compareFolders a b -> notAfter compareFolders b c ->
        notAfter compareFolders a c).
Proof.
  intros Ha Hb Hc.
  destruct (folderDate_dated a Ha) as (ya & ma & da & Ea).
  destruct (folderDate_dated b Hb) as (yb & mb & db & Eb).
  exists ya, ma, da, yb, mb, db.
  pose proof (getFolderDateValue_folderDate _ _ _ _ Ea) as Va.
  pose proof (getFolderDateValue_folderDate _ _ _ _ Eb) as Vb.
  pose proof (compareFolders_dated a b _ _ Va Vb) as E.
  assert ((DateUTC yb (mb - 1) db < DateUTC ya (ma - 1) da)%Z ->
          (sortOrder (compareFolders a b) < 0)%Z) as Hfirst.
  { intros H. rewrite E.
    destruct (Z.eqb_spec (DateUTC yb (mb - 1) db - DateUTC ya (ma - 1) da) 0);
      cbn [sortOrder]; lia. }
  assert ((DateUTC ya (ma - 1) da < DateUTC yb (mb - 1) db)%Z ->
          (0 < sortOrder (compareFolders a b))%Z) as Hsecond.
  { intros H. rewrite E.
    destruct (Z.eqb_spec (DateUTC yb (mb - 1) db - DateUTC ya (ma - 1) da) 0);
      cbn [sortOrder]; lia. }
  assert (DateUTC ya (ma - 1) da = DateUTC yb (mb - 1) db ->
          compareFolders a b = Fin (localeCompareBase b a)) as Htie.
  { intros Heq. rewrite E, Heq. now rewrite Z.sub_diag. }
  repeat (split; [assumption|]).
  split; [|split; [|split; [|split]]].
  - intros Ca Cb. split; intros Hlt.
    + apply Hfirst. now apply earlierDate_DateUTC.
    + apply Hsecond. now apply earlierDate_DateUTC.
  - intros Heq. apply Htie. now injection Heq as -> -> ->.
  - exact Htie.
  - now apply compareFolders_sign.
  - now apply compareFolders_trans.
Qed.

End FolderOrder.

Lemma compareFolders_order_witness :
  test SHOOT_FOLDER_RE (lit "2026-08-01-editorial") = true
  /\ test SHOOT_FOLDER_RE (lit "2026-07-15-lifestyle-shoot") = true
  /\ folderDate (lit "2026-08-01-editorial") = Some (2026, 8, 1)%Z
  /\ folderDate (lit "2026-07-15-lifestyle-shoot") = Some (2026, 7, 15)%Z
  /\ earlierDate (2026, 7, 15)%Z (2026, 8, 1)%Z
  /\ (sortOrder (@compareFolders asciiRuntime
                   (lit "2026-08-01-editorial")
                   (lit "2026-07-15-lifestyle-shoot")) < 0)%Z.
Proof.
  split; [reflexivity|]. split; [reflexivity|].
  split; [reflexivity|]. split; [reflexivity|].
  assert (earlierDate (2026, 7, 15)%Z (2026, 8, 1)%Z) as Hlt
    by (right; split; [reflexivity | left; reflexivity]).
  split; [exact Hlt|].
  destruct (@compareFolders_order asciiRuntime asciiRuntime_laws
              (lit "2026-08-01-editorial") (lit "2026-07-15-lifestyle-shoot")
              (lit "2026-07-15-lifestyle-shoot")
              eq_refl eq_refl eq_refl)
    as (ya & ma & da & yb & mb & db & Ea & Eb & _ & _ & _ & _ & Hcal & _).
  vm_compute in Ea, Eb.
  assert ((ya, ma, da) = (2026, 8, 1)%Z) as Ha by congruence.
  assert ((yb, mb, db) = (2026, 7, 15)%Z) as Hb by congruence.
  rewrite Ha, Hb in Hcal.
  apply Hcal; [vm_compute; intuition discriminate
              | vm_compute; intuition discriminate | exact Hlt].
Defined.

(** C3 as stated fails in two ways.  Two distinct dated folder
    names of one date that differ only in the case of a letter compare as
    equal, so the comparator is not antisymmetric and no total order.  And
    the order is not that of the encoded dates when the fields are no date
    of the calendar: day 30 of February is counted as the second of March,
    so the folder [2026-02-30-a] is sorted before [2026-03-01-b], and the
    year [0099] is counted as 1999, so the folder [0099-01-01-a] is sorted
    before [0100-01-01-b]. *)
Lemma compareFolders_ties_and_overflow :
  (exists a b,
     test SHOOT_FOLDER_RE a = true /\ test SHOOT_FOLDER_RE b = true
     /\ a <> b
     /\ @compareFolders asciiRuntime a b = Fin 0
     /\ @compareFolders asciiRuntime b a = Fin 0)
  /\ (test SHOOT_FOLDER_RE (lit "2026-02-30-a") = true
      /\ test SHOOT_FOLDER_RE (lit "2026-03-01-b") = true
      /\ folderDate (lit "2026-02-30-a") = Some (2026, 2, 30)%Z
      /\ folderDate (lit "2026-03-01-b") = Some (2026, 3, 1)%Z
      /\ earlierDate (2026, 2, 30)%Z (2026, 3, 1)%Z
      /\ (sortOrder (@compareFolders asciiRuntime (lit "2026-02-30-a")
                       (lit "2026-03-01-b")) < 0)%Z)
  /\ (test SHOOT_FOLDER_RE (lit "0099-01-01-a") = true
      /\ test SHOOT_FOLDER_RE (lit "0100-01-01-b") = true
      /\ folderDate (lit "0099-01-01-a") = Some (99, 1, 1)%Z
      /\ folderDate (lit "0100-01-01-b") = Some (100, 1, 1)%Z
      /\ earlierDate (99, 1, 1)%Z (100, 1, 1)%Z
      /\ (sortOrder (@compareFolders asciiRuntime (lit "0099-01-01-a")
                       (lit "0100-01-01-b")) < 0)%Z).
Proof.
  split; [|split].
  - exists (lit "2026-01-01-a"), (lit "2026-01-01-A").
    repeat split; try reflexivity. discriminate.
  - repeat split; try reflexivity.
    right. split; [reflexivity|]. left. reflexivity.
  - repeat split; try reflexivity. left. reflexivity.
Qed.

(** ** The routed project *)

Section Selection.

Context {R : Runtime} (L : RuntimeLaws R).
Variable Loader : Type.

(** On a path [/portfolio/<segment>] the router looks for the
    lower-cased decoding of the segment, or for the lower-cased segment
    when it has no decoding. *)
Lemma selectedProject_segment (allShoots : list (Project Loader))
    (pathname seg : jsstring) :
  portfolioShape pathname seg ->
  isProjectRoute pathname = true
  /\ selectedProject allShoots pathname
     = find (fun item =>
               streq (routeSlug item)
                 (toLowerCase (match decodeURIComponent seg with
                               | Some decoded => decoded
                               | None => seg
                               end))) allShoots.
Proof.
  intros Hshape. split.
  - destruct Hshape as (_ & _ & [-> | ->]); apply startsWith_app; eauto.
  - apply (selectedProject_find L).
    rewrite getProjectSlugFromPathname_segment.
    apply routeSegment_shape in Hshape. now rewrite Hshape.
Qed.

Lemma selectedProject_unrouted (allShoots : list (Project Loader))
    (pathname : jsstring) :
  (forall seg, ~ portfolioShape pathname seg) ->
  selectedProject allShoots pathname = None.
Proof.
  intros H. unfold selectedProject.
  rewrite getProjectSlugFromPathname_segment.
  destruct (routeSegment pathname) as [seg|] eqn:E; [|reflexivity].
  apply routeSegment_shape in E. now destruct (H seg).
Qed.

Lemma isProjectRoute_shape (pathname : jsstring) :
  isProjectRoute pathname = false -> forall seg, ~ portfolioShape pathname seg.
Proof.
  intros H seg Hshape.
  assert (isProjectRoute pathname = true) as E; [|congruence].
  destruct Hshape as (_ & _ & [-> | ->]); apply startsWith_app; eauto.
Qed.

(** A segment without a decoding holds a percent sign. *)
Lemma undecodable_percent (seg : jsstring) :
  decodeURIComponent seg = None -> In 37%N seg.
Proof.
  intros Hd.
  destruct (forallb (fun c => negb (N.eqb c 37)) seg) eqn:E.
  - rewrite (decodeURIComponent_plain seg E) in Hd. discriminate.
  - clear Hd. induction seg as [|c t IH]; [discriminate|].
    cbn [forallb] in E. destruct (N.eqb_spec c 37) as [->|_].
    + now left.
    + right. apply IH. exact E.
Qed.

(** No built project answers to an ASCII segment that has no decoding:
    the lower-cased segment keeps its percent sign, which no route slug
    holds. *)
Lemma undecodable_unselected (photoLoaders : list (jsstring * Loader))
    (pathname seg : jsstring) :
  portfolioShape pathname seg ->
  forallb isAscii seg = true ->
  decodeURIComponent seg = None ->
  selectedProject (shoots photoLoaders) pathname = None.
Proof.
  intros Hshape Hascii Hd.
  destruct (selectedProject_segment (shoots photoLoaders) pathname seg Hshape)
    as [_ ->].
  rewrite Hd, (toLowerCase_ascii seg Hascii).
  apply find_none. intros q Hq. apply streq_neq. intros E.
  destruct (shoots_routeSlug Loader photoLoaders q Hq)
    as (y & m & d & x & _ & Hr).
  pose proof (toRouteSlug_units x) as Hu. rewrite <- Hr, E in Hu.
  assert (In 37%N (map asciiLower seg)) as Hin.
  { change 37%N with (asciiLower 37). apply in_map.
    now apply undecodable_percent. }
  rewrite forallb_forall in Hu. specialize (Hu _ Hin). discriminate.
Qed.

(** C6: on a path [/portfolio/<segment>] (with or without a closing
    slash) the slug looked for is the percent-decoding of the segment in
    lower case (the segment itself in lower case when it cannot be
    decoded), and the selected project is the project of the collection
    with that route slug: the first one in the collection, the only one
    when no two projects share a slug, and none when no project has it.
    In the built collection no project answers to an ASCII segment that
    cannot be decoded.  On every other path no project is selected.  A
    path under [/portfolio/] without a selected project is the not-found
    state of the router, which differs from the home state by
    [isProjectRoute]; with the hero photo present the page shows the
    not-found view for the former and the main view for the latter, and
    without it the page renders nothing.  All of this is computed without
    an error: the failure of the decoding is caught. *)
Theorem selection_by_slug (allShoots : list (Project Loader))
    (photoLoaders : list (jsstring * Loader)) (pathname : jsstring) :
  (forall seg,
     portfolioShape pathname seg ->
     let slug := toLowerCase (match decodeURIComponent seg with
                              | Some decoded => decoded
                              | None => seg
                              end) in
     isProjectRoute pathname = true
     /\ getProjectSlugFromPathname pathname = Some slug
     /\ selectedProject allShoots pathname
        = find (fun item => streq (routeSlug item) slug) allShoots
     /\ (forall p, selectedProject allShoots pathname = Some p ->
           routeSlug p = slug
           /\ exists before after,
                allShoots = before ++ p :: after
                /\ forall r, In r before -> routeSlug r <> slug)
     /\ (forall q, In q allShoots -> routeSlug q = slug ->
           exists p, selectedProject allShoots pathname = Some p
                     /\ routeSlug p = slug
                     /\ (NoDup (map (@routeSlug Loader) allShoots) -> p = q))
     /\ ((forall q, In q allShoots -> routeSlug q <> slug) ->
         selectedProject allShoots pathname = None))
  /\ (forall seg,
        portfolioShape pathname seg ->
        forallb isAscii seg = true ->
        decodeURIComponent seg = None ->
        selectedProject (shoots photoLoaders) pathname = None)
  /\ ((forall seg, ~ portfolioShape pathname seg) ->
      getProjectSlugFromPathname pathname = None
      /\ selectedProject allShoots pathname = None)
  /\ (isProjectRoute pathname = false ->
      selectedProject allShoots pathname = None)
  /\ (forall hero, heroPhoto photoLoaders = Some hero ->
        (isProjectRoute pathname = false ->
         render photoLoaders pathname = Some (MainView Loader))
        /\ (forall p,
              selectedProject (shoots photoLoaders) pathname = Some p ->
              render photoLoaders pathname = Some (ProjectDetailView p))
        /\ (isProjectRoute pathname = true ->
            selectedProject (shoots photoLoaders) pathname = None ->
            render photoLoaders pathname
            = Some (ProjectNotFoundView Loader)))
  /\ (heroPhoto photoLoaders = None -> render photoLoaders pathname = None)
  /\ ProjectNotFoundView Loader <> MainView Loader.
Proof.
  split; [|split; [|split; [|split; [|split; [|split]]]]].
  2:{ intros seg. apply undecodable_unselected. }
  - intros seg Hshape slug.
    destruct (selectedProject_segment allShoots pathname seg Hshape)
      as [Hroute Hsel].
    fold slug in Hsel.
    split; [exact Hroute|]. split.
    { rewrite getProjectSlugFromPathname_segment.
      apply routeSegment_shape in Hshape. now rewrite Hshape. }
    split; [exact Hsel|]. rewrite Hsel. split; [|split].
    + intros p Hp. apply find_first in Hp as (b & a & E & Hp & Hb).
      apply streq_eq in Hp. split; [exact Hp|].
      exists b, a. split; [exact E|].
      intros r Hr. apply streq_neq. auto.
    + intros q Hq Hslug.
      destruct (find (fun item => streq (routeSlug item) slug) allShoots)
        as [p|] eqn:E.
      * exists p. split; [reflexivity|].
        apply find_first in E as (b & a & -> & Hp & _).
        apply streq_eq in Hp. split; [exact Hp|].
        intros Hn. rewrite map_app in Hn. cbn [map] in Hn.
        apply NoDup_remove_2 in Hn.
        apply in_app_or in Hq as [Hq | [Hq | Hq]]; [|exact Hq|];
          exfalso; apply Hn, in_or_app; [left | right];
          rewrite Hp, <- Hslug; now apply in_map.
      * exfalso. rewrite find_none in E. specialize (E q Hq).
        rewrite Hslug, streq_refl in E. discriminate.
    + intros Hnone. apply find_none. intros q Hq.
      apply streq_neq. auto.
  - intros Hno. split; [|now apply selectedProject_unrouted].
    rewrite getProjectSlugFromPathname_segment.
    destruct (routeSegment pathname) as [seg|] eqn:E; [|reflexivity].
    apply routeSegment_shape in E. now destruct (Hno seg).
  - intros Hroute. apply selectedProject_unrouted.
    now apply isProjectRoute_shape.
  - intros hero Hhero. unfold render, view. rewrite Hhero.
    split; [|split].
    + now intros ->.
    + intros p Hp. rewrite Hp.
      destruct (isProjectRoute pathname) eqn:Hroute; [reflexivity|].
      rewrite (selectedProject_unrouted (shoots photoLoaders) pathname) in Hp;
        [discriminate | now apply isProjectRoute_shape].
    + now intros -> ->.
  - intros Hhero. unfold render. now rewrite Hhero.
  - discriminate.
Qed.


End Selection.

Lemma selection_by_slug_witness :
  @selectedProject asciiRuntime nat (@shoots asciiRuntime nat samplePhotos)
    (lit "/portfolio/%45ditorial/") = Some sampleEditorial
  /\ @render asciiRuntime nat samplePhotos (lit "/portfolio/%45ditorial/")
     = Some (ProjectDetailView sampleEditorial)
  /\ @render asciiRuntime nat samplePhotos (lit "/portfolio/unknown")
     = Some (ProjectNotFoundView nat)
  /\ @render asciiRuntime nat samplePhotos (lit "/") = Some (MainView nat).
Proof.
  destruct (@selection_by_slug asciiRuntime asciiRuntime_laws nat
              (@shoots asciiRuntime nat samplePhotos) samplePhotos
              (lit "/portfolio/%45ditorial/"))
    as (Hseg & _ & _ & _ & Hpage & _).
  destruct (@selection_by_slug asciiRuntime asciiRuntime_laws nat
              (@shoots asciiRuntime nat samplePhotos) samplePhotos
              (lit "/portfolio/unknown"))
    as (Hseg' & _ & _ & _ & Hpage' & _).
  destruct (@selection_by_slug asciiRuntime asciiRuntime_laws nat
              (@shoots asciiRuntime nat samplePhotos) samplePhotos
              (lit "/"))
    as (_ & _ & _ & _ & Hmain & _).
  assert (portfolioShape (lit "/portfolio/%45ditorial/") (lit "%45ditorial"))
    as Hshape
    by (split; [discriminate | split; [reflexivity | right; reflexivity]]).
  assert (portfolioShape (lit "/portfolio/unknown") (lit "unknown"))
    as Hshape'
    by (split; [discriminate | split; [reflexivity | left; reflexivity]]).
  destruct (Hseg _ Hshape) as (_ & _ & Hfind & _).
  destruct (Hseg' _ Hshape') as (Hroute' & _ & _ & _ & _ & Hnone).
  assert (@selectedProject asciiRuntime nat
            (@shoots asciiRuntime nat samplePhotos)
            (lit "/portfolio/%45ditorial/") = Some sampleEditorial) as Hsel
    by (rewrite Hfind; vm_compute; reflexivity).
  split; [exact Hsel|].
  split; [exact (proj1 (proj2 (Hpage 7 eq_refl)) _ Hsel)|].
  split.
  - apply (Hpage' 7 eq_refl); [exact Hroute'|]. apply Hnone.
    intros q Hq. vm_compute in Hq.
    destruct Hq as [<- | [<- | [<- | []]]]; vm_compute; discriminate.
  - apply (Hmain 7 eq_refl). reflexivity.
Defined.


(** ** Well-formed slugs *)

Section SlugShape.

Context {R : Runtime}.

Lemma startsWith_hyphen (s : jsstring) :
  startsWith (lit "-") s = match s with c :: _ => isHyphen c | [] => false end.
Proof.
  destruct s as [|c t]; [reflexivity|].
  cbn [startsWith lit map list_ascii_of_string].
  change (N.eqb (N_of_ascii "-") c) with (isHyphen c). apply andb_true_r.
Qed.

Lemma noDoubleHyphen_cons (c : N) (t : jsstring) :
  noDoubleHyphen (c :: t)
  = negb (isHyphen c && match t with d :: _ => isHyphen d | [] => false end)
    && noDoubleHyphen t.
Proof.
  destruct t as [|d u]; [now rewrite andb_false_r|reflexivity].
Qed.

Lemma collapseRuns_shape (p : N -> bool) (s : jsstring) :
  (forall c, p c = false -> isHyphen c = false) ->
  forall b,
    noDoubleHyphen (collapseRuns p (lit "-") b s) = true
    /\ (b = true ->
        match collapseRuns p (lit "-") b s with
        | c :: _ => isHyphen c
        | [] => false
        end = false).
Proof.
  intros Hp. induction s as [|c t IH]; intros b; [now split|].
  cbn [collapseRuns]. destruct (p c) eqn:Hc.
  - destruct (IH true) as [Hn Hh]. destruct b; [split; auto|].
    split; [|discriminate].
    change (lit "-" ++ ?x) with (45%N :: x).
    rewrite noDoubleHyphen_cons, Hn, (Hh eq_refl). now rewrite andb_false_r.
  - destruct (IH false) as [Hn _]. rewrite noDoubleHyphen_cons, Hn.
    rewrite (Hp c Hc). split; [reflexivity|auto].
Qed.

Lemma noDoubleHyphen_dropRun (p : N -> bool) (s : jsstring) :
  noDoubleHyphen s = true -> noDoubleHyphen (dropRun p s) = true.
Proof.
  induction s as [|c t IH]; [reflexivity|].
  intros H. cbn [dropRun]. destruct (p c); [|exact H].
  apply IH. rewrite noDoubleHyphen_cons in H.
  now apply andb_true_iff in H as [_ H].
Qed.

Lemma noDoubleHyphen_dropTrailing (p : N -> bool) (s : jsstring) :
  noDoubleHyphen s = true -> noDoubleHyphen (dropTrailing p s) = true.
Proof.
  induction s as [|c t IH]; [reflexivity|].
  intros H. cbn [dropTrailing]. destruct (p c && forallb p t); [reflexivity|].
  rewrite noDoubleHyphen_cons in H |- *.
  apply andb_true_iff in H as [Hc Ht]. rewrite (IH Ht), andb_true_r.
  destruct t as [|d u]; [now rewrite andb_false_r|].
  cbn [dropTrailing]. destruct (p d && forallb p u); [now rewrite andb_false_r|].
  exact Hc.
Qed.

Lemma toRouteSlug_wellFormed (value : jsstring) :
  wellFormedSlug (toRouteSlug value) = true.
Proof.
  unfold wellFormedSlug. rewrite toRouteSlug_units. cbn [andb].
  rewrite toRouteSlug_passes.
  match goal with
  | |- context [dropRun isHyphen ?x] => remember x as w eqn:Ew
  end.
  assert (noDoubleHyphen w = true) as Hw.
  { subst w. apply collapseRuns_shape. intros c Hc.
    apply negb_false_iff in Hc. unfold isHyphen.
    apply N.eqb_neq. intros <-. discriminate Hc. }
  clear Ew.
  rewrite lastIs_dropTrailing. cbn [negb]. rewrite andb_true_r.
  rewrite noDoubleHyphen_dropTrailing by now apply noDoubleHyphen_dropRun.
  rewrite andb_true_r, startsWith_hyphen. apply negb_true_iff.
  destruct (dropTrailing_prefix isHyphen (dropRun isHyphen w)) as [u Hu].
  destruct (dropTrailing isHyphen (dropRun isHyphen w)) as [|c t];
    [reflexivity|].
  cbn [app] in Hu. now apply dropRun_head in Hu.
Qed.

Lemma collapseRuns_fixed (p : N -> bool) (s : jsstring) :
  (forall c, In c s -> p c = isHyphen c) ->
  noDoubleHyphen s = true ->
  forall b,
    (b = true -> match s with c :: _ => isHyphen c | [] => false end = false) ->
    collapseRuns p (lit "-") b s = s.
Proof.
  induction s as [|c t IH]; intros Hp Hn b Hb; [reflexivity|].
  rewrite noDoubleHyphen_cons in Hn. apply andb_true_iff in Hn as [Hc Ht].
  cbn [collapseRuns]. rewrite (Hp c) by now left.
  destruct (isHyphen c) eqn:Ec.
  - destruct b; [discriminate (Hb eq_refl)|].
    cbn [andb negb] in Hc. apply negb_true_iff in Hc.
    rewrite (IH (fun x Hx => Hp x (or_intror Hx)) Ht true (fun _ => Hc)).
    unfold isHyphen in Ec. apply N.eqb_eq in Ec. subst c. reflexivity.
  - f_equal.
    apply IH; [intros x Hx; apply Hp; now right | exact Ht | discriminate].
Qed.

Context (L : RuntimeLaws R).

Lemma wellFormedSlug_fixed (w : jsstring) :
  wellFormedSlug w = true -> toRouteSlug w = w.
Proof.
  intros Hw. unfold wellFormedSlug in Hw.
  apply andb_true_iff in Hw as [Hw Hd].
  apply andb_true_iff in Hw as [Hw Hl].
  apply andb_true_iff in Hw as [Hu Hs].
  apply negb_true_iff in Hl, Hs. rewrite startsWith_hyphen in Hs.
  rewrite toRouteSlug_passes, (toLowerCase_slug L w Hu).
  assert (ampersandToAnd w = w) as ->.
  { unfold ampersandToAnd. clear Hd Hl Hs.
    induction w as [|c t IH]; [reflexivity|].
    cbn [forallb] in Hu. apply andb_true_iff in Hu as [Hc Hu].
    cbn [flat_map]. rewrite (IH Hu). apply slugUnit_range in Hc.
    destruct (N.eqb_spec 38 c); [lia|reflexivity]. }
  rewrite collapseRuns_fixed; auto; try discriminate.
  - assert (dropRun isHyphen w = w) as ->.
    { destruct w as [|c t]; [reflexivity|]. cbn [dropRun]. now rewrite Hs. }
    now apply dropTrailing_fixed.
  - intros c Hc. apply (proj1 (forallb_forall _ _) Hu) in Hc.
    unfold isSlugUnit in Hc. destruct (isHyphen c) eqn:Eh.
    + unfold isHyphen in Eh. apply N.eqb_eq in Eh. subst c. reflexivity.
    + rewrite orb_false_r in Hc. now rewrite Hc.
Qed.

(** X8.  The well-formed slugs are exactly the texts that [toRouteSlug]
    leaves as they are, and every route slug is one of them; so
    [toRouteSlug] applied twice is [toRouteSlug]. *)
Theorem toRouteSlug_fixed_points (s : jsstring) :
  (toRouteSlug s = s <-> wellFormedSlug s = true)
  /\ wellFormedSlug (toRouteSlug s) = true
  /\ toRouteSlug (toRouteSlug s) = toRouteSlug s.
Proof.
  pose proof (toRouteSlug_wellFormed s) as Hw.
  split; [split; [intros <-; exact Hw|apply wellFormedSlug_fixed]|].
  split; [exact Hw|apply wellFormedSlug_fixed, Hw].
Qed.

(** X9.  Every key of the content table is a well-formed slug, so each
    entry is the content of the folders whose text has that slug, among
    them the folder named by the key itself. *)
Theorem content_keys_are_slugs (key : jsstring)
    (entry : Content.ContentEntry) :
  In (key, entry) Content.PROJECT_CONTENT ->
  toRouteSlug key = key
  /\ Content.contentFor (toRouteSlug key) = entry.
Proof.
  intros Hin.
  assert (wellFormedSlug key = true /\ Content.contentFor key = entry)
    as [Hw Hc].
  { unfold Content.PROJECT_CONTENT in Hin. cbn [In] in Hin.
    repeat (destruct Hin as [Hin|Hin];
            [injection Hin as <- <-; split; reflexivity|]).
    destruct Hin. }
  assert (toRouteSlug key = key) as E by (apply wellFormedSlug_fixed, Hw).
  split; [exact E|]. now rewrite E.
Qed.

End SlugShape.

Lemma toRouteSlug_fixed_points_witness :
  RuntimeLaws asciiRuntime
  /\ (@toRouteSlug asciiRuntime (lit "high-fashion") = lit "high-fashion"
      <-> wellFormedSlug (lit "high-fashion") = true)
  /\ wellFormedSlug (@toRouteSlug asciiRuntime (lit "high-fashion")) = true
  /\ @toRouteSlug asciiRuntime (@toRouteSlug asciiRuntime (lit "high-fashion"))
     = @toRouteSlug asciiRuntime (lit "high-fashion").
Proof.
  split; [exact asciiRuntime_laws|].
  exact (@toRouteSlug_fixed_points asciiRuntime asciiRuntime_laws
           (lit "high-fashion")).
Defined.

Lemma sampleContentKey :
  In (lit "high-fashion",
      Content.contentEntry "High Fashion" "High Fashion Shoot"
        "High Fashion Shoot"
        "An exploration of clean silhouettes and intentional movement.")
    Content.PROJECT_CONTENT.
Proof. do 4 right. left. reflexivity. Qed.

Lemma content_keys_are_slugs_witness :
  RuntimeLaws asciiRuntime
  /\ In (lit "high-fashion",
         Content.contentEntry "High Fashion" "High Fashion Shoot"
           "High Fashion Shoot"
           "An exploration of clean silhouettes and intentional movement.")
       Content.PROJECT_CONTENT
  /\ @toRouteSlug asciiRuntime (lit "high-fashion") = lit "high-fashion"
  /\ Content.contentFor (@toRouteSlug asciiRuntime (lit "high-fashion"))
     = Content.contentEntry "High Fashion" "High Fashion Shoot"
         "High Fashion Shoot"
         "An exploration of clean silhouettes and intentional movement.".
Proof.
  split; [exact asciiRuntime_laws|]. split; [exact sampleContentKey|].
  exact (@content_keys_are_slugs asciiRuntime asciiRuntime_laws _ _
           sampleContentKey).
Defined.

(** ** Titles and texts *)

Section Titles.

Import Content.

Lemma matchAt_plus (p : N -> bool) (i : nat) (c : N) (t : jsstring) :
  matchAt (RPlus p) i (c :: t)
  = if p c
    then Some (MState (S i + List.length (takeRun p t)) (dropRun p t) [])
    else None.
Proof.
  unfold matchAt. cbn [rmatch pos rest caps].
  destruct (p c) eqn:Hc.
  - rewrite plusLoop_longest by (auto; discriminate). reflexivity.
  - now apply plusLoop_stop.
Qed.

Lemma nonEmpty_rev (s : jsstring) : nonEmpty (rev s) = nonEmpty s.
Proof.
  destruct s as [|c t]; [reflexivity|]. cbn [rev nonEmpty].
  now destruct (rev t).
Qed.

Lemma splitWalk_words (p : N -> bool) (s : jsstring) :
  (forall i cur,
     filter nonEmpty (splitWalk (RPlus p) i 0 cur s) = wordsFrom p cur s)
  /\ (forall i,
        filter nonEmpty
          (splitWalk (RPlus p) i (List.length (takeRun p s)) [] s)
        = wordsFrom p [] s).
Proof.
  induction s as [|c t [IH1 IH2]].
  - split; intros i; [intros cur|]; cbn [splitWalk filter wordsFrom rev];
      [|reflexivity].
    rewrite nonEmpty_rev. now destruct cur.
  - assert (forall i cur,
              filter nonEmpty (splitWalk (RPlus p) i 0 cur (c :: t))
              = wordsFrom p cur (c :: t)) as H1.
    { intros i cur. cbn [splitWalk wordsFrom]. rewrite matchAt_plus.
      destruct (p c) eqn:Hc; [|apply IH1].
      cbn [pos].
      replace (S i + List.length (takeRun p t) - i)
        with (S (List.length (takeRun p t))) by lia.
      cbn [filter]. rewrite nonEmpty_rev, IH2. now destruct cur. }
    split; [exact H1|].
    intros i. cbn [takeRun]. destruct (p c) eqn:Hc.
    + cbn [List.length splitWalk wordsFrom]. rewrite Hc. apply IH2.
    + cbn [List.length]. apply H1.
Qed.

Lemma split_words (p : N -> bool) (s : jsstring) :
  filter nonEmpty (splitRe (RPlus p) s) = wordsOf p s.
Proof.
  destruct s as [|c t]; [reflexivity|].
  unfold splitRe, wordsOf. apply splitWalk_words.
Qed.

Lemma wordsFrom_words (p : N -> bool) (s : jsstring) :
  forall cur,
    forallb (fun c => negb (p c)) cur = true ->
    Forall (fun w => w <> [] /\ forallb (fun c => negb (p c)) w = true)
      (wordsFrom p cur s)
    /\ concat (wordsFrom p cur s) = rev cur ++ filter (fun c => negb (p c)) s.
Proof.
  assert (forall cur, forallb (fun c => negb (p c)) cur = true ->
            forallb (fun c => negb (p c)) (rev cur) = true) as Hrev.
  { intros cur H. apply forallb_forall. intros x Hx.
    apply (proj1 (forallb_forall _ _) H), in_rev, Hx. }
  induction s as [|c t IH]; intros cur Hcur; cbn [wordsFrom filter].
  - destruct cur as [|x u]; [split; [constructor|reflexivity]|].
    split; [|cbn [concat]; now rewrite !app_nil_r].
    constructor; [|constructor]. split; [|now apply Hrev].
    cbn [rev]. now destruct (rev u).
  - destruct (p c) eqn:Hc; cbn [negb].
    + destruct (IH [] eq_refl) as [Hw Hcat]. cbn [rev app] in Hcat.
      destruct cur as [|x u]; [split; [exact Hw|exact Hcat]|].
      split; [|cbn [concat]; now rewrite Hcat].
      constructor; [|exact Hw]. split; [|now apply Hrev].
      cbn [rev]. now destruct (rev u).
    + destruct (IH (c :: cur)) as [Hw Hcat].
      { cbn [forallb]. now rewrite Hc, Hcur. }
      split; [exact Hw|]. rewrite Hcat. cbn [rev]. now rewrite <- app_assoc.
Qed.

Context {U : UpperCase}.

(** X10.  The title made from a folder text is its words, each with its
    first code unit put in upper case, joined by single spaces; the
    words are the maximal runs of code units other than white space,
    underscores and hyphens, so none is empty, and together they hold
    the code units of the text outside that class, in order. A text
    without any word gives the empty title. *)
Theorem toTitleCase_words (value : jsstring) :
  toTitleCase value
  = join (lit " ") (map capitalize (wordsOf isWordBreak value))
  /\ Forall (fun w => w <> []
                      /\ forallb (fun c => negb (isWordBreak c)) w = true)
       (wordsOf isWordBreak value)
  /\ concat (wordsOf isWordBreak value)
     = filter (fun c => negb (isWordBreak c)) value
  /\ (forallb isWordBreak value = true -> toTitleCase value = []).
Proof.
  unfold toTitleCase. rewrite split_words.
  destruct (wordsFrom_words isWordBreak value [] eq_refl) as [Hw Hcat].
  split; [reflexivity|]. split; [exact Hw|]. split; [exact Hcat|].
  intros Hall. unfold wordsOf in *.
  assert (filter (fun c => negb (isWordBreak c)) value = []) as Hnone.
  { clear Hw Hcat. induction value as [|c t IH]; [reflexivity|].
    cbn [forallb] in Hall. apply andb_true_iff in Hall as [Hc Ht].
    cbn [filter]. rewrite Hc. cbn [negb]. auto. }
  rewrite Hnone in Hcat. cbn [rev app] in Hcat.
  destruct (wordsFrom isWordBreak [] value) as [|w ws]; [reflexivity|].
  inversion Hw as [|? ? [Hne _] _]; subst. cbn [concat] in Hcat.
  apply app_eq_nil in Hcat as [Hcat _]. contradiction.
Qed.

(** X11.  On a runtime whose [toUpperCase] is the ASCII one on ASCII, a
    text whose words all start with an ASCII code unit is titled by
    putting these code units in ASCII upper case and leaving the rest of
    each word as it is. *)
Theorem toTitleCase_ascii (value : jsstring) :
  UpperCaseLaws U ->
  Forall (fun w => isAscii (hd 0%N w) = true) (wordsOf isWordBreak value) ->
  toTitleCase value
  = join (lit " ")
      (map (fun w => asciiUpper (hd 0%N w) :: tl w) (wordsOf isWordBreak value)).
Proof.
  intros L Hascii. unfold toTitleCase. rewrite split_words. f_equal.
  destruct (wordsFrom_words isWordBreak value [] eq_refl) as [Hw _].
  fold (wordsOf isWordBreak value) in Hw.
  induction (wordsOf isWordBreak value) as [|w ws IH]; [reflexivity|].
  inversion Hw as [|? ? [Hne _] Hws]; subst.
  inversion Hascii as [|? ? Ha Has]; subst.
  cbn [map]. rewrite (IH Has Hws). f_equal.
  destruct w as [|c t]; [contradiction|].
  unfold capitalize. cbn [firstn hd tl] in *.
  rewrite (toUpperCase_ascii c Ha). reflexivity.
Qed.

Lemma contentFor_cases (slug : jsstring) :
  (~ In slug (map fst PROJECT_CONTENT)
   /\ contentFor slug
      = {| entryTitle := None; entryHeader := None; entryCategory := None;
           entrySubtext := None; entryDescription := None |})
  \/ In (slug, contentFor slug) PROJECT_CONTENT.
Proof.
  unfold contentFor.
  destruct (find (fun e => streq (fst e) slug) PROJECT_CONTENT)
    as [[k e]|] eqn:E.
  - right. destruct (find_first _ _ _ _ E) as (b & a & Hl & Hk & _).
    cbn [fst] in Hk. apply streq_eq in Hk. subst k. rewrite Hl.
    apply in_or_app. right. left. reflexivity.
  - left. split; [|reflexivity]. intros Hin.
    apply in_map_iff in Hin as ([k e] & Hk & Hin). cbn [fst] in Hk. subst k.
    pose proof (proj1 (find_none _ _ _) E _ Hin) as Hf. cbn [fst] in Hf.
    rewrite streq_refl in Hf. discriminate Hf.
Qed.

Context {R : Runtime}.

(** X12.  The texts of a project: the subtext is never set; the header
    is the category; category and description are always set and not
    empty; a folder whose route slug has no entry in the content table
    gets the title made from its folder text and the default category
    and description; and a folder whose route slug has an entry gets the
    title, category and description of that entry. *)
Theorem projectTexts_defaults (folderName : jsstring) :
  let folderSlug :=
    match exec SHOOT_FOLDER_RE folderName with
    | Some m => group 4 m
    | None => folderName
    end in
  let texts := projectTexts folderName in
  subtext texts = None
  /\ header texts = category texts
  /\ (exists c, category texts = Some c /\ c <> [])
  /\ (exists d, description texts = Some d /\ d <> [])
  /\ (title texts = toTitleCase folderSlug
      \/ In (toRouteSlug folderSlug) (map fst PROJECT_CONTENT))
  /\ (~ In (toRouteSlug folderSlug) (map fst PROJECT_CONTENT) ->
      title texts = toTitleCase folderSlug
      /\ category texts = entryCategory DEFAULT_PROJECT_CONTENT
      /\ description texts = entryDescription DEFAULT_PROJECT_CONTENT)
  /\ (forall entry,
        In (toRouteSlug folderSlug, entry) PROJECT_CONTENT ->
        entryTitle entry = Some (title texts)
        /\ entryCategory entry = category texts
        /\ entryDescription entry = description texts).
Proof.
  cbv zeta. unfold projectTexts.
  generalize (toTitleCase
                match exec SHOOT_FOLDER_RE folderName with
                | Some m => group 4 m
                | None => folderName
                end) as made.
  generalize (toRouteSlug
                match exec SHOOT_FOLDER_RE folderName with
                | Some m => group 4 m
                | None => folderName
                end) as slug.
  intros slug made.
  destruct (contentFor_cases slug) as [[Hnot ->] | Hin].
  - cbn [title header subtext category description entryTitle entryHeader
         entryCategory entrySubtext entryDescription orElse
         DEFAULT_PROJECT_CONTENT].
    split; [reflexivity|]. split; [reflexivity|].
    split; [eexists; split; [reflexivity|discriminate]|].
    split; [eexists; split; [reflexivity|discriminate]|].
    split; [now left|]. split; [intros _; repeat split|].
    intros entry Hin. exfalso. apply Hnot.
    apply (in_map fst) in Hin. exact Hin.
  - pose proof (in_map fst _ _ Hin) as Hkey. cbn [fst] in Hkey.
    assert (forall entry, In (slug, entry) PROJECT_CONTENT ->
              entry = contentFor slug) as Huniq.
    { intros entry He. unfold PROJECT_CONTENT in He. cbn [In] in He.
      repeat (destruct He as [He|He];
              [injection He as <- <-; reflexivity|]).
      destruct He. }
    revert Hin Huniq. generalize (contentFor slug) as found.
    intros found Hin Huniq.
    assert (entrySubtext found = None
            /\ entryHeader found = entryCategory found
            /\ (exists t, entryTitle found = Some t)
            /\ (exists c, entryCategory found = Some c /\ c <> [])
            /\ (exists d, entryDescription found = Some d /\ d <> []))
      as (Hs & Hh & (t & Ht) & (c & Hc & Hc') & (d & Hd & Hd')).
    { unfold PROJECT_CONTENT in Hin. cbn [In] in Hin.
      repeat (destruct Hin as [Hin|Hin];
              [injection Hin as _ <-;
               split; [reflexivity|]; split; [reflexivity|];
               split; [eexists; reflexivity|];
               split; eexists; (split; [reflexivity|discriminate])|]).
      destruct Hin. }
    cbn [title header subtext category description].
    rewrite Hs, Hh, Ht, Hc, Hd.
    cbn [orElse entrySubtext DEFAULT_PROJECT_CONTENT].
    split; [reflexivity|]. split; [reflexivity|].
    split; [now exists c|]. split; [now exists d|].
    split; [now right|]. split; [intros Hnot; contradiction|].
    intros entry He. rewrite (Huniq entry He), Ht, Hc, Hd. repeat split.
Qed.

End Titles.

Lemma asciiUpperCase_laws : Content.UpperCaseLaws Content.asciiUpperCase.
Proof. constructor. reflexivity. Qed.

Lemma toTitleCase_ascii_witness :
  Content.UpperCaseLaws Content.asciiUpperCase
  /\ Forall (fun w => isAscii (hd 0%N w) = true)
       (Content.wordsOf Content.isWordBreak (lit "lifestyle-shoot"))
  /\ @Content.toTitleCase Content.asciiUpperCase (lit "lifestyle-shoot")
     = Content.join (lit " ")
         (map (fun w => asciiUpper (hd 0%N w) :: tl w)
            (Content.wordsOf Content.isWordBreak (lit "lifestyle-shoot"))).
Proof.
  assert (Forall (fun w => isAscii (hd 0%N w) = true)
            (Content.wordsOf Content.isWordBreak (lit "lifestyle-shoot")))
    as H by (repeat constructor).
  split; [exact asciiUpperCase_laws|]. split; [exact H|].
  exact (@toTitleCase_ascii Content.asciiUpperCase (lit "lifestyle-shoot")
           asciiUpperCase_laws H).
Defined.

(** The title of the folder text [lifestyle-shoot], and of a text with
    doubled and leading separators. *)
Example titles :
  @Content.toTitleCase Content.asciiUpperCase (lit "lifestyle-shoot")
  = lit "Lifestyle Shoot"
  /\ @Content.toTitleCase Content.asciiUpperCase (lit "__high--fashion shoot_")
     = lit "High Fashion Shoot".
Proof. split; reflexivity. Qed.

(** ** Normalization and the route pattern *)

Section RouteNormalization.

Context {R : Runtime}.

Lemma normalizePathname_idem (p : jsstring) :
  normalizePathname (normalizePathname p) = normalizePathname p.
Proof.
  destruct (normalizePathname_cases p) as [-> | (r & -> & Hr & Hlast & _)];
    [reflexivity|].
  now apply normalizePathname_fixed.
Qed.

Lemma normalizePathname_slashed (r : jsstring) :
  r <> [] ->
  normalizePathname (47%N :: r)
  = match dropTrailing isSlash (47%N :: r) with
    | [] => lit "/"
    | c :: t => c :: t
    end.
Proof.
  intros Hr. unfold normalizePathname.
  destruct r as [|e r2]; [congruence|].
  cbn [streq lit map list_ascii_of_string startsWith andb].
  change (N_of_ascii "/") with 47%N. cbn [N.eqb Pos.eqb andb].
  unfold replace. rewrite replace_trailing. reflexivity.
Qed.

Lemma lastIs_app (p : N -> bool) (s t : jsstring) :
  t <> [] -> lastIs p (s ++ t) = lastIs p t.
Proof.
  intros Ht. induction s as [|c s IH]; [reflexivity|].
  cbn [app lastIs]. destruct (s ++ t) as [|d u] eqn:E; [|exact IH].
  destruct s; [cbn in E; contradiction|discriminate].
Qed.

Lemma lastIs_outside (p : N -> bool) (s : jsstring) :
  forallb (fun c => negb (p c)) s = true -> lastIs p s = false.
Proof.
  induction s as [|c t IH]; [reflexivity|].
  cbn [forallb lastIs]. intros H. apply andb_true_iff in H as [Hc Ht].
  destruct t; [now apply negb_true_iff in Hc|auto].
Qed.

Lemma dropTrailing_snoc (p : N -> bool) (s : jsstring) (c : N) :
  s <> [] -> lastIs p s = false -> p c = true ->
  dropTrailing p (s ++ [c]) = s.
Proof.
  intros Hs Hl Hc. induction s as [|x t IH]; [contradiction|].
  cbn [app dropTrailing]. destruct t as [|y u].
  - cbn [lastIs] in Hl. cbn [app forallb dropTrailing].
    now rewrite Hl, Hc.
  - assert (lastIs p (y :: u) = false) as Hl' by exact Hl.
    rewrite IH by (try discriminate; exact Hl').
    destruct (forallb p ((y :: u) ++ [c])) eqn:E; [|now rewrite andb_false_r].
    rewrite forallb_app in E. apply andb_true_iff in E as [E _].
    rewrite forallb_lastIs in Hl'; [discriminate Hl'|discriminate|exact E].
Qed.

Lemma normalizePathname_route (pathname seg : jsstring) :
  portfolioShape pathname seg ->
  normalizePathname pathname = PROJECT_PATH_PREFIX ++ seg.
Proof.
  intros (Hne & Hns & Hp).
  assert (lastIs isSlash (PROJECT_PATH_PREFIX ++ seg) = false) as Hlast.
  { rewrite lastIs_app by exact Hne. apply lastIs_outside, Hns. }
  destruct Hp as [-> | ->].
  - apply (normalizePathname_fixed (lit "portfolio/" ++ seg));
      [discriminate|exact Hlast].
  - rewrite app_assoc.
    change ((PROJECT_PATH_PREFIX ++ seg) ++ lit "/")
      with (47%N :: (lit "portfolio/" ++ seg) ++ [47%N]).
    rewrite normalizePathname_slashed by discriminate.
    change (47%N :: (lit "portfolio/" ++ seg) ++ [47%N])
      with ((PROJECT_PATH_PREFIX ++ seg) ++ [47%N]).
    rewrite dropTrailing_snoc; [reflexivity|discriminate|exact Hlast|reflexivity].
Qed.

Lemma getProjectSlugFromPathname_normalized (pathname slug : jsstring) :
  getProjectSlugFromPathname pathname = Some slug ->
  getProjectSlugFromPathname (normalizePathname pathname) = Some slug
  /\ isProjectRoute pathname = true
  /\ isProjectRoute (normalizePathname pathname) = true.
Proof.
  rewrite !getProjectSlugFromPathname_segment.
  destruct (routeSegment pathname) as [seg|] eqn:E; [|discriminate].
  intros H. apply routeSegment_shape in E.
  rewrite (normalizePathname_route _ _ E).
  assert (portfolioShape (PROJECT_PATH_PREFIX ++ seg) seg) as E'.
  { destruct E as (Hne & Hns & _). repeat split; auto. }
  apply routeSegment_shape in E'. rewrite E'.
  split; [exact H|]. unfold isProjectRoute.
  split; apply startsWith_app.
  - destruct E as (_ & _ & [-> | ->]); eexists; reflexivity.
  - eexists; reflexivity.
Qed.

(** X13.  A path that the route pattern accepts is routed alike before
    and after normalization: the same slug is read from it, the same
    project is selected and the same view is shown. So the first render
    and a move through the history, which both store the normalized
    path, show the page of the address in the address bar. *)
Theorem route_survives_normalization (Loader : Type)
    (allShoots : list (Project Loader)) (pathname slug : jsstring) :
  getProjectSlugFromPathname pathname = Some slug ->
  getProjectSlugFromPathname (normalizePathname pathname) = Some slug
  /\ selectedProject allShoots (normalizePathname pathname)
     = selectedProject allShoots pathname
  /\ view allShoots (normalizePathname pathname) = view allShoots pathname
  /\ view allShoots (Navigation.pathname (Navigation.initialState pathname))
     = view allShoots pathname.
Proof.
  intros H.
  destruct (getProjectSlugFromPathname_normalized _ _ H) as (Hn & Hr & Hr').
  assert (selectedProject allShoots (normalizePathname pathname)
          = selectedProject allShoots pathname) as Hs
    by (unfold selectedProject; now rewrite Hn, H).
  assert (view allShoots (normalizePathname pathname) = view allShoots pathname)
    as Hv by (unfold view; now rewrite Hr, Hr', Hs).
  repeat split; assumption.
Qed.

End RouteNormalization.

Lemma route_survives_normalization_witness :
  @getProjectSlugFromPathname asciiRuntime (lit "/portfolio/Editorial/")
  = Some (lit "editorial")
  /\ @getProjectSlugFromPathname asciiRuntime
       (normalizePathname (lit "/portfolio/Editorial/"))
     = Some (lit "editorial")
  /\ @selectedProject asciiRuntime nat (@shoots asciiRuntime nat samplePhotos)
       (normalizePathname (lit "/portfolio/Editorial/"))
     = @selectedProject asciiRuntime nat (@shoots asciiRuntime nat samplePhotos)
         (lit "/portfolio/Editorial/")
  /\ @view asciiRuntime nat (@shoots asciiRuntime nat samplePhotos)
       (normalizePathname (lit "/portfolio/Editorial/"))
     = @view asciiRuntime nat (@shoots asciiRuntime nat samplePhotos)
         (lit "/portfolio/Editorial/")
  /\ @view asciiRuntime nat (@shoots asciiRuntime nat samplePhotos)
       (Navigation.pathname (Navigation.initialState (lit "/portfolio/Editorial/")))
     = @view asciiRuntime nat (@shoots asciiRuntime nat samplePhotos)
         (lit "/portfolio/Editorial/").
Proof.
  split; [reflexivity|].
  exact (@route_survives_normalization asciiRuntime nat
           (@shoots asciiRuntime nat samplePhotos)
           (lit "/portfolio/Editorial/") (lit "editorial") eq_refl).
Defined.

(** ** Encoding a slug and reading it back *)

Section UriRoundTrip.

Ltac ranges :=
  unfold isCont, isDigit, isHighSurrogate, isLowSurrogate, inRange in *;
  repeat match goal with
         | H : _ && _ = true |- _ => apply andb_true_iff in H as [? ?]
         | H : N.leb _ _ = true |- _ => apply N.leb_le in H
         | H : N.leb _ _ = false |- _ => apply N.leb_gt in H
         | H : N.ltb _ _ = true |- _ => apply N.ltb_lt in H
         | H : N.ltb _ _ = false |- _ => apply N.ltb_ge in H
         end.

Lemma six_bits (x : N) :
  (x = 64 * (x / 64) + x mod 64 /\ x mod 64 < 64)%N.
Proof.
  split; [apply N.div_mod; lia | apply N.mod_lt; lia].
Qed.

Lemma hexVal_hexDigit (n : N) :
  (n < 16)%N -> hexVal (hexDigit n) = Some n.
Proof.
  intros H. unfold hexDigit, hexVal, isDigit, inRange.
  destruct (N.ltb_spec n 10).
  - destruct (N.leb_spec 48 (48 + n)); [|lia].
    destruct (N.leb_spec (48 + n) 57); [|lia].
    cbn [andb]. f_equal. lia.
  - destruct (N.leb_spec (55 + n) 57); [lia|]. rewrite andb_false_r.
    destruct (N.leb_spec 65 (55 + n)); [|lia].
    destruct (N.leb_spec (55 + n) 70); [|lia].
    cbn [andb]. f_equal. lia.
Qed.

Lemma decodeFrom_octet (need : nat) (acc : list N) (b : N) (t : jsstring) :
  (b < 256)%N ->
  decodeFrom (DWantHigh need acc) (hexDigit (b / 16) :: hexDigit (b mod 16) :: t)
  = match octetRead need acc b with
    | Some (out, st') => option_map (app out) (decodeFrom st' t)
    | None => None
    end.
Proof.
  intros Hb. cbn [decodeFrom].
  pose proof (N.div_mod b 16) as E. pose proof (N.mod_lt b 16) as Hl.
  remember (b / 16)%N as h eqn:Eh. remember (b mod 16)%N as l eqn:El.
  clear Eh El.
  rewrite !hexVal_hexDigit by lia.
  replace (16 * h + l)%N with b by lia. reflexivity.
Qed.

Lemma decodeFrom_first (b : N) (t : jsstring) :
  (b < 256)%N ->
  decodeFrom DPlain (percent b ++ t)
  = match octetRead 0 [] b with
    | Some (out, st') => option_map (app out) (decodeFrom st' t)
    | None => None
    end.
Proof.
  intros Hb. unfold percent. cbn [app].
  change (decodeFrom DPlain (37%N :: ?x)) with (decodeFrom (DWantHigh 0 []) x).
  now apply decodeFrom_octet.
Qed.

Lemma decodeFrom_next (need : nat) (acc : list N) (b : N) (t : jsstring) :
  (b < 256)%N ->
  decodeFrom (DWantPercent need acc) (percent b ++ t)
  = match octetRead need acc b with
    | Some (out, st') => option_map (app out) (decodeFrom st' t)
    | None => None
    end.
Proof.
  intros Hb. unfold percent. cbn [app].
  change (decodeFrom (DWantPercent need acc) (37%N :: ?x))
    with (decodeFrom (DWantHigh need acc) x).
  now apply decodeFrom_octet.
Qed.

Lemma leadingOnes_range (b : N) :
  leadingOnes b
  = if N.ltb b 128 then 0 else if N.ltb b 192 then 1
    else if N.ltb b 224 then 2 else if N.ltb b 240 then 3
    else if N.ltb b 248 then 4 else 5.
Proof. reflexivity. Qed.

Lemma decode_one (c : N) (t : jsstring) :
  (c < 128)%N ->
  decodeFrom DPlain (flat_map percent (utf8 c) ++ t)
  = option_map (cons c) (decodeFrom DPlain t).
Proof.
  intros Hc. unfold utf8. destruct (N.ltb_spec c 128); [|lia].
  cbn [flat_map]. rewrite app_nil_r, decodeFrom_first by lia.
  unfold octetRead, leadingOnes. destruct (N.ltb_spec c 128); [|lia].
  reflexivity.
Qed.

Lemma decode_two (c : N) (t : jsstring) :
  (128 <= c < 2048)%N ->
  decodeFrom DPlain (flat_map percent (utf8 c) ++ t)
  = option_map (cons c) (decodeFrom DPlain t).
Proof.
  intros Hc. unfold utf8. destruct (N.ltb_spec c 128); [lia|].
  destruct (N.ltb_spec c 2048); [|lia].
  cbn [flat_map]. rewrite app_nil_r, <- app_assoc.
  destruct (six_bits c) as [E0 L0].
  remember (c / 64)%N as q0 eqn:Eq0. remember (c mod 64)%N as r0 eqn:Er0.
  clear Eq0 Er0.
  set (b0 := (192 + q0)%N). set (b1 := (128 + r0)%N).
  assert (192 <= b0 < 224)%N as Hb0 by (subst b0; lia).
  assert (128 <= b1 < 192)%N as Hb1 by (subst b1; lia).
  assert ((b0 - 192) * 64 + (b1 - 128) = c)%N as Hcp by (subst b0 b1; lia).
  clearbody b0 b1. clear E0 L0.
  rewrite decodeFrom_first by lia.
  unfold octetRead at 1, leadingOnes.
  destruct (N.ltb_spec b0 128); [lia|]. destruct (N.ltb_spec b0 192); [lia|].
  destruct (N.ltb_spec b0 224); [|lia].
  cbn [option_map app]. rewrite decodeFrom_next by lia.
  unfold octetRead, decodeUtf8. cbn [app]. rewrite Hcp.
  unfold isCont, inRange.
  destruct (N.leb_spec 128 b1); [|lia]. destruct (N.leb_spec b1 191); [|lia].
  destruct (N.leb_spec 128 c); [|lia]. cbn [andb].
  unfold utf16. destruct (N.ltb_spec c 65536); [|lia].
  destruct (decodeFrom DPlain t); reflexivity.
Qed.

Lemma decode_three (c : N) (t : jsstring) :
  (2048 <= c < 65536)%N -> inRange 55296 57343 c = false ->
  decodeFrom DPlain (flat_map percent (utf8 c) ++ t)
  = option_map (cons c) (decodeFrom DPlain t).
Proof.
  intros Hc Hs. unfold utf8. destruct (N.ltb_spec c 128); [lia|].
  destruct (N.ltb_spec c 2048); [lia|]. destruct (N.ltb_spec c 65536); [|lia].
  cbn [flat_map]. rewrite app_nil_r, <- !app_assoc.
  destruct (six_bits c) as [E0 L0]. destruct (six_bits (c / 64)) as [E1 L1].
  rewrite N.Div0.div_div in E1. change (64 * 64)%N with 4096%N in E1.
  remember ((c / 64) mod 64)%N as r1 eqn:Er1.
  remember (c / 4096)%N as q1 eqn:Eq1.
  remember (c / 64)%N as q0 eqn:Eq0. remember (c mod 64)%N as r0 eqn:Er0.
  clear Er1 Eq1 Eq0 Er0.
  set (b0 := (224 + q1)%N). set (b1 := (128 + r1)%N).
  set (b2 := (128 + r0)%N).
  assert (224 <= b0 < 240)%N as Hb0 by (subst b0; lia).
  assert (128 <= b1 < 192)%N as Hb1 by (subst b1; lia).
  assert (128 <= b2 < 192)%N as Hb2 by (subst b2; lia).
  assert ((b0 - 224) * 4096 + (b1 - 128) * 64 + (b2 - 128) = c)%N as Hcp
    by (subst b0 b1 b2; lia).
  clearbody b0 b1 b2. clear E0 L0 E1 L1.
  rewrite decodeFrom_first by lia.
  unfold octetRead at 1, leadingOnes.
  destruct (N.ltb_spec b0 128); [lia|]. destruct (N.ltb_spec b0 192); [lia|].
  destruct (N.ltb_spec b0 224); [lia|]. destruct (N.ltb_spec b0 240); [|lia].
  cbn [option_map app]. rewrite decodeFrom_next by lia.
  unfold octetRead at 1. cbn [option_map app].
  rewrite decodeFrom_next by lia.
  unfold octetRead, decodeUtf8. cbn [app]. rewrite Hcp, Hs.
  unfold isCont, inRange.
  destruct (N.leb_spec 128 b1); [|lia]. destruct (N.leb_spec b1 191); [|lia].
  destruct (N.leb_spec 128 b2); [|lia]. destruct (N.leb_spec b2 191); [|lia].
  destruct (N.leb_spec 2048 c); [|lia]. cbn [andb negb].
  unfold utf16. destruct (N.ltb_spec c 65536); [|lia].
  destruct (decodeFrom DPlain t); reflexivity.
Qed.

Lemma decode_four (c d : N) (t : jsstring) :
  isHighSurrogate c = true -> isLowSurrogate d = true ->
  decodeFrom DPlain
    (flat_map percent
       (utf8 (65536 + (c - 55296) * 1024 + (d - 56320))%N) ++ t)
  = option_map (fun r => c :: d :: r) (decodeFrom DPlain t).
Proof.
  intros Hc Hd. ranges.
  set (cp := (65536 + (c - 55296) * 1024 + (d - 56320))%N).
  assert (65536 <= cp <= 1114111)%N as Hr by (subst cp; lia).
  assert ((cp - 65536) / 1024 = c - 55296
          /\ (cp - 65536) mod 1024 = d - 56320)%N as [Eh El].
  { replace (cp - 65536)%N with ((d - 56320) + (c - 55296) * 1024)%N
      by (subst cp; lia).
    rewrite N.div_add, N.Div0.mod_add by lia.
    rewrite N.div_small, N.mod_small by lia. split; lia. }
  clearbody cp.
  unfold utf8. destruct (N.ltb_spec cp 128); [lia|].
  destruct (N.ltb_spec cp 2048); [lia|]. destruct (N.ltb_spec cp 65536); [lia|].
  cbn [flat_map]. rewrite app_nil_r, <- !app_assoc.
  destruct (six_bits cp) as [E0 L0]. destruct (six_bits (cp / 64)) as [E1 L1].
  destruct (six_bits (cp / 4096)) as [E2 L2].
  rewrite N.Div0.div_div in E1. change (64 * 64)%N with 4096%N in E1.
  rewrite N.Div0.div_div in E2. change (4096 * 64)%N with 262144%N in E2.
  remember ((cp / 4096) mod 64)%N as r2 eqn:Er2.
  remember (cp / 262144)%N as q2 eqn:Eq2.
  remember ((cp / 64) mod 64)%N as r1 eqn:Er1.
  remember (cp / 4096)%N as q1 eqn:Eq1.
  remember (cp / 64)%N as q0 eqn:Eq0. remember (cp mod 64)%N as r0 eqn:Er0.
  clear Er2 Eq2 Er1 Eq1 Eq0 Er0.
  set (b0 := (240 + q2)%N). set (b1 := (128 + r2)%N).
  set (b2 := (128 + r1)%N). set (b3 := (128 + r0)%N).
  assert (240 <= b0 < 248)%N as Hb0 by (subst b0; lia).
  assert (128 <= b1 < 192)%N as Hb1 by (subst b1; lia).
  assert (128 <= b2 < 192)%N as Hb2 by (subst b2; lia).
  assert (128 <= b3 < 192)%N as Hb3 by (subst b3; lia).
  assert ((b0 - 240) * 262144 + (b1 - 128) * 4096 + (b2 - 128) * 64
          + (b3 - 128) = cp)%N as Hcp by (subst b0 b1 b2 b3; lia).
  clearbody b0 b1 b2 b3. clear E0 L0 E1 L1 E2 L2.
  rewrite decodeFrom_first by lia.
  unfold octetRead at 1, leadingOnes.
  destruct (N.ltb_spec b0 128); [lia|]. destruct (N.ltb_spec b0 192); [lia|].
  destruct (N.ltb_spec b0 224); [lia|]. destruct (N.ltb_spec b0 240); [lia|].
  destruct (N.ltb_spec b0 248); [|lia].
  cbn [option_map app]. rewrite decodeFrom_next by lia.
  unfold octetRead at 1. cbn [option_map app].
  rewrite decodeFrom_next by lia.
  unfold octetRead at 1. cbn [option_map app].
  rewrite decodeFrom_next by lia.
  unfold octetRead, decodeUtf8. cbn [app]. rewrite Hcp.
  unfold isCont, inRange.
  destruct (N.leb_spec 128 b1); [|lia]. destruct (N.leb_spec b1 191); [|lia].
  destruct (N.leb_spec 128 b2); [|lia]. destruct (N.leb_spec b2 191); [|lia].
  destruct (N.leb_spec 128 b3); [|lia]. destruct (N.leb_spec b3 191); [|lia].
  destruct (N.leb_spec 65536 cp); [|lia].
  destruct (N.leb_spec cp 1114111); [|lia]. cbn [andb].
  unfold utf16. destruct (N.ltb_spec cp 65536); [lia|].
  rewrite Eh, El.
  replace (55296 + (c - 55296))%N with c by lia.
  replace (56320 + (d - 56320))%N with d by lia.
  destruct (decodeFrom DPlain t); reflexivity.
Qed.

Lemma unescaped_plain (c : N) : isUnescaped c = true -> N.eqb c 37 = false.
Proof.
  intros H. destruct (N.eqb_spec c 37) as [->|]; [discriminate H|reflexivity].
Qed.

(** [decodeURIComponent] undoes [encodeURIComponent] on strings of
    UTF-16 code units. *)
Lemma decode_encode (s : jsstring) :
  forall e,
    forallb (fun c => N.ltb c 65536) s = true ->
    encodeURIComponent s = Some e ->
    decodeFrom DPlain e = Some s.
Proof.
  assert (forall n (s : jsstring), List.length s < n ->
            forall e, forallb (fun c => N.ltb c 65536) s = true ->
                      encodeURIComponent s = Some e ->
                      decodeFrom DPlain e = Some s) as H.
  { induction n as [|n IH]; intros s0 Hlen e Hu He; [lia|].
    destruct s0 as [|c t]; [injection He as <-; reflexivity|].
    cbn [List.length] in Hlen. cbn [forallb] in Hu.
    apply andb_true_iff in Hu as [Hc Hu]. apply N.ltb_lt in Hc.
    cbn [encodeURIComponent] in He.
    destruct (isUnescaped c) eqn:Hun.
    - destruct (encodeURIComponent t) as [e'|] eqn:Et; [|discriminate].
      injection He as <-. cbn [decodeFrom]. rewrite (unescaped_plain _ Hun).
      rewrite (IH t) with (e := e') by (auto; lia). reflexivity.
    - destruct (isLowSurrogate c) eqn:Hlow; [discriminate|].
      destruct (isHighSurrogate c) eqn:Hhigh.
      + destruct t as [|d t']; [discriminate|].
        destruct (isLowSurrogate d) eqn:Hd; [|discriminate].
        destruct (encodeURIComponent t') as [e'|] eqn:Et; [|discriminate].
        cbn [option_map] in He.
        assert (e = flat_map percent
                      (utf8 (65536 + (c - 55296) * 1024 + (d - 56320))%N)
                    ++ e') as -> by congruence.
        rewrite decode_four by assumption.
        cbn [forallb] in Hu. apply andb_true_iff in Hu as [_ Hu].
        cbn [List.length] in Hlen.
        rewrite (IH t') with (e := e') by (auto; lia). reflexivity.
      + destruct (encodeURIComponent t) as [e'|] eqn:Et; [|discriminate].
        injection He as <-.
        assert (inRange 55296 57343 c = false) as Hs.
        { unfold isLowSurrogate, isHighSurrogate, inRange in *.
          destruct (N.leb_spec 55296 c); [|reflexivity].
          destruct (N.leb_spec c 57343); [|reflexivity]. cbn [andb] in *.
          destruct (N.leb_spec c 56319); [discriminate Hhigh|].
          destruct (N.leb_spec 56320 c); [discriminate Hlow|lia]. }
        destruct (N.lt_ge_cases c 128);
          [|destruct (N.lt_ge_cases c 2048)].
        * rewrite decode_one by assumption.
          rewrite (IH t) with (e := e') by (auto; lia). reflexivity.
        * rewrite decode_two by lia.
          rewrite (IH t) with (e := e') by (auto; lia). reflexivity.
        * rewrite decode_three by (auto; lia).
          rewrite (IH t) with (e := e') by (auto; lia). reflexivity. }
  intros e. apply (H (S (List.length s))). lia.
Qed.

Lemma encode_segment (s : jsstring) :
  forall e,
    encodeURIComponent s = Some e ->
    forallb (fun c => negb (isSlash c)) e = true
    /\ (s <> [] -> e <> []).
Proof.
  assert (forall b, forallb (fun c => negb (isSlash c)) (percent b) = true)
    as Hpercent.
  { intros b. unfold percent. cbn [forallb]. rewrite andb_true_r.
    apply andb_true_iff. split; [reflexivity|].
    assert (forall n, negb (isSlash (hexDigit n)) = true) as Hh.
    { intros n. unfold hexDigit, isSlash.
      apply negb_true_iff, N.eqb_neq. destruct (N.ltb n 10); lia. }
    now rewrite !Hh. }
  assert (forall bs, forallb (fun c => negb (isSlash c)) (flat_map percent bs)
                     = true) as Hflat.
  { induction bs as [|b bs IH]; [reflexivity|].
    cbn [flat_map]. now rewrite forallb_app, Hpercent, IH. }
  assert (forall cp, flat_map percent (utf8 cp) <> []) as Hne.
  { intros cp. unfold utf8.
    destruct (N.ltb cp 128); [discriminate|].
    destruct (N.ltb cp 2048); [discriminate|].
    destruct (N.ltb cp 65536); discriminate. }
  assert (forall n (s : jsstring), List.length s < n ->
            forall e, encodeURIComponent s = Some e ->
                      forallb (fun c => negb (isSlash c)) e = true
                      /\ (s <> [] -> e <> [])) as H.
  { induction n as [|n IH]; intros s0 Hlen e He; [lia|].
    destruct s0 as [|c t]; [injection He as <-; split; [reflexivity|auto]|].
    cbn [List.length] in Hlen. cbn [encodeURIComponent] in He.
    destruct (isUnescaped c) eqn:Hun.
    - destruct (encodeURIComponent t) as [e'|] eqn:Et; [|discriminate].
      injection He as <-. destruct (IH t) with (e := e') as [He' _];
        [lia|exact Et|].
      split; [|discriminate]. cbn [forallb]. rewrite He', andb_true_r.
      unfold isSlash. apply negb_true_iff, N.eqb_neq. intros <-.
      discriminate Hun.
    - destruct (isLowSurrogate c); [discriminate|].
      destruct (isHighSurrogate c).
      + destruct t as [|d t']; [discriminate|].
        destruct (isLowSurrogate d); [|discriminate].
        destruct (encodeURIComponent t') as [e'|] eqn:Et; [|discriminate].
        cbn [option_map] in He.
        assert (e = flat_map percent
                      (utf8 (65536 + (c - 55296) * 1024 + (d - 56320))%N)
                    ++ e') as -> by congruence.
        cbn [List.length] in Hlen.
        destruct (IH t') with (e := e') as [He' _]; [lia|exact Et|].
        split; [now rewrite forallb_app, Hflat, He'|].
        intros _ E. apply app_eq_nil in E as [E _]. now apply Hne in E.
      + destruct (encodeURIComponent t) as [e'|] eqn:Et; [|discriminate].
        injection He as <-.
        destruct (IH t) with (e := e') as [He' _]; [lia|exact Et|].
        split; [now rewrite forallb_app, Hflat, He'|].
        intros _ E. apply app_eq_nil in E as [E _]. now apply Hne in E. }
  intros e. apply (H (S (List.length s))). lia.
Qed.

Context {R : Runtime}.

(** X14.  The path built for any non-empty slug is read back as that
    slug in lower case, whatever code units the slug holds; it is a
    project route in normal form. There is no path exactly when the
    encoding of the slug fails. *)
Theorem getProjectPath_read_back (slug : jsstring) :
  slug <> [] ->
  forallb (fun c => N.ltb c 65536) slug = true ->
  match getProjectPath slug with
  | Some path =>
      getProjectSlugFromPathname path = Some (toLowerCase slug)
      /\ normalizePathname path = path
      /\ isProjectRoute path = true
  | None => encodeURIComponent slug = None
  end.
Proof.
  intros Hne Hu. unfold getProjectPath.
  destruct (encodeURIComponent slug) as [e|] eqn:He; [|reflexivity].
  cbn [option_map].
  destruct (encode_segment slug e He) as [Hseg Hne'].
  specialize (Hne' Hne).
  assert (portfolioShape (PROJECT_PATH_PREFIX ++ e) e) as Hshape.
  { split; [exact Hne'|]. split; [exact Hseg|now left]. }
  split; [|split].
  - rewrite getProjectSlugFromPathname_segment.
    rewrite (proj2 (routeSegment_shape _ _) Hshape).
    unfold decodeURIComponent. now rewrite (decode_encode slug e Hu He).
  - apply (normalizePathname_route _ _ Hshape).
  - unfold isProjectRoute. apply startsWith_app. eexists. reflexivity.
Qed.

End UriRoundTrip.

Lemma getProjectPath_read_back_witness :
  lit "Beauty & Portraits" <> []
  /\ forallb (fun c => N.ltb c 65536) (lit "Beauty & Portraits") = true
  /\ match getProjectPath (lit "Beauty & Portraits") with
     | Some path =>
         @getProjectSlugFromPathname asciiRuntime path
         = Some (@toLowerCase asciiRuntime (lit "Beauty & Portraits"))
         /\ normalizePathname path = path
         /\ isProjectRoute path = true
     | None => encodeURIComponent (lit "Beauty & Portraits") = None
     end.
Proof.
  assert (lit "Beauty & Portraits" <> []) as H by discriminate.
  split; [exact H|]. split; [reflexivity|].
  exact (@getProjectPath_read_back asciiRuntime (lit "Beauty & Portraits")
           H eq_refl).
Defined.

(** ** The position in the slider and its counters *)

Section SliderIndex.

Import Counters Navigation.

Variable Loader : Type.
Variable allShoots : list (Project Loader).

Lemma wrap_mod (r n : Z) :
  (0 < n)%Z -> Z.rem (Z.rem r n + n) n = (r mod n)%Z.
Proof.
  intros Hn.
  assert (Z.abs (Z.rem r n) < n)%Z as Hb.
  { pose proof (Z.rem_bound_abs r n). lia. }
  rewrite Z.rem_mod_nonneg by lia.
  rewrite Z.add_mod, Z.mod_same, Z.add_0_r, Z.mod_mod by lia.
  pose proof (Z.quot_rem' r n) as E.
  rewrite E at 2. rewrite Z.add_comm, Z.mul_comm. now rewrite Z_mod_plus_full.
Qed.

Lemma wrapped_index (z : Z) :
  allShoots <> [] ->
  jsRem (jsAdd (jsRem (Fin z) (shootsLength allShoots)) (shootsLength allShoots))
    (shootsLength allShoots)
  = Fin (z mod Z.of_nat (List.length allShoots)).
Proof.
  intros Hne. unfold shootsLength.
  assert (0 < Z.of_nat (List.length allShoots))%Z as Hn.
  { destruct allShoots; [contradiction|cbn [List.length]; lia]. }
  cbn [jsRem jsAdd].
  destruct (Z.eqb_spec (Z.of_nat (List.length allShoots)) 0); [lia|].
  cbn [jsAdd jsRem].
  destruct (Z.eqb_spec (Z.of_nat (List.length allShoots)) 0); [lia|].
  now rewrite wrap_mod.
Qed.

Lemma shootAt_in_range (i : Z) :
  (0 <= i < Z.of_nat (List.length allShoots))%Z ->
  exists p, shootAt allShoots (Fin i) = Some p /\ In p allShoots.
Proof.
  intros Hi. unfold shootAt.
  destruct (Z.ltb_spec i 0); [lia|].
  destruct (nth_error allShoots (Z.to_nat i)) as [p|] eqn:E.
  - exists p. split; [reflexivity|]. eapply nth_error_In, E.
  - apply nth_error_None in E. lia.
Qed.

Lemma getValidSwiperIndex_resolved (st : State) (swiper : option Swiper) :
  allShoots <> [] ->
  getValidSwiperIndex allShoots st swiper
  = Fin (resolvedIndex st swiper mod Z.of_nat (List.length allShoots)).
Proof.
  intros Hne. rewrite <- wrapped_index by exact Hne.
  unfold getValidSwiperIndex, resolvedIndex.
  destruct allShoots as [|p l] eqn:El; [contradiction|].
  destruct swiper as [[[| | |r] [| | |a]]|];
    destruct (activeWorkIndex st); reflexivity.
Qed.

(** X15.  With no project [getValidSwiperIndex] answers -1 whatever the
    slider reports. Otherwise it answers an index of [shoots]: the first
    finite one of the slider's real index, the slider's active index and
    the stored index (0 when none is finite), reduced modulo the number
    of projects, also when it is negative or past the end; an index
    already in range is returned as it is, and a project stands at the
    index returned. *)
Theorem getValidSwiperIndex_range (st : State) (swiper : option Swiper) :
  (allShoots = [] /\ getValidSwiperIndex allShoots st swiper = Fin (-1))
  \/ (allShoots <> []
      /\ exists i,
           getValidSwiperIndex allShoots st swiper = Fin i
           /\ (0 <= i < Z.of_nat (List.length allShoots))%Z
           /\ i = (resolvedIndex st swiper mod Z.of_nat (List.length allShoots))%Z
           /\ ((0 <= resolvedIndex st swiper < Z.of_nat (List.length allShoots))%Z ->
               i = resolvedIndex st swiper)
           /\ exists p, shootAt allShoots (Fin i) = Some p /\ In p allShoots).
Proof.
  destruct allShoots as [|p l] eqn:El; [left; split; reflexivity|].
  right. split; [discriminate|]. rewrite <- El.
  assert (allShoots <> []) as Hne by (rewrite El; discriminate).
  assert (0 < Z.of_nat (List.length allShoots))%Z as Hn.
  { rewrite El. cbn [List.length]. lia. }
  eexists. split; [apply getValidSwiperIndex_resolved, Hne|].
  pose proof (Z.mod_pos_bound (resolvedIndex st swiper) _ Hn) as Hb.
  split; [exact Hb|]. split; [reflexivity|].
  split; [intros Hr; apply Z.mod_small, Hr|].
  apply shootAt_in_range, Hb.
Qed.

End SliderIndex.

Section CounterValues.

Import Counters.

Lemma digitsFrom_spec (fuel : nat) :
  forall (n : N) (acc : jsstring),
    (n < 2 ^ N.of_nat fuel)%N -> fuel <> 0 ->
    exists pre,
      digitsFrom fuel n acc = pre ++ acc
      /\ pre <> []
      /\ forallb isDigit pre = true
      /\ (forall z, fold_left digitStep pre z
                    = (z * 10 ^ Z.of_nat (List.length pre) + Z.of_N n)%Z)
      /\ ((n < 10)%N -> List.length pre = 1)
      /\ ((10 <= n)%N -> 2 <= List.length pre)
      /\ ((0 < n)%N -> hd 48%N pre <> 48%N).
Proof.
  induction fuel as [|f IH]; intros n acc Hn Hf; [contradiction|].
  cbn [digitsFrom]. {
    assert (n mod 10 < 10)%N as Hm by (apply N.mod_lt; lia).
    assert (isDigit (48 + n mod 10) = true) as Hd.
    { unfold isDigit, inRange. generalize dependent (n mod 10)%N. intros d Hd.
      apply andb_true_iff. split; apply N.leb_le; lia. }
    destruct (N.ltb_spec n 10) as [Hlt|Hge].
    + exists [(48 + n mod 10)%N]. rewrite N.mod_small by exact Hlt.
      rewrite N.mod_small in Hd by exact Hlt.
      repeat split; try discriminate; try lia.
      * cbn [forallb]. now rewrite Hd.
      * intros z. cbn [fold_left List.length]. unfold digitStep. lia.
      * cbn [hd]. lia.
    + destruct (IH (n / 10)%N ((48 + n mod 10)%N :: acc)) as
        (pre & E & Hne & Hall & Hval & Hone & Htwo & Hlead).
      { replace (N.of_nat (S f)) with (N.succ (N.of_nat f)) in Hn by lia.
        rewrite N.pow_succ_r' in Hn.
        apply N.Div0.div_lt_upper_bound. lia. }
      { intros ->. cbn in Hn. lia. }
      exists (pre ++ [(48 + n mod 10)%N]).
      split; [rewrite E, <- app_assoc; reflexivity|].
      split; [destruct pre; discriminate|].
      split; [rewrite forallb_app, Hall; cbn [forallb]; now rewrite Hd|].
      assert (0 < n / 10)%N as Hq.
      { apply N.div_str_pos. lia. }
      split; [|split; [lia|split]].
      * intros z. rewrite fold_left_app, Hval. cbn [fold_left].
        unfold digitStep. rewrite length_app. cbn [List.length].
        replace (Z.of_nat (List.length pre + 1)) with (Z.succ (Z.of_nat (List.length pre))) by lia.
        rewrite Z.pow_succ_r by lia.
        pose proof (N.div_mod n 10) as Ed.
        assert (Z.of_N n = 10 * Z.of_N (n / 10) + Z.of_N (n mod 10))%Z by lia.
        lia.
      * intros _. rewrite length_app. cbn [List.length].
        destruct pre; [contradiction|cbn [List.length]; lia].
      * intros _. specialize (Hlead Hq).
        destruct pre; [contradiction|exact Hlead]. }
Qed.

Lemma decimal_spec (n : N) :
  decimal n <> []
  /\ forallb isDigit (decimal n) = true
  /\ fold_left digitStep (decimal n) 0%Z = Z.of_N n
  /\ ((n < 10)%N -> List.length (decimal n) = 1)
  /\ ((10 <= n)%N -> 2 <= List.length (decimal n))
  /\ ((0 < n)%N -> hd 48%N (decimal n) <> 48%N).
Proof.
  unfold decimal.
  destruct (digitsFrom_spec (S (N.to_nat (N.log2 n))) n []) as
    (pre & E & Hne & Hall & Hval & Hone & Htwo & Hlead).
  { destruct (N.eq_dec n 0) as [->|Hz]; [reflexivity|].
    replace (N.of_nat (S (N.to_nat (N.log2 n)))) with (N.succ (N.log2 n)) by lia.
    apply N.log2_spec. lia. }
  { discriminate. }
  rewrite E, app_nil_r. repeat split; try assumption.
  rewrite Hval. lia.
Qed.

Lemma Number_fold (s : jsstring) :
  s <> [] -> forallb isDigit s = true ->
  Number s = Some (fold_left digitStep s 0%Z).
Proof.
  intros Hne Hall. unfold Number. destruct s; [contradiction|].
  now rewrite Hall.
Qed.

(** Below 2^53 a natural number is written with all its digits. *)
Lemma numberToString_safe (n : N) :
  (n < 2 ^ 53)%N -> numberToString (Fin (Z.of_N n)) = decimal n.
Proof.
  intros Hn. unfold numberToString, naturalToString.
  destruct (Z.ltb_spec (Z.of_N n) 0); [lia|].
  destruct (Z.ltb_spec (Z.of_N n) (2 ^ 53)); [now rewrite N2Z.id|].
  assert (Z.of_N n < Z.of_N (2 ^ 53))%Z as Hlt by lia.
  change (Z.of_N (2 ^ 53)) with (2 ^ 53)%Z in Hlt. lia.
Qed.

Lemma toCounterValue_cases (n : N) :
  (n < 2 ^ 53)%N ->
  toCounterValue (Fin (Z.of_N n))
  = if N.ltb n 10 then 48%N :: decimal n else decimal n.
Proof.
  intros Hn.
  destruct (decimal_spec n) as (Hne & _ & _ & Hone & Htwo & _).
  unfold toCounterValue, padStart. rewrite (numberToString_safe n Hn).
  destruct (N.ltb_spec n 10) as [Hlt|Hge].
  - rewrite (Hone Hlt). reflexivity.
  - specialize (Htwo Hge).
    destruct (Nat.leb_spec 2 (List.length (decimal n))); [reflexivity|lia].
Qed.

Lemma toCounterValue_spec (n : N) :
  (n < 2 ^ 53)%N ->
  Number (toCounterValue (Fin (Z.of_N n))) = Some (Z.of_N n)
  /\ 2 <= List.length (toCounterValue (Fin (Z.of_N n))).
Proof.
  intros Hn.
  destruct (decimal_spec n) as (Hne & Hall & Hval & Hone & Htwo & _).
  rewrite toCounterValue_cases by exact Hn.
  destruct (N.ltb_spec n 10) as [Hlt|Hge].
  - assert (forallb isDigit (48%N :: decimal n) = true) as Hall'.
    { cbn [forallb]. now rewrite Hall. }
    split; [|cbn [List.length]; rewrite (Hone Hlt); lia].
    rewrite Number_fold by (try discriminate; exact Hall').
    cbn [fold_left]. change (digitStep 0 48) with 0%Z. now rewrite Hval.
  - split; [|apply Htwo, Hge].
    rewrite Number_fold by assumption. now rewrite Hval.
Qed.

(** X16.  The counter text of a natural number below 2^53, the range in
    which every integer is a number of its own, is its decimal notation
    with one zero put before a single digit: it is made of digits only,
    it is at least two characters long and exactly two below 100, it has
    no leading zero from 10 on, and it reads back as the number. *)
Theorem toCounterValue_reads_back (n : N) :
  (n < 2 ^ 53)%N ->
  Number (toCounterValue (Fin (Z.of_N n))) = Some (Z.of_N n)
  /\ forallb isDigit (toCounterValue (Fin (Z.of_N n))) = true
  /\ 2 <= List.length (toCounterValue (Fin (Z.of_N n)))
  /\ ((n < 100)%N -> List.length (toCounterValue (Fin (Z.of_N n))) = 2)
  /\ ((10 <= n)%N -> hd 48%N (toCounterValue (Fin (Z.of_N n))) <> 48%N).
Proof.
  intros Hn.
  destruct (toCounterValue_spec n Hn) as [Hnum Hlen].
  destruct (decimal_spec n) as (Hne & Hall & _ & Hone & _ & Hlead).
  split; [exact Hnum|]. split; [|split; [exact Hlen|]];
    rewrite toCounterValue_cases by exact Hn;
    destruct (N.ltb_spec n 10) as [Hlt|Hge].
  - cbn [forallb]. now rewrite Hall.
  - exact Hall.
  - split; [intros _; cbn [List.length]; now rewrite (Hone Hlt)|lia].
  - split; [|intros _; apply Hlead; lia].
    intros Hlt.
    assert (n / 10 < 10)%N as Hq by (apply N.Div0.div_lt_upper_bound; lia).
    unfold decimal.
    assert (exists f, S (N.to_nat (N.log2 n)) = S (S (S f))) as [f Ef].
    { assert (3 <= N.log2 n)%N.
      { change 3%N with (N.log2 8). apply N.log2_le_mono. lia. }
      exists (N.to_nat (N.log2 n) - 2). lia. }
    rewrite Ef. cbn [digitsFrom].
    destruct (N.ltb_spec n 10); [lia|].
    destruct (N.ltb_spec (n / 10) 10); [|lia].
    reflexivity.
Qed.

End CounterValues.

Lemma toCounterValue_reads_back_witness :
  (7 < 2 ^ 53)%N
  /\ Number (Counters.toCounterValue (Fin 7)) = Some 7%Z
  /\ forallb isDigit (Counters.toCounterValue (Fin 7)) = true
  /\ 2 <= List.length (Counters.toCounterValue (Fin 7))
  /\ ((7 < 100)%N -> List.length (Counters.toCounterValue (Fin 7)) = 2)
  /\ ((10 <= 7)%N -> hd 48%N (Counters.toCounterValue (Fin 7)) <> 48%N).
Proof.
  split; [reflexivity|].
  exact (toCounterValue_reads_back 7 eq_refl).
Defined.

(** Past 2^53 the digits are those of the shortest decimal that is
    read as the same number, and from 10^21 on an exponent is written. *)
Example numberToString_large :
  Counters.numberToString (Fin (2 ^ 53)) = lit "9007199254740992"
  /\ Counters.numberToString (Fin (2 ^ 60)) = lit "1152921504606847000"
  /\ Counters.numberToString (Fin (- 2 ^ 64)) = lit "-18446744073709552000"
  /\ Counters.numberToString (Fin (10 ^ 21)) = lit "1e+21"
  /\ Counters.numberToString (Fin (2 ^ 70)) = lit "1.1805916207174113e+21".
Proof. repeat split; vm_compute; reflexivity. Qed.

(** ** The router and the stored slider position *)

Section Router.

Import Counters Navigation.

Context {R : Runtime}.
Variable Loader : Type.
Variable photoLoaders : list (jsstring * Loader).
Variable hasElement : jsstring -> bool.

Lemma navigateTo_spec (nextPath : jsstring) (replace : bool) (st : State) :
  pathname (fst (navigateTo nextPath replace st)) = normalizePathname nextPath
  /\ normalizePathname (location (fst (navigateTo nextPath replace st)))
     = normalizePathname nextPath
  /\ pendingSectionId (fst (navigateTo nextPath replace st))
     = pendingSectionId st
  /\ isMenuOpen (fst (navigateTo nextPath replace st)) = isMenuOpen st
  /\ activeWorkIndex (fst (navigateTo nextPath replace st))
     = activeWorkIndex st
  /\ ((snd (navigateTo nextPath replace st) = []
       /\ normalizePathname (location st) = normalizePathname nextPath
       /\ location (fst (navigateTo nextPath replace st)) = location st)
      \/ (snd (navigateTo nextPath replace st)
          = [if replace then ReplaceState (normalizePathname nextPath)
             else PushState (normalizePathname nextPath)]
          /\ normalizePathname (location st) <> normalizePathname nextPath
          /\ location (fst (navigateTo nextPath replace st))
             = normalizePathname nextPath)).
Proof.
  unfold navigateTo.
  destruct (streq (normalizePathname (location st)) (normalizePathname nextPath))
    eqn:E; cbn [negb fst snd pathname location pendingSectionId isMenuOpen
                activeWorkIndex].
  - apply streq_eq in E. repeat split; auto.
  - apply streq_neq in E. repeat split; auto using normalizePathname_idem.
Qed.

Lemma findIndexFrom_find {A : Type} (f : A -> bool) (l : list A) :
  forall i : Z,
    match find f l with
    | Some x =>
        exists k : nat,
          findIndexFrom f i l = (i + Z.of_nat k)%Z
          /\ nth_error l k = Some x /\ k < List.length l
    | None => findIndexFrom f i l = (-1)%Z
    end.
Proof.
  induction l as [|x t IH]; intros i; [reflexivity|].
  cbn [find findIndexFrom]. destruct (f x).
  - exists 0. cbn [nth_error List.length]. repeat split; lia.
  - specialize (IH (i + 1)%Z). destruct (find f t) as [y|]; [|exact IH].
    destruct IH as (k & E & Hk & Hlt). exists (S k).
    cbn [nth_error List.length]. repeat split; [lia|exact Hk|lia].
Qed.

Lemma getValidSwiperIndex_kept (st : State) (swiper : option Swiper) :
  jsLt (getValidSwiperIndex (shoots photoLoaders) st swiper) (Fin 0) = false ->
  indexInRange (shoots photoLoaders) (getValidSwiperIndex (shoots photoLoaders) st swiper)
  /\ (shoots photoLoaders) <> [].
Proof.
  destruct (shoots photoLoaders) as [|p l] eqn:El; [discriminate|]. rewrite <- El.
  assert ((shoots photoLoaders) <> []) as Hne by (rewrite El; discriminate).
  intros _. rewrite getValidSwiperIndex_resolved by exact Hne.
  split; [|exact Hne].
  eexists. split; [reflexivity|].
  assert (0 < Z.of_nat (List.length (shoots photoLoaders)))%Z as Hn.
  { rewrite El. cbn [List.length]. lia. }
  pose proof (Z.mod_pos_bound (resolvedIndex st swiper) _ Hn). lia.
Qed.

Lemma initialIndex_kept (st : State) :
  indexInRange (shoots photoLoaders) (activeWorkIndex st) ->
  initialIndex (shoots photoLoaders) st = activeWorkIndex st.
Proof.
  intros (i & E & H0 & Hi). unfold initialIndex, shootsLength. rewrite E.
  cbn [jsAdd mathMax mathMin]. f_equal. lia.
Qed.

Lemma goToSection_index (st : State) (selected : Project Loader) :
  indexInRange (shoots photoLoaders) (activeWorkIndex st) ->
  indexInRange (shoots photoLoaders)
    (if (0 <=? findIndex (fun item => streq (id item) (id selected)) (shoots photoLoaders))%Z
     then Fin (findIndex (fun item => streq (id item) (id selected)) (shoots photoLoaders))
     else activeWorkIndex st).
Proof.
  intros Hi. unfold findIndex.
  pose proof (findIndexFrom_find
                (fun item => streq (id item) (id selected)) (shoots photoLoaders) 0) as H.
  destruct (find _ (shoots photoLoaders)).
  - destruct H as (k & -> & _ & Hk). cbn [Z.add].
    destruct (Z.leb_spec 0 (Z.of_nat k)); [|lia].
    exists (Z.of_nat k). repeat split; lia.
  - rewrite H. exact Hi.
Qed.

Ltac navigated H :=
  match goal with
  | |- context [navigateTo ?p ?r ?s] =>
      pose proof (navigateTo_spec p r s) as H;
      destruct (navigateTo p r s) as [? ?]; cbn [fst snd] in H
  | E : context [navigateTo ?p ?r ?s] |- _ =>
      pose proof (navigateTo_spec p r s) as H;
      destruct (navigateTo p r s) as [? ?]; cbn [fst snd] in H
  end.

Ltac quiet_effects :=
  repeat match goal with
         | |- context [if ?b then _ else _] => destruct b
         | |- context [match ?b with Some _ => _ | None => _ end] => destruct b
         end;
  let x := fresh "x" in
  let Hin := fresh "Hin" in
  intros x Hin; cbn [In app] in Hin;
  repeat (destruct Hin as [<-|Hin]); try contradiction; split; discriminate.

Lemma openProject_keeps (project : option (Project Loader))
    (st st' : State) (effects : list Effect) :
  openProject project st = Some (st', effects) ->
  pathname st = normalizePathname (location st) ->
  pathname st' = normalizePathname (location st')
  /\ activeWorkIndex st' = activeWorkIndex st.
Proof.
  unfold openProject. destruct project as [p|].
  - destruct (getProjectPath (routeSlug p)) as [projectPath|]; [|discriminate].
    intros H Hp. navigated Hn. injection H as <- <-.
    destruct Hn as (Hn1 & Hn2 & _ & _ & Hn5 & _).
    cbn [withMenuClosed activeWorkIndex] in Hn5. split; congruence.
  - intros H Hp. injection H as <- <-. auto.
Qed.

Lemma step_keeps (st st' : State) (e : Event) (effects : list Effect) :
  step (shoots photoLoaders) hasElement st e = Some (st', effects) ->
  pathname st = normalizePathname (location st)
  /\ indexInRange (shoots photoLoaders) (activeWorkIndex st) ->
  pathname st' = normalizePathname (location st')
  /\ indexInRange (shoots photoLoaders) (activeWorkIndex st').
Proof.
  intros H [Hp Hi]. destruct e; cbn [step] in H.
  - unfold goHome in H. navigated Hn. injection H as <- <-.
    destruct Hn as (Hn1 & Hn2 & _ & _ & Hn5 & _).
    cbn [withMenuClosed activeWorkIndex] in Hn5. split; congruence.
  - unfold goToSection in H.
    destruct (negb (streq (pathname st) (lit "/"))).
    + navigated Hn. injection H as <- <-.
      destruct Hn as (Hn1 & Hn2 & _ & _ & Hn5 & _).
      cbn [withMenuClosed activeWorkIndex] in Hn5.
      split; [congruence|]. rewrite Hn5.
      destruct (streq sectionId (lit "work")); [|exact Hi].
      destruct (selectedProject (shoots photoLoaders) (pathname st)); [|exact Hi].
      apply goToSection_index, Hi.
    + injection H as <- <-. cbn [withMenuClosed pathname location activeWorkIndex].
      auto.
  - destruct (openProject_keeps _ _ _ _ H Hp) as [H1 H2]. split; congruence.
  - unfold openActiveProject in H.
    destruct (jsLt (getValidSwiperIndex (shoots photoLoaders) st swiper) (Fin 0)).
    + injection H as <- <-. auto.
    + destruct (openProject_keeps _ _ _ _ H Hp) as [H1 H2]. split; congruence.
  - unfold handleWorkSlideChange in H.
    destruct (jsLt (getValidSwiperIndex (shoots photoLoaders) st swiper) (Fin 0)) eqn:E.
    + injection H as <- <-. auto.
    + injection H as <- <-. cbn [withActiveWorkIndex pathname location activeWorkIndex].
      split; [exact Hp|]. apply getValidSwiperIndex_kept, E.
  - injection H as <- <-. auto.
  - injection H as <- <-. unfold onMainSwiper. cbn [fst].
    cbn [withActiveWorkIndex pathname location activeWorkIndex].
    rewrite initialIndex_kept by exact Hi. auto.
  - injection H as <- <-. auto.
  - injection H as <- <-. cbn [withMenu pathname location activeWorkIndex]. auto.
  - injection H as <- <-. cbn [withMenu pathname location activeWorkIndex]. auto.
  - injection H as <- <-. cbn [handlePopState pathname location activeWorkIndex]. auto.
  - unfold scrollTimerFires in H.
    destruct (pendingSectionId st) as [[|c sectionId]|];
      try (injection H as <- <-; auto).
    destruct (streq (pathname st) (lit "/")); injection H as <- <-; auto.
Qed.

Lemma reachable_keeps (windowPathname : jsstring) (st : State) :
  Reachable (shoots photoLoaders) hasElement windowPathname st ->
  pathname st = normalizePathname (location st)
  /\ indexInRange (shoots photoLoaders) (activeWorkIndex st).
Proof.
  induction 1 as [|st st' e effects _ IH Hs].
  - split; [reflexivity|]. exists 0%Z. repeat split; lia.
  - exact (step_keeps _ _ _ _ Hs IH).
Qed.

(** X17.  In every state reached from the first render the stored path
    is the normalized path of the address bar, and it is itself in
    normal form. *)
Theorem pathname_tracks_location (windowPathname : jsstring) (st : State) :
  Reachable (shoots photoLoaders) hasElement windowPathname st ->
  pathname st = normalizePathname (location st)
  /\ normalizePathname (pathname st) = pathname st.
Proof.
  intros Hr. destruct (reachable_keeps _ _ Hr) as [Hp _].
  split; [exact Hp|]. rewrite Hp. apply normalizePathname_idem.
Qed.

Lemma safeWorkIndex_kept (st : State) :
  indexInRange (shoots photoLoaders) (activeWorkIndex st) ->
  safeWorkIndex (shoots photoLoaders) st = activeWorkIndex st
  /\ ((shoots photoLoaders) = [] -> activeWorkIndex st = Fin 0)
  /\ ((shoots photoLoaders) <> [] ->
      exists i p,
        activeWorkIndex st = Fin (Z.of_nat i)
        /\ nth_error (shoots photoLoaders) i = Some p
        /\ activeWorkProject (shoots photoLoaders) st = Some p).
Proof.
  intros (i & E & H0 & Hi). unfold activeWorkProject, safeWorkIndex.
  destruct (shoots photoLoaders) as [|q l] eqn:El.
  - cbn [List.length] in Hi. assert (i = 0%Z) as -> by lia.
    repeat split; auto. intros H. contradiction.
  - rewrite <- El in *.
    assert ((shoots photoLoaders) <> []) as Hne by (rewrite El; discriminate).
    assert (0 <= i < Z.of_nat (List.length (shoots photoLoaders)))%Z as Hb.
    { rewrite El in *. cbn [List.length] in *. lia. }
    rewrite E. cbn [isFinite]. rewrite wrapped_index by exact Hne.
    rewrite Z.mod_small by exact Hb.
    split; [reflexivity|]. split; [intros H; contradiction|]. intros _.
    destruct (shootAt_in_range _ (shoots photoLoaders) i Hb) as (p & Hp & _).
    exists (Z.to_nat i), p. rewrite Z2Nat.id by lia.
    split; [reflexivity|]. split; [|exact Hp].
    unfold shootAt in Hp. destruct (Z.ltb_spec i 0); [lia|exact Hp].
Qed.

(** X18.  In every state reached from the first render the stored slider
    position is a position of [shoots] (0 when there is no project): the
    index used for the display and the index a slider starts from are
    the stored one, and with at least one project the active project is
    the one at that position. *)
Theorem activeWorkIndex_valid (windowPathname : jsstring) (st : State) :
  Reachable (shoots photoLoaders) hasElement windowPathname st ->
  safeWorkIndex (shoots photoLoaders) st = activeWorkIndex st
  /\ initialIndex (shoots photoLoaders) st = activeWorkIndex st
  /\ ((shoots photoLoaders) = [] -> activeWorkIndex st = Fin 0)
  /\ ((shoots photoLoaders) <> [] ->
      exists i p,
        activeWorkIndex st = Fin (Z.of_nat i)
        /\ nth_error (shoots photoLoaders) i = Some p
        /\ activeWorkProject (shoots photoLoaders) st = Some p).
Proof.
  intros Hr. destruct (reachable_keeps _ _ Hr) as [_ Hi].
  destruct (safeWorkIndex_kept st Hi) as (H1 & H2 & H3).
  repeat split; auto using initialIndex_kept.
Qed.

(** X19.  The counter of the work section shows the position of the
    active project, counted from 1, over the number of projects, both in
    at least two digits; with no project it shows 00 over 00. *)
Theorem work_counters (windowPathname : jsstring) (st : State) :
  Reachable (shoots photoLoaders) hasElement windowPathname st ->
  (Z.of_nat (List.length (shoots photoLoaders)) < 2 ^ 32)%Z ->
  Number (totalWorkCounter (shoots photoLoaders))
  = Some (Z.of_nat (List.length (shoots photoLoaders)))
  /\ 2 <= List.length (totalWorkCounter (shoots photoLoaders))
  /\ 2 <= List.length (currentWorkCounter (shoots photoLoaders) st)
  /\ ((shoots photoLoaders) = [] ->
      currentWorkCounter (shoots photoLoaders) st = lit "00"
      /\ totalWorkCounter (shoots photoLoaders) = lit "00")
  /\ ((shoots photoLoaders) <> [] ->
      exists k p,
        Number (currentWorkCounter (shoots photoLoaders) st) = Some (Z.of_nat k)
        /\ 1 <= k <= List.length (shoots photoLoaders)
        /\ nth_error (shoots photoLoaders) (k - 1) = Some p
        /\ activeWorkProject (shoots photoLoaders) st = Some p).
Proof.
  intros Hr Hlen. destruct (reachable_keeps _ _ Hr) as [_ Hi].
  destruct (safeWorkIndex_kept st Hi) as (Hs & Hnil & Hcons).
  unfold totalWorkCounter, currentWorkCounter, shootsLength.
  rewrite Hs.
  destruct (toCounterValue_spec (N.of_nat (List.length (shoots photoLoaders))))
    as (Ht & Ht2); [lia|].
  rewrite nat_N_Z in Ht, Ht2.
  split; [exact Ht|]. split; [exact Ht2|].
  destruct (shoots photoLoaders) as [|q l] eqn:El.
  - split; [cbn; lia|]. split; [|intros H; contradiction].
    intros _. split; reflexivity.
  - rewrite <- El in *.
    destruct Hcons as (i & p & Ei & Hn & Hp); [rewrite El; discriminate|].
    rewrite Ei. cbn [jsAdd].
    assert (i < List.length (shoots photoLoaders)) as Hlt
      by (apply nth_error_Some; congruence).
    destruct (toCounterValue_spec (N.of_nat (S i))) as (Hc & Hc2); [lia|].
    rewrite nat_N_Z in Hc, Hc2.
    replace (Z.of_nat (S i)) with (Z.of_nat i + 1)%Z in Hc, Hc2 by lia.
    split; [exact Hc2|]. split; [rewrite El; discriminate|]. intros _.
    exists (S i), p.
    replace (Z.of_nat (S i)) with (Z.of_nat i + 1)%Z by lia.
    split; [exact Hc|].
    assert (i < List.length (shoots photoLoaders)) by (apply nth_error_Some; congruence).
    split; [lia|]. replace (S i - 1) with i by lia. auto.
Qed.

(** X20.  What a handler does to the history: it never replaces an
    entry; an entry it pushes is a normalized path other than the stored
    one, and becomes both the stored path and the address; and the
    stored path changes only when an entry is pushed or the browser
    moves through the history. *)
Theorem history_entries (windowPathname : jsstring) (st st' : State)
    (e : Event) (effects : list Effect) :
  Reachable (shoots photoLoaders) hasElement windowPathname st ->
  step (shoots photoLoaders) hasElement st e = Some (st', effects) ->
  (forall url, ~ In (ReplaceState url) effects)
  /\ (forall url, In (PushState url) effects ->
        url <> pathname st /\ pathname st' = url /\ location st' = url
        /\ normalizePathname url = url)
  /\ (pathname st' <> pathname st ->
        (exists url, In (PushState url) effects)
        \/ exists moved, e = PopState moved).
Proof.
  intros Hr Hs. destruct (reachable_keeps _ _ Hr) as [Hp _].
  assert (forall (project : option (Project Loader)) s s' effs,
            openProject project s = Some (s', effs) ->
            pathname s = normalizePathname (location s) ->
            (forall url, ~ In (ReplaceState url) effs)
            /\ (forall url, In (PushState url) effs ->
                  url <> pathname s /\ pathname s' = url /\ location s' = url
                  /\ normalizePathname url = url)
            /\ (pathname s' <> pathname s ->
                  exists url, In (PushState url) effs)) as Hopen.
  { intros project s s' effs H Hps. unfold openProject in H.
    destruct project as [p|].
    - destruct (getProjectPath (routeSlug p)) as [projectPath|]; [|discriminate].
      navigated Hn. injection H as <- <-.
      destruct Hn as (Hn1 & _ & _ & _ & _ & [(-> & Hn6 & _) | (-> & Hn6 & Hn7)]);
        cbn [withMenuClosed location] in Hn6.
      + split; [intros url [H|[]]; discriminate|].
        split; [intros url [H|[]]; discriminate|].
        intros Hd. exfalso. apply Hd. congruence.
      + cbn [app]. split; [intros url [H|[H|[]]]; discriminate|].
        split; [|intros _; eexists; left; reflexivity].
        intros url [H|[H|[]]]; [|discriminate]. injection H as <-.
        repeat split; auto using normalizePathname_idem.
        intros Hsame. apply Hn6.
        change (normalizePathname (lit "/")) with (lit "/") in *. congruence.
    - injection H as <- <-. split; [intros url []|].
      split; [intros url []|]. intros Hd. now exfalso. }
  assert (forall effs : list Effect,
            (forall x, In x effs ->
               (forall url, x <> ReplaceState url)
               /\ (forall url, x <> PushState url)) ->
            pathname st' = pathname st ->
            (forall url, ~ In (ReplaceState url) effs)
            /\ (forall url, In (PushState url) effs ->
                  url <> pathname st /\ pathname st' = url /\ location st' = url
                  /\ normalizePathname url = url)
            /\ (pathname st' <> pathname st ->
                  (exists url, In (PushState url) effs)
                  \/ exists moved, e = PopState moved)) as Hquiet.
  { intros effs Hx Heq.
    split; [intros url Hin; destruct (Hx _ Hin) as [H1 _];
            exact (H1 url eq_refl)|].
    split; [intros url Hin; destruct (Hx _ Hin) as [_ H2];
            destruct (H2 url eq_refl)|].
    intros Hd. now exfalso. }
  destruct e; cbn [step] in Hs.
  - unfold goHome in Hs. navigated Hn. injection Hs as <- <-.
    destruct Hn as (Hn1 & _ & _ & _ & _ & [(-> & Hn6 & _) | (-> & Hn6 & Hn7)]);
      cbn [withMenuClosed location] in Hn6.
    + apply Hquiet; [quiet_effects|congruence].
    + cbn [app]. split; [intros url [H|[H|[]]]; discriminate|].
      split; [|intros _; left; eexists; left; reflexivity].
      intros url [H|[H|[]]]; [|discriminate]. injection H as <-.
      repeat split; auto using normalizePathname_idem.
      intros Hsame. apply Hn6.
      change (normalizePathname (lit "/")) with (lit "/") in *. congruence.
  - unfold goToSection in Hs.
    destruct (negb (streq (pathname st) (lit "/"))).
    + navigated Hn. injection Hs as <- <-.
      destruct Hn as (Hn1 & _ & _ & _ & _ & [(-> & Hn6 & _) | (-> & Hn6 & Hn7)]);
        cbn [withMenuClosed location] in Hn6.
      * apply Hquiet; [quiet_effects|congruence].
      * split; [intros url [H|[]]; discriminate|].
        split; [|intros _; left; eexists; left; reflexivity].
        intros url [H|[]]. injection H as <-.
        repeat split; auto using normalizePathname_idem.
        intros Hsame. apply Hn6.
        change (normalizePathname (lit "/")) with (lit "/") in *. congruence.
    + injection Hs as <- <-. apply Hquiet; [quiet_effects|reflexivity].
  - destruct (Hopen _ _ _ _ Hs Hp) as (H1 & H2 & H3).
    split; [exact H1|]. split; [exact H2|]. intros Hd. left. exact (H3 Hd).
  - unfold openActiveProject in Hs.
    destruct (jsLt (getValidSwiperIndex (shoots photoLoaders) st swiper) (Fin 0)).
    + injection Hs as <- <-. apply Hquiet; [quiet_effects|reflexivity].
    + destruct (Hopen _ _ _ _ Hs Hp) as (H1 & H2 & H3).
      split; [exact H1|]. split; [exact H2|]. intros Hd. left. exact (H3 Hd).
  - unfold handleWorkSlideChange in Hs.
    destruct (jsLt (getValidSwiperIndex (shoots photoLoaders) st swiper) (Fin 0));
      injection Hs as <- <-; (apply Hquiet; [quiet_effects|reflexivity]).
  - unfold onBackgroundSwiper in Hs. injection Hs as <- <-.
    apply Hquiet; [quiet_effects|reflexivity].
  - unfold onMainSwiper in Hs. injection Hs as <- <-.
    apply Hquiet; [|reflexivity].
    cbn [refreshWorkSliderLayout app]. quiet_effects.
  - injection Hs as <- <-. apply Hquiet; [|reflexivity].
    destruct swiper; cbn [refreshWorkSliderLayout]; quiet_effects.
  - injection Hs as <- <-. apply Hquiet; [quiet_effects|reflexivity].
  - injection Hs as <- <-. apply Hquiet; [quiet_effects|reflexivity].
  - injection Hs as <- <-. split; [intros url []|]. split; [intros url []|].
    intros _. right. eexists. reflexivity.
  - unfold scrollTimerFires in Hs.
    destruct (pendingSectionId st) as [[|c sectionId]|];
      try (injection Hs as <- <-; apply Hquiet; [quiet_effects|reflexivity]).
    destruct (streq (pathname st) (lit "/")); injection Hs as <- <-;
      (apply Hquiet; [quiet_effects|reflexivity]).
Qed.

End Router.

(** ** Opening a project and going back *)

Section Opening.

Import Counters Navigation.

Context {R : Runtime}.
Variable Loader : Type.
Variable photoLoaders : list (jsstring * Loader).
Variable hasElement : jsstring -> bool.

Lemma shoots_slug_units (p : Project Loader) :
  In p (shoots photoLoaders) -> forallb isSlugUnit (routeSlug p) = true.
Proof.
  intros Hp. destruct (shoots_built Loader photoLoaders p Hp) as [_ Hb].
  destruct (buildShoot_fields Loader _ _ _ Hb) as (_ & _ & _ & _ & -> & _).
  apply toRouteSlug_units.
Qed.

Lemma slug_no_slash (s : jsstring) :
  forallb isSlugUnit s = true ->
  forallb (fun c => negb (isSlash c)) s = true.
Proof.
  apply forallb_impl. intros c Hc. apply slugUnit_range in Hc.
  unfold isSlash. apply negb_true_iff, N.eqb_neq. lia.
Qed.

Lemma shoots_ids_NoDup :
  NoDup (map (@id Loader) (shoots photoLoaders)).
Proof.
  unfold shoots, builtShoots, sortedFolders. apply builtShoots_ids.
  apply (Permutation_NoDup (l := map fst (fst (grouped photoLoaders)))).
  - symmetry. apply Permutation_map, sort_perm.
  - unfold grouped.
    apply (fold_collect_keys Loader photoLoaders ([], [])); constructor.
Qed.

Lemma NoDup_map_eq {A B : Type} (f : A -> B) (l : list A) (a b : A) :
  NoDup (map f l) -> In a l -> In b l -> f a = f b -> a = b.
Proof.
  induction l as [|x t IH]; intros Hn Ha Hb E; [destruct Ha|].
  cbn [map] in Hn. inversion Hn as [|? ? Hx Hn']; subst.
  destruct Ha as [-> | Ha], Hb as [-> | Hb]; auto.
  - exfalso. apply Hx. rewrite E. now apply in_map.
  - exfalso. apply Hx. rewrite <- E. now apply in_map.
Qed.

Lemma openProject_navigates (p : Project Loader) (st : State) :
  forallb isSlugUnit (routeSlug p) = true ->
  exists st' effects,
    openProject (Some p) st = Some (st', effects)
    /\ pathname st' = normalizePathname (PROJECT_PATH_PREFIX ++ routeSlug p)
    /\ pendingSectionId st' = None
    /\ isMenuOpen st' = false
    /\ activeWorkIndex st' = activeWorkIndex st
    /\ In (ScrollToTop false) effects.
Proof.
  intros Hu. unfold openProject, getProjectPath.
  rewrite (encodeURIComponent_slug _ Hu). cbn [option_map].
  pose proof (navigateTo_spec (PROJECT_PATH_PREFIX ++ routeSlug p) false
                (withMenuClosed None (activeWorkIndex st) st)) as Hn.
  destruct (navigateTo _ _ _) as [st' effects]. cbn [fst snd] in Hn.
  destruct Hn as (H1 & _ & H3 & H4 & H5 & _).
  exists st', (effects ++ [ScrollToTop false]).
  repeat split; auto. apply in_or_app. right. left. reflexivity.
Qed.

(** X21.  A project without a route slug, built from a folder whose name
    has no letter or digit after the date, cannot be opened:
    [openProject] goes to [/portfolio], which is no project route, and
    the main view stays. *)
Theorem openProject_without_slug (p : Project Loader) (st : State) :
  In p (shoots photoLoaders) ->
  routeSlug p = [] ->
  exists st' effects,
    openProject (Some p) st = Some (st', effects)
    /\ pathname st' = lit "/portfolio"
    /\ getProjectSlugFromPathname (pathname st') = None
    /\ view (shoots photoLoaders) (pathname st') = MainView Loader.
Proof.
  intros _ Hs.
  destruct (openProject_navigates p st) as (st' & effects & H & Hp & _);
    [rewrite Hs; reflexivity|].
  exists st', effects. rewrite Hp, Hs. repeat split; auto.
Qed.

Section Laws.

Context (L : RuntimeLaws R).

(** X22.  Opening a project that has a route slug shows a project page:
    the stored path becomes [/portfolio/<slug>], the menu is closed, no
    section is pending, the page is scrolled to the top, and the detail
    view shows the first project with that slug, which is the opened
    project when no two projects share a slug. *)
Theorem openProject_shows_project (p : Project Loader) (st : State) :
  In p (shoots photoLoaders) ->
  routeSlug p <> [] ->
  exists st' effects q,
    openProject (Some p) st = Some (st', effects)
    /\ pathname st' = PROJECT_PATH_PREFIX ++ routeSlug p
    /\ pendingSectionId st' = None
    /\ isMenuOpen st' = false
    /\ activeWorkIndex st' = activeWorkIndex st
    /\ In (ScrollToTop false) effects
    /\ view (shoots photoLoaders) (pathname st') = ProjectDetailView q
    /\ routeSlug q = routeSlug p
    /\ (exists before after,
          shoots photoLoaders = before ++ q :: after
          /\ forall r, In r before -> routeSlug r <> routeSlug p)
    /\ (NoDup (map (@routeSlug Loader) (shoots photoLoaders)) -> q = p).
Proof.
  intros Hin Hne. pose proof (shoots_slug_units p Hin) as Hu.
  destruct (openProject_navigates p st Hu)
    as (st' & effects & H & Hp & Hpend & Hmenu & Hidx & Hscroll).
  assert (portfolioShape (PROJECT_PATH_PREFIX ++ routeSlug p) (routeSlug p))
    as Hshape.
  { split; [exact Hne|]. split; [apply slug_no_slash, Hu|now left]. }
  rewrite (normalizePathname_route _ _ Hshape) in Hp.
  destruct (slug_roundtrip L (routeSlug p) Hne Hu) as [_ Hslug].
  pose proof (selectedProject_find L Loader (shoots photoLoaders) _ _ Hslug)
    as Hsel.
  destruct (find (fun item => streq (routeSlug item) (routeSlug p))
              (shoots photoLoaders)) as [q|] eqn:Ef.
  - destruct (find_first _ _ _ _ Ef) as (before & after & Hl & Hq & Hb).
    apply streq_eq in Hq.
    exists st', effects, q. rewrite Hp.
    repeat split; auto.
    + unfold view, isProjectRoute.
      rewrite (proj2 (startsWith_app _ _)) by (eexists; reflexivity).
      cbn [negb]. now rewrite Hsel.
    + exists before, after. split; [exact Hl|].
      intros r Hr. apply streq_neq. auto.
    + intros Hn. eapply NoDup_map_eq; eauto.
      rewrite Hl. apply in_or_app. right. left. reflexivity.
  - exfalso. pose proof (proj1 (find_none _ _ _) Ef p Hin) as Hf.
    cbv beta in Hf. now rewrite streq_refl in Hf.
Qed.

End Laws.

(** X23.  Going back from a project page: [goToSection("work")] on the
    page of a project returns to the root path with one pushed history
    entry, with the work section pending and the slider positioned on
    the project that was shown; when the timer fires it asks for the
    scroll to the section, if the section exists, and nothing is pending
    or armed afterwards. *)
Theorem back_to_work (windowPathname : jsstring) (st : State)
    (q : Project Loader) :
  Reachable (shoots photoLoaders) hasElement windowPathname st ->
  view (shoots photoLoaders) (pathname st) = ProjectDetailView q ->
  exists st1 st2,
    goToSection (shoots photoLoaders) hasElement (lit "work") st
    = (st1, [PushState (lit "/")])
    /\ pathname st1 = lit "/"
    /\ view (shoots photoLoaders) (pathname st1) = MainView Loader
    /\ isMenuOpen st1 = false
    /\ pendingSectionId st1 = Some (lit "work")
    /\ scrollTimerArmed st1 = true
    /\ activeWorkProject (shoots photoLoaders) st1 = Some q
    /\ scrollTimerFires hasElement st1
       = (st2, if hasElement (lit "work") then [ScrollIntoView (lit "work")]
               else [])
    /\ pathname st2 = lit "/"
    /\ pendingSectionId st2 = None
    /\ scrollTimerArmed st2 = false
    /\ activeWorkProject (shoots photoLoaders) st2 = Some q.
Proof.
  intros Hr Hv. destruct (reachable_keeps _ _ _ _ _ Hr) as [Hp _].
  unfold view in Hv.
  destruct (isProjectRoute (pathname st)) eqn:Hroute; [|discriminate].
  cbn [negb] in Hv.
  destruct (selectedProject (shoots photoLoaders) (pathname st)) as [q'|] eqn:Hsel;
    [|discriminate].
  injection Hv as ->.
  assert (In q (shoots photoLoaders)) as Hin.
  { unfold selectedProject in Hsel.
    destruct (getProjectSlugFromPathname (pathname st)) as [[|c slug]|];
      try discriminate.
    destruct (find_first _ _ _ _ Hsel) as (before & after & -> & _).
    apply in_or_app. right. left. reflexivity. }
  assert (streq (pathname st) (lit "/") = false) as Hroot.
  { apply streq_neq. intros E. rewrite E in Hroute. discriminate. }
  pose proof (findIndexFrom_find
                (fun item => streq (id item) (id q)) (shoots photoLoaders) 0)
    as Hfind.
  destruct (find (fun item => streq (id item) (id q)) (shoots photoLoaders))
    as [q'|] eqn:Ef.
  2:{ exfalso. pose proof (proj1 (find_none _ _ _) Ef q Hin) as Hf.
      cbv beta in Hf. now rewrite streq_refl in Hf. }
  destruct Hfind as (k & Hk & Hnth & Hlt).
  assert (q' = q) as ->.
  { destruct (find_first _ _ _ _ Ef) as (before & after & Hl & Hq & _).
    apply streq_eq in Hq.
    apply (NoDup_map_eq (@id Loader) (shoots photoLoaders));
      auto using shoots_ids_NoDup.
    rewrite Hl. apply in_or_app. right. left. reflexivity. }
  cbn [Z.add] in Hk.
  set (st0 := withMenuClosed (Some (lit "work")) (Fin (Z.of_nat k)) st).
  assert (goToSection (shoots photoLoaders) hasElement (lit "work") st
          = navigateTo (lit "/") false st0) as Ego.
  { unfold goToSection. rewrite Hroot. cbn [negb].
    change (streq (lit "work") (lit "work")) with true. cbv iota.
    rewrite Hsel. unfold findIndex. rewrite Hk.
    destruct (Z.leb_spec 0 (Z.of_nat k)); [reflexivity|lia]. }
  pose proof (navigateTo_spec (lit "/") false st0) as Hn.
  destruct (navigateTo (lit "/") false st0) as [st1 e1] eqn:En.
  cbn [fst snd] in Hn.
  change (normalizePathname (lit "/")) with (lit "/") in Hn.
  destruct Hn as (H1 & _ & H3 & H4 & H5 & Heff).
  subst st0. cbn [withMenuClosed location pendingSectionId isMenuOpen
                  activeWorkIndex] in H3, H4, H5, Heff.
  assert (e1 = [PushState (lit "/")]) as ->.
  { destruct Heff as [(_ & Hsame & _) | (-> & _)]; [|reflexivity].
    exfalso. apply streq_neq in Hroot. apply Hroot. congruence. }
  assert (activeWorkProject (shoots photoLoaders) st1 = Some q) as Hactive.
  { assert (indexInRange (shoots photoLoaders) (activeWorkIndex st1)) as Hi.
    { rewrite H5. exists (Z.of_nat k). repeat split; lia. }
    destruct (safeWorkIndex_kept _ _ st1 Hi) as (_ & _ & Hcons).
    destruct Hcons as (i & p & Ei & Hi' & Hact).
    { intros E. rewrite E in Hin. destruct Hin. }
    rewrite H5 in Ei. injection Ei as Ei. apply Nat2Z.inj in Ei. subst i.
    congruence. }
  assert (exists st2,
            scrollTimerFires hasElement st1
            = (st2, if hasElement (lit "work")
                    then [ScrollIntoView (lit "work")] else [])
            /\ pathname st2 = lit "/"
            /\ pendingSectionId st2 = None
            /\ activeWorkIndex st2 = activeWorkIndex st1)
    as (st2 & Et & Hp2 & Hpend2 & Hidx2).
  { unfold scrollTimerFires. rewrite H3, H1.
    change (streq (lit "/") (lit "/")) with true. cbv iota.
    eexists. split; [reflexivity|]. repeat split. }
  exists st1, st2.
  split; [exact Ego|]. split; [exact H1|].
  split; [rewrite H1; reflexivity|]. split; [exact H4|]. split; [exact H3|].
  split; [unfold scrollTimerArmed; rewrite H3, H1; reflexivity|].
  split; [exact Hactive|]. split; [exact Et|].
  split; [exact Hp2|]. split; [exact Hpend2|].
  split; [unfold scrollTimerArmed; now rewrite Hpend2|].
  unfold activeWorkProject, safeWorkIndex in *. rewrite Hidx2. exact Hactive.
Qed.

(** X24.  The path of a built project is written without an escape: its
    route slug is made of unreserved characters only, so
    [encodeURIComponent] returns the slug as it is and does not throw
    [URIError], and [getProjectPath] is [/portfolio/] followed by the
    slug. Hence the encoding never stops [openProject] on a slide of
    [shoots], nor [openActiveProject]. *)
Theorem project_paths_unescaped :
  Forall (fun p : Project Loader =>
            encodeURIComponent (routeSlug p) = Some (routeSlug p)
            /\ getProjectPath (routeSlug p)
               = Some (PROJECT_PATH_PREFIX ++ routeSlug p))
    (shoots photoLoaders)
  /\ (forall index st,
        openProject (nth_error (shoots photoLoaders) index) st <> None)
  /\ (forall swiper st,
        openActiveProject (shoots photoLoaders) swiper st <> None).
Proof.
  assert (forall p, In p (shoots photoLoaders) ->
            encodeURIComponent (routeSlug p) = Some (routeSlug p)) as Henc.
  { intros p Hp. apply encodeURIComponent_slug. now apply shoots_slug_units. }
  assert (forall project st,
            (forall p, project = Some p -> In p (shoots photoLoaders)) ->
            openProject project st <> None) as Hopen.
  { intros [p|] st Hp; [|discriminate].
    unfold openProject, getProjectPath.
    rewrite (Henc p (Hp p eq_refl)). cbn [option_map].
    destruct (navigateTo _ _ _). discriminate. }
  split; [|split].
  - apply Forall_forall. intros p Hp. unfold getProjectPath.
    rewrite (Henc p Hp). split; reflexivity.
  - intros index st. apply Hopen. intros p Hp. eapply nth_error_In, Hp.
  - intros swiper st. unfold openActiveProject.
    destruct (jsLt (getValidSwiperIndex (shoots photoLoaders) st swiper)
                (Fin 0)); [discriminate|].
    apply Hopen. intros p Hp. unfold shootAt in Hp.
    destruct (getValidSwiperIndex (shoots photoLoaders) st swiper);
      try discriminate.
    destruct (z <? 0)%Z; [discriminate|]. eapply nth_error_In, Hp.
Qed.

End Opening.

(** ** The theorems on the sample library *)

Lemma sampleProjectState_reachable :
  @Navigation.Reachable asciiRuntime nat sampleShoots sampleHasElement
    (lit "/portfolio/Editorial/") sampleProjectState.
Proof. apply Navigation.ReachInitial. Qed.

Lemma sampleWorkState_step :
  @Navigation.step asciiRuntime nat sampleShoots sampleHasElement
    sampleProjectState (Navigation.GoToSection (lit "work"))
  = Some (sampleWorkState, [Navigation.PushState (lit "/")]).
Proof. reflexivity. Qed.

Lemma sampleWorkState_reachable :
  @Navigation.Reachable asciiRuntime nat sampleShoots sampleHasElement
    (lit "/portfolio/Editorial/") sampleWorkState.
Proof.
  eapply Navigation.ReachStep;
    [exact sampleProjectState_reachable | exact sampleWorkState_step].
Qed.

Lemma pathname_tracks_location_witness :
  @Navigation.Reachable asciiRuntime nat sampleShoots sampleHasElement
    (lit "/portfolio/Editorial/") sampleWorkState
  /\ Navigation.pathname sampleWorkState
     = normalizePathname (Navigation.location sampleWorkState)
  /\ normalizePathname (Navigation.pathname sampleWorkState)
     = Navigation.pathname sampleWorkState.
Proof.
  split; [exact sampleWorkState_reachable|].
  exact (@pathname_tracks_location asciiRuntime nat samplePhotos
           sampleHasElement _ _ sampleWorkState_reachable).
Defined.

Lemma activeWorkIndex_valid_witness :
  @Navigation.Reachable asciiRuntime nat sampleShoots sampleHasElement
    (lit "/portfolio/Editorial/") sampleWorkState
  /\ Navigation.safeWorkIndex sampleShoots sampleWorkState
     = Navigation.activeWorkIndex sampleWorkState
  /\ Navigation.initialIndex sampleShoots sampleWorkState
     = Navigation.activeWorkIndex sampleWorkState
  /\ (sampleShoots = [] -> Navigation.activeWorkIndex sampleWorkState = Fin 0)
  /\ (sampleShoots <> [] ->
      exists i p,
        Navigation.activeWorkIndex sampleWorkState = Fin (Z.of_nat i)
        /\ nth_error sampleShoots i = Some p
        /\ Navigation.activeWorkProject sampleShoots sampleWorkState = Some p).
Proof.
  split; [exact sampleWorkState_reachable|].
  exact (@activeWorkIndex_valid asciiRuntime nat samplePhotos
           sampleHasElement _ _ sampleWorkState_reachable).
Defined.

Lemma work_counters_witness :
  @Navigation.Reachable asciiRuntime nat sampleShoots sampleHasElement
    (lit "/portfolio/Editorial/") sampleWorkState
  /\ (Z.of_nat (List.length sampleShoots) < 2 ^ 32)%Z
  /\ Number (Navigation.totalWorkCounter sampleShoots)
     = Some (Z.of_nat (List.length sampleShoots))
  /\ 2 <= List.length (Navigation.totalWorkCounter sampleShoots)
  /\ 2 <= List.length (Navigation.currentWorkCounter sampleShoots sampleWorkState)
  /\ (sampleShoots = [] ->
      Navigation.currentWorkCounter sampleShoots sampleWorkState = lit "00"
      /\ Navigation.totalWorkCounter sampleShoots = lit "00")
  /\ (sampleShoots <> [] ->
      exists k p,
        Number (Navigation.currentWorkCounter sampleShoots sampleWorkState)
        = Some (Z.of_nat k)
        /\ 1 <= k <= List.length sampleShoots
        /\ nth_error sampleShoots (k - 1) = Some p
        /\ Navigation.activeWorkProject sampleShoots sampleWorkState = Some p).
Proof.
  split; [exact sampleWorkState_reachable|]. split; [reflexivity|].
  exact (@work_counters asciiRuntime nat samplePhotos sampleHasElement _ _
           sampleWorkState_reachable eq_refl).
Defined.

Lemma history_entries_witness :
  @Navigation.Reachable asciiRuntime nat sampleShoots sampleHasElement
    (lit "/portfolio/Editorial/") sampleProjectState
  /\ @Navigation.step asciiRuntime nat sampleShoots sampleHasElement
       sampleProjectState (Navigation.GoToSection (lit "work"))
     = Some (sampleWorkState, [Navigation.PushState (lit "/")])
  /\ (forall url,
        ~ In (Navigation.ReplaceState url) [Navigation.PushState (lit "/")])
  /\ (forall url,
        In (Navigation.PushState url) [Navigation.PushState (lit "/")] ->
        url <> Navigation.pathname sampleProjectState
        /\ Navigation.pathname sampleWorkState = url
        /\ Navigation.location sampleWorkState = url
        /\ normalizePathname url = url)
  /\ (Navigation.pathname sampleWorkState
      <> Navigation.pathname sampleProjectState ->
      (exists url,
         In (Navigation.PushState url) [Navigation.PushState (lit "/")])
      \/ exists moved,
           Navigation.GoToSection (lit "work")
           = Navigation.PopState moved).
Proof.
  split; [exact sampleProjectState_reachable|].
  split; [exact sampleWorkState_step|].
  exact (@history_entries asciiRuntime nat samplePhotos sampleHasElement _ _ _ _ _
           sampleProjectState_reachable sampleWorkState_step).
Defined.

Lemma sampleUnnamed_built :
  In sampleUnnamed (@shoots asciiRuntime nat sampleUnnamedPhotos).
Proof. vm_compute. left. reflexivity. Qed.

Lemma openProject_without_slug_witness :
  In sampleUnnamed (@shoots asciiRuntime nat sampleUnnamedPhotos)
  /\ routeSlug sampleUnnamed = []
  /\ exists st' effects,
       Navigation.openProject (Some sampleUnnamed) (Navigation.initialState (lit "/"))
       = Some (st', effects)
       /\ Navigation.pathname st' = lit "/portfolio"
       /\ @getProjectSlugFromPathname asciiRuntime (Navigation.pathname st') = None
       /\ @view asciiRuntime nat (@shoots asciiRuntime nat sampleUnnamedPhotos)
            (Navigation.pathname st')
          = MainView nat.
Proof.
  split; [exact sampleUnnamed_built|]. split; [reflexivity|].
  exact (@openProject_without_slug asciiRuntime nat sampleUnnamedPhotos
           sampleUnnamed (Navigation.initialState (lit "/"))
           sampleUnnamed_built eq_refl).
Defined.

Lemma sampleEditorial_named : routeSlug sampleEditorial <> [].
Proof. discriminate. Qed.

Lemma openProject_shows_project_witness :
  In sampleEditorial (@shoots asciiRuntime nat samplePhotos)
  /\ routeSlug sampleEditorial <> []
  /\ exists st' effects q,
       Navigation.openProject (Some sampleEditorial)
         (Navigation.initialState (lit "/"))
       = Some (st', effects)
       /\ Navigation.pathname st'
          = PROJECT_PATH_PREFIX ++ routeSlug sampleEditorial
       /\ Navigation.pendingSectionId st' = None
       /\ Navigation.isMenuOpen st' = false
       /\ Navigation.activeWorkIndex st'
          = Navigation.activeWorkIndex (Navigation.initialState (lit "/"))
       /\ In (Navigation.ScrollToTop false) effects
       /\ @view asciiRuntime nat (@shoots asciiRuntime nat samplePhotos)
            (Navigation.pathname st')
          = ProjectDetailView q
       /\ routeSlug q = routeSlug sampleEditorial
       /\ (exists before after,
             @shoots asciiRuntime nat samplePhotos = before ++ q :: after
             /\ forall r, In r before -> routeSlug r <> routeSlug sampleEditorial)
       /\ (NoDup (map (@routeSlug nat) (@shoots asciiRuntime nat samplePhotos)) ->
           q = sampleEditorial).
Proof.
  split; [exact sampleEditorial_built|]. split; [exact sampleEditorial_named|].
  exact (@openProject_shows_project asciiRuntime nat samplePhotos
           asciiRuntime_laws sampleEditorial (Navigation.initialState (lit "/"))
           sampleEditorial_built sampleEditorial_named).
Defined.

Lemma sampleProjectState_view :
  @view asciiRuntime nat (@shoots asciiRuntime nat samplePhotos)
    (Navigation.pathname sampleProjectState)
  = ProjectDetailView sampleEditorial.
Proof. reflexivity. Qed.

Lemma back_to_work_witness :
  @Navigation.Reachable asciiRuntime nat (@shoots asciiRuntime nat samplePhotos)
    sampleHasElement (lit "/portfolio/Editorial/") sampleProjectState
  /\ @view asciiRuntime nat (@shoots asciiRuntime nat samplePhotos)
       (Navigation.pathname sampleProjectState)
     = ProjectDetailView sampleEditorial
  /\ exists st1 st2,
       @Navigation.goToSection asciiRuntime nat
         (@shoots asciiRuntime nat samplePhotos) sampleHasElement
         (lit "work") sampleProjectState
       = (st1, [Navigation.PushState (lit "/")])
       /\ Navigation.pathname st1 = lit "/"
       /\ @view asciiRuntime nat (@shoots asciiRuntime nat samplePhotos)
            (Navigation.pathname st1)
          = MainView nat
       /\ Navigation.isMenuOpen st1 = false
       /\ Navigation.pendingSectionId st1 = Some (lit "work")
       /\ Navigation.scrollTimerArmed st1 = true
       /\ Navigation.activeWorkProject (@shoots asciiRuntime nat samplePhotos) st1
          = Some sampleEditorial
       /\ Navigation.scrollTimerFires sampleHasElement st1
          = (st2, if sampleHasElement (lit "work")
                  then [Navigation.ScrollIntoView (lit "work")] else [])
       /\ Navigation.pathname st2 = lit "/"
       /\ Navigation.pendingSectionId st2 = None
       /\ Navigation.scrollTimerArmed st2 = false
       /\ Navigation.activeWorkProject (@shoots asciiRuntime nat samplePhotos) st2
          = Some sampleEditorial.
Proof.
  split; [exact sampleProjectState_reachable|].
  split; [exact sampleProjectState_view|].
  exact (@back_to_work asciiRuntime nat samplePhotos sampleHasElement
           _ _ _ sampleProjectState_reachable sampleProjectState_view).
Defined.
